(** * extract_and_patch.py: HAR extraction and index.html patching

    A shallow embedding of [src/extract_and_patch.py] and the properties
    of its specification.

    Text.  A Python [str] is a list of characters, [str]; the characters
    are the code points 0..255 ([ascii]), with [str.lower] and the class
    [\s] of [re] as Python defines them on that range.  Bytes are
    [list Byte.byte].

    Library functions.  [re.sub] is a backtracking matcher for the part
    of the pattern language the program uses: literals, character classes,
    the greedy quantifiers [?], [*] and [+] on one-character items, and one
    capture group.  [urllib.parse.urlparse], [urllib.parse.unquote] and
    [base64.b64decode] are parameters; module [Lib] has executable
    stand-ins for the examples.

    Files.  The file system is a finite map from resolved paths to nodes,
    on a POSIX system: text is written with its line ends as they are, and
    read with [\r\n] and [\r] turned into [\n].  A path string is
    resolved component by component: empty components and [.] are dropped;
    links and the case of letters are not interpreted, and relative path
    strings are taken from a working directory that no absolute path
    string of a run leads into.  The component [..] is not interpreted
    either: a path string that has one is outside the model, and
    what is stated about the file a path names is stated for path strings
    without one ([no_dotdot]).  A Python [set] is a list without
    repetition, and the order of its iteration and the order of
    [os.scandir] are parameters.

    Modules [Py], [Re], [Patch], [Os], [Extractor] and [Main] hold the
    program, [Spec] and [Examples] what the statements need; the
    properties follow. *)

From Stdlib Require Import Ascii String.
From stdpp Require Import base option list gmap strings.

Local Open Scope list_scope.

(** ** Python strings *)

Module Py.

Definition str := list ascii.

Definition lit (s : string) : str := list_ascii_of_string s.

(** The double quote and the apostrophe. *)
Definition dq : ascii := "034"%char.
Definition sq : ascii := "039"%char.

Definition code (c : ascii) : N := N_of_ascii c.

(** [str.lower], one character at a time: A-Z and the upper-case letters of
    U+00C0..U+00DE (U+00D7, the multiplication sign, apart). *)
Definition lower_char (c : ascii) : ascii :=
  let n := code c in
  if ((65 <=? n) && (n <=? 90))%N
     || ((192 <=? n) && (n <=? 222) && negb (n =? 215))%N
  then ascii_of_N (n + 32) else c.

Definition lower (s : str) : str := map lower_char s.

(** The class [\s] of [re] on [str] patterns (and [str.isspace]). *)
Definition is_space (c : ascii) : bool :=
  let n := code c in
  (((9 <=? n) && (n <=? 13)) || ((28 <=? n) && (n <=? 32))
   || (n =? 133) || (n =? 160))%N.

Definition ceqb (a b : ascii) : bool := Ascii.eqb a b.

(** [s.startswith(p)] *)
Fixpoint startswith (s p : str) : bool :=
  match p, s with
  | [], _ => true
  | _ :: _, [] => false
  | a :: p', c :: s' => ceqb c a && startswith s' p'
  end.

(** [s.endswith(p)] *)
Definition endswith (s p : str) : bool := startswith (rev s) (rev p).

(** [s.endswith(t)] for a tuple [t] of suffixes. *)
Definition endswith_any (s : str) (t : list str) : bool :=
  existsb (endswith s) t.

(** [s.lstrip(c)] for a one-character argument. *)
Fixpoint lstrip (c : ascii) (s : str) : str :=
  match s with
  | x :: s' => if ceqb x c then lstrip c s' else s
  | [] => []
  end.

(** What reading in text mode makes of the line ends, the universal
    newlines of [open]: [\r\n] and a [\r] alone become [\n]. *)
Fixpoint universal_newlines (s : str) : str :=
  match s with
  | [] => []
  | c :: s' =>
      if ceqb c "013"
      then "010"%char ::
           match s' with
           | x :: s'' => if ceqb x "010" then universal_newlines s''
                         else universal_newlines s'
           | [] => []
           end
      else c :: universal_newlines s'
  end.

(** [s.partition(sep)] when [sep] occurs in [s]: the text before and after
    the first occurrence. *)
Fixpoint split_first (sep s : str) : option (str * str) :=
  match s with
  | [] => if startswith [] sep then Some ([], []) else None
  | c :: s' =>
      if startswith s sep then Some ([], drop (length sep) s)
      else match split_first sep s' with
           | Some (a, b) => Some (c :: a, b)
           | None => None
           end
  end.

(** [sep in s] *)
Definition contains (sep s : str) : bool :=
  match split_first sep s with Some _ => true | None => false end.

(** [s.split(sep, 1)[-1]]; an empty separator raises [ValueError]. *)
Definition split1_last (sep s : str) : option str :=
  match sep with
  | [] => None
  | _ => match split_first sep s with
         | Some (_, b) => Some b
         | None => Some s
         end
  end.

(** [s.split(c, n)] for a one-character separator. *)
Fixpoint split_char (c : ascii) (n : nat) (s : str) : list str :=
  match s with
  | [] => [[]]
  | x :: s' =>
      match n with
      | 0 => [s]
      | S n' =>
          if ceqb x c then [] :: split_char c n' s'
          else match split_char c n s' with
               | p :: ps => (x :: p) :: ps
               | [] => [[x]]
               end
      end
  end.

(** [l[-1]] of a list of strings that is never empty here. *)
Definition last_piece (l : list str) : str := List.last l [].

(** [s.replace(old, new)]: every occurrence of [old], left to right, without
    overlap.  [skip] counts the characters of the occurrence just replaced
    that are still to be passed over. *)
Fixpoint replace_go (old new : str) (skip : nat) (s : str) : str :=
  match s with
  | [] => []
  | c :: s' =>
      match skip with
      | S k => replace_go old new k s'
      | 0 => if startswith s old
             then new ++ replace_go old new (length old - 1) s'
             else c :: replace_go old new 0 s'
      end
  end.

Definition replace (old new s : str) : str :=
  match old with
  | [] => new ++ flat_map (fun c => c :: new) s
  | _ => replace_go old new 0 s
  end.

(** [sep.join(l)] *)
Fixpoint join (sep : str) (l : list str) : str :=
  match l with
  | [] => []
  | [x] => x
  | x :: l' => x ++ sep ++ join sep l'
  end.

(** [a < b] and [a <= b] on strings: code points, lexicographically. *)
Fixpoint str_ltb (a b : str) : bool :=
  match a, b with
  | [], [] => false
  | [], _ :: _ => true
  | _ :: _, [] => false
  | x :: a', y :: b' =>
      if (code x <? code y)%N then true
      else if (code y <? code x)%N then false
      else str_ltb a' b'
  end.

Definition str_leb (a b : str) : bool := negb (str_ltb b a).

(** [sorted(l)] *)
Fixpoint insert_sorted (x : str) (l : list str) : list str :=
  match l with
  | [] => [x]
  | y :: l' => if str_leb x y then x :: l else y :: insert_sorted x l'
  end.

Definition sorted (l : list str) : list str := foldr insert_sorted [] l.

End Py.

(** ** Regular expressions: the fragment of [re] the program uses *)

Module Re.
Import Py.

(** A character class. *)
Inductive cls :=
  | Is (c : ascii)              (* the literal character c *)
  | Not (c : ascii)             (* [^c] *)
  | OneOf (l : list ascii)      (* [...] *)
  | Space.                      (* \s *)

Definition cls_mem (k : cls) (c : ascii) : bool :=
  match k with
  | Is a => ceqb c a
  | Not a => negb (ceqb c a)
  | OneOf l => existsb (ceqb c) l
  | Space => is_space c
  end.

(** Greedy quantifiers on a one-character item. *)
Inductive quant := One | Opt | Star | Plus.

Inductive item :=
  | Ch (k : cls) (q : quant)
  | GOpen                       (* ( of group 1 *)
  | GClose.                     (* ) of group 1 *)

Definition regex := list item.

(** A literal string as a pattern. *)
Definition chars (s : string) : regex := map (fun c => Ch (Is c) One) (lit s).

(** The input that was left where group 1 opened and where it closed. *)
Record caps := { g_open : option str; g_close : option str }.

Definition no_caps : caps := {| g_open := None; g_close := None |}.

(** [x*] followed by the continuation [k]: the longest run first, then
    shorter ones. *)
Fixpoint greedy {R} (k : cls) (cont : str -> option R) (s : str) : option R :=
  match s with
  | c :: s' =>
      if cls_mem k c
      then match greedy k cont s' with
           | Some r => Some r
           | None => cont s
           end
      else cont s
  | [] => cont []
  end.

(** The backtracking matcher, anchored at the start of [s]: the input left
    after the first match in priority order, with the group marks. *)
Fixpoint match_here (re : regex) (cp : caps) (s : str) : option (str * caps) :=
  match re with
  | [] => Some (s, cp)
  | Ch k One :: re' =>
      match s with
      | c :: s' => if cls_mem k c then match_here re' cp s' else None
      | [] => None
      end
  | Ch k Opt :: re' =>
      match s with
      | c :: s' =>
          if cls_mem k c
          then match match_here re' cp s' with
               | Some r => Some r
               | None => match_here re' cp s
               end
          else match_here re' cp s
      | [] => match_here re' cp []
      end
  | Ch k Star :: re' => greedy k (match_here re' cp) s
  | Ch k Plus :: re' =>
      match s with
      | c :: s' => if cls_mem k c then greedy k (match_here re' cp) s' else None
      | [] => None
      end
  | GOpen :: re' =>
      match_here re' {| g_open := Some s; g_close := g_close cp |} s
  | GClose :: re' =>
      match_here re' {| g_open := g_open cp; g_close := Some s |} s
  end.

(** A match object: [m.group(0)] and [m.group(1)]. *)
Record rmatch := { group0 : str; group1 : str }.

(** The text between two positions of the input, each given by the input
    left at it. *)
Definition between (from to : str) : str := take (length from - length to) from.

Definition re_match (re : regex) (s : str) : option rmatch :=
  match match_here re no_caps s with
  | Some (rest, cp) =>
      Some {| group0 := between s rest;
              group1 := match g_open cp, g_close cp with
                        | Some a, Some b => between a b
                        | _, _ => []
                        end |}
  | None => None
  end.

(** The scan of [re.sub] and [re.finditer]: the input cut into the matches,
    leftmost first and without overlap, and the characters between them.
    [skip] counts the characters of the last match still to be passed over.
    A match of length 0 is followed by the character it stands before. *)
Inductive piece := Keep (c : ascii) | Hit (m : rmatch).

Fixpoint pieces_go (re : regex) (skip : nat) (s : str) : list piece :=
  match s with
  | [] =>
      match skip, re_match re [] with
      | 0, Some m => [Hit m]
      | _, _ => []
      end
  | c :: s' =>
      match skip with
      | S k => pieces_go re k s'
      | 0 =>
          match re_match re s with
          | Some m =>
              match length (group0 m) with
              | 0 => Hit m :: Keep c :: pieces_go re 0 s'
              | S k => Hit m :: pieces_go re k s'
              end
          | None => Keep c :: pieces_go re 0 s'
          end
      end
  end.

Definition pieces (re : regex) (s : str) : list piece := pieces_go re 0 s.

(** The text a piece stands for. *)
Definition text_of (p : piece) : str :=
  match p with Keep c => [c] | Hit m => group0 m end.

(** [re.sub(re, repl, s)] with a replacement function that cannot raise. *)
Definition sub (re : regex) (repl : rmatch -> str) (s : str) : str :=
  flat_map (fun p => match p with Keep c => [c] | Hit m => repl m end)
           (pieces re s).

(** [re.sub(re, repl, s)] with a replacement function that can raise:
    [None] is the exception. *)
Definition sub_opt (re : regex) (repl : rmatch -> option str) (s : str)
  : option str :=
  @concat ascii <$> mapM (fun p => match p with
                            | Keep c => Some [c]
                            | Hit m => repl m
                            end) (pieces re s).

End Re.

(** ** The patcher *)

Module Patch.
Import Py Re.

(** [IMAGE_EXTS] *)
Definition IMAGE_EXTS : list str :=
  [lit ".png"; lit ".jpg"; lit ".jpeg"; lit ".gif"; lit ".webp"; lit ".svg";
   lit ".ico"].

Definition is_image (s : str) : bool := endswith_any (lower s) IMAGE_EXTS.

(** The loop [for host in hosts] of [replacer]; [hosts] lists the set in
    the order the iteration visits it. *)
Fixpoint replacer_loop (hosts : list str) (url g0 : str) : option str :=
  match hosts with
  | [] => Some g0
  | host :: hosts' =>
      if contains host url
      then tail ← split1_last host url;
           Some (replace url (lit "./" ++ lstrip "/" tail) g0)
      else replacer_loop hosts' url g0
  end.

(** [replacer(match)], lines 78-86. *)
Definition replacer (hosts : list str) (m : rmatch) : option str :=
  let url := group1 m in
  if is_image url then Some (group0 m)
  else replacer_loop hosts url (group0 m).

(** Line 89, writing D for the double quote: [<script[^>]+src=D([^D]+)D] *)
Definition script_re : regex :=
  chars "<script" ++ [Ch (Not ">") Plus] ++ chars "src=" ++
  [Ch (Is dq) One; GOpen; Ch (Not dq) Plus; GClose; Ch (Is dq) One].

(** Line 90: [<link[^>]+href=D([^D]+)D] *)
Definition link_re : regex :=
  chars "<link" ++ [Ch (Not ">") Plus] ++ chars "href=" ++
  [Ch (Is dq) One; GOpen; Ch (Not dq) Plus; GClose; Ch (Is dq) One].

(** Line 93, writing Q for the apostrophe:
    [@import\s+url\([DQ]?(https?://[^)]+)[DQ]?\)] *)
Definition import_re : regex :=
  chars "@import" ++ [Ch Space Plus] ++ chars "url(" ++
  [Ch (OneOf [dq; sq]) Opt; GOpen] ++ chars "http" ++ [Ch (Is "s") Opt] ++
  chars "://" ++
  [Ch (Not ")") Plus; GClose; Ch (OneOf [dq; sq]) Opt; Ch (Is ")") One].

(** The replacement of line 93. *)
Definition import_repl (m : rmatch) : str :=
  lit "@import url(" ++ [dq] ++ lit "./" ++
  last_piece (split_char "/" 3 (group1 m)) ++ [dq] ++ lit ")".

(** Line 96: [https?://[^/]+/_next/static/] *)
Definition next_abs_re : regex :=
  chars "http" ++ [Ch (Is "s") Opt] ++ chars "://" ++ [Ch (Not "/") Plus] ++
  chars "/_next/static/".

(** Line 97: [//[^/]+/_next/static/] *)
Definition next_rel_re : regex :=
  chars "//" ++ [Ch (Not "/") Plus] ++ chars "/_next/static/".

Definition next_repl (_ : rmatch) : str := lit "./_next/static/".

(** Lines 100-101: [\s+integrity=D[^D]*D] and [\s+crossorigin=D[^D]*D] *)
Definition attr_re (name : string) : regex :=
  [Ch Space Plus] ++ chars name ++
  [Ch (Is "=") One; Ch (Is dq) One; Ch (Not dq) Star; Ch (Is dq) One].

Definition integrity_re : regex := attr_re "integrity".
Definition crossorigin_re : regex := attr_re "crossorigin".

Definition no_repl (_ : rmatch) : str := [].

(** Lines 93-101: the substitutions that do not look at the host set. *)
Definition patch_import (s : str) : str := sub import_re import_repl s.
Definition patch_next_abs (s : str) : str := sub next_abs_re next_repl s.
Definition patch_next_rel (s : str) : str := sub next_rel_re next_repl s.
Definition strip_integrity (s : str) : str := sub integrity_re no_repl s.
Definition strip_crossorigin (s : str) : str := sub crossorigin_re no_repl s.

Definition patch_static (s : str) : str :=
  strip_crossorigin (strip_integrity (patch_next_rel (patch_next_abs
    (patch_import s)))).

(** Lines 89-90. *)
Definition patch_script (hosts : list str) (s : str) : option str :=
  sub_opt script_re (replacer hosts) s.
Definition patch_link (hosts : list str) (s : str) : option str :=
  sub_opt link_re (replacer hosts) s.

(** The text [patch_index] writes back, from the text it read: lines
    78-101.  [None] is the [ValueError] of [url.split(host, 1)] for an
    empty [host]. *)
Definition patch_text (hosts : list str) (s : str) : option str :=
  s1 ← patch_script hosts s;
  s2 ← patch_link hosts s1;
  Some (patch_static s2).

End Patch.

(** ** The operating system: files, directories, standard output *)

Module Os.
Import Py.

(** A resolved path: the components of a path string, the empty ones and
    [.] dropped, with ["/"] in front when the string is absolute.  Links
    are not interpreted.  The component [..] is not either, so that
    [resolve] names the file the system opens only for a path string
    without it. *)
Definition path := list str.

Definition root_mark : str := lit "/".

(** [s.split(c)]: cut at every [c]. *)
Fixpoint split_all (c : ascii) (s : str) : list str :=
  match s with
  | [] => [[]]
  | x :: s' =>
      if ceqb x c then [] :: split_all c s'
      else match split_all c s' with
           | p :: ps => (x :: p) :: ps
           | [] => [[x]]
           end
  end.

Definition is_name (c : str) : bool :=
  negb (bool_decide (c = [])) && negb (bool_decide (c = lit ".")).

Definition resolve (p : str) : path :=
  let comps := List.filter is_name (split_all "/" p) in
  if startswith p (lit "/") then root_mark :: comps else comps.

(** No component of the path string is [..]. *)
Definition no_dotdot (p : str) : bool :=
  forallb (fun c => negb (bool_decide (c = lit ".."))) (split_all "/" p).

(** What is on disk under a name.  [Text s] is the encoding of [s] that a
    file opened in text mode holds, [Bin b] the bytes [b]. *)
Inductive content := Text (s : str) | Bin (b : list Byte.byte).
Inductive node := File (c : content) | Dir.

Inductive exn := OSError | ValueError | BinasciiError | UnicodeDecodeError.

Inductive result (A : Type) := Ok (a : A) | Raise (e : exn).
Arguments Ok {A} a.
Arguments Raise {A} e.

(** The working directory and the root always exist. *)
Definition is_top (k : path) : bool :=
  bool_decide (k = []) || bool_decide (k = [root_mark]).

Definition is_dir (f : gmap path node) (k : path) : bool :=
  is_top k || match f !! k with Some Dir => true | _ => false end.

Definition parent (k : path) : path := removelast k.

(** [mkdir] of one component, for [makedirs(..., exist_ok=True)]. *)
Definition ensure_dir (f : gmap path node) (k : path) : result (gmap path node) :=
  if is_top k then Ok f
  else match f !! k with
       | Some Dir => Ok f
       | Some (File _) => Raise OSError
       | None => Ok (<[k := Dir]> f)
       end.

(** [k[:1], k[:2], ..., k] *)
Definition prefixes (k : path) : list path :=
  map (fun n => take n k) (seq 1 (length k)).

Fixpoint ensure_dirs (ks : list path) (f : gmap path node)
  : result (gmap path node) :=
  match ks with
  | [] => Ok f
  | k :: ks' => match ensure_dir f k with
                | Ok f' => ensure_dirs ks' f'
                | Raise e => Raise e
                end
  end.

(** [os.makedirs(k, exist_ok=True)] of a resolved path: every missing
    directory from the top down; a file in the way raises. *)
Definition makedirs_at (k : path) (f : gmap path node) : result (gmap path node) :=
  ensure_dirs (prefixes k) f.

(** [open(k, 'w')] or [open(k, 'wb')], [write], [close], of a resolved
    path. *)
Definition write_at (k : path) (c : content) (f : gmap path node)
  : result (gmap path node) :=
  if is_top k then Raise OSError
  else if negb (is_dir f (parent k)) then Raise OSError
  else match f !! k with
       | Some Dir => Raise OSError
       | _ => Ok (<[k := File c]> f)
       end.

Definition read_at (k : path) (f : gmap path node) : result content :=
  match f !! k with
  | Some (File c) => Ok c
  | _ => Raise OSError
  end.

(** A path string names a file only if its last component is a name. *)
Definition names_file (p : str) : bool :=
  is_name (last_piece (split_all "/" p))
  && negb (bool_decide (last_piece (split_all "/" p) = lit "..")).

(** [os.makedirs(name, exist_ok=True)]; the empty name raises
    [FileNotFoundError]. *)
Definition makedirs (name : str) (f : gmap path node) : result (gmap path node) :=
  match name with
  | [] => Raise OSError
  | _ => makedirs_at (resolve name) f
  end.

Definition open_write (p : str) (c : content) (f : gmap path node)
  : result (gmap path node) :=
  if names_file p then write_at (resolve p) c f else Raise OSError.

(** [os.path.exists(p)] *)
Definition exists_ (p : str) (f : gmap path node) : bool :=
  match p with
  | [] => false
  | _ => is_top (resolve p)
         || match f !! resolve p with Some _ => true | None => false end
  end.

(** [os.path.join(a, b)] of [posixpath]. *)
Definition path_join (a b : str) : str :=
  if startswith b (lit "/") then b
  else if bool_decide (a = []) || endswith a (lit "/") then a ++ b
  else a ++ lit "/" ++ b.

(** [s.rstrip('/')] *)
Definition rstrip_slash (s : str) : str := rev (lstrip "/" (rev s)).

(** [p[:p.rfind('/') + 1]], on the reversed string. *)
Fixpoint drop_to_slash (r : str) : str :=
  match r with
  | [] => []
  | c :: r' => if ceqb c "/" then r else drop_to_slash r'
  end.

(** [os.path.dirname(p)] of [posixpath]: the text up to the last slash,
    without its trailing slashes unless it is made of slashes only. *)
Definition dirname (p : str) : str :=
  let head := rev (drop_to_slash (rev p)) in
  if forallb (ceqb "/") head then head else rstrip_slash head.

(** What the program prints. *)
Inductive event :=
  | SkipNoBody (url : str) (status : option Z)
  | Wrote (p : str)
  | ErrorWriting (p : str) (ex : exn)
  | ExtractionComplete (written : nat) (out_dir : str)
  | Copying
  | CopyComplete
  | NothingToCopy
  | IndexNotFound (p : str)
  | BackedUp (p : str)
  | Patched.

Record world := { w_fs : gmap path node; w_out : list event }.

(** Computations that read and change the world and may raise. *)
Definition M (A : Type) : Type := world -> result A * world.

Definition ret {A} (a : A) : M A := fun w => (Ok a, w).
Definition raise {A} (e : exn) : M A := fun w => (Raise e, w).
Definition bind {A B} (m : M A) (k : A -> M B) : M B :=
  fun w => match m w with
           | (Ok a, w') => k a w'
           | (Raise e, w') => (Raise e, w')
           end.

Notation "'letM' x := m 'in' k" := (bind m (fun x => k))
  (at level 10, x name, m at level 100, k at level 200, only parsing).
Notation "'seqM' m 'in' k" := (bind m (fun _ => k))
  (at level 10, m at level 100, k at level 200, only parsing).

(** [try: m except Exception as ex: h(ex)] *)
Definition catch {A} (m : M A) (h : exn -> M A) : M A :=
  fun w => match m w with
           | (Ok a, w') => (Ok a, w')
           | (Raise e, w') => h e w'
           end.

Definition print (e : event) : M unit :=
  fun w => (Ok tt, {| w_fs := w_fs w; w_out := w_out w ++ [e] |}).

(** A file-system call: on an exception the file system is as it was. *)
Definition sys (op : gmap path node -> result (gmap path node)) : M unit :=
  fun w => match op (w_fs w) with
           | Ok f' => (Ok tt, {| w_fs := f'; w_out := w_out w |})
           | Raise e => (Raise e, w)
           end.

Definition ask {A} (q : gmap path node -> A) : M A := fun w => (Ok (q (w_fs w)), w).

Definition of_result {A} (r : result A) : M A := fun w => (r, w).

Definition of_option {A} (e : exn) (o : option A) : M A :=
  match o with Some a => ret a | None => raise e end.

(** Unfolds the operations of [M]. *)
Ltac run_m :=
  unfold of_option, of_result, ask, catch, bind, sys, print, ret, raise in *;
  cbn [w_fs w_out fst snd] in *.

End Os.

(** ** The extractor *)

Module Extractor.
Import Py Patch Os.

(** [safe_write(path, data, binary)], lines 10-14; [c] carries the mode. *)
Definition safe_write (p : str) (c : content) : M unit :=
  seqM sys (makedirs (dirname p)) in sys (open_write p c).

(** An element of [log.entries], as far as the program reads it: [e_url]
    is [request.url], [e_status] is [response.status], [e_text] and
    [e_encoding] are [response.content.text] and [.encoding]; [None] is an
    absent key or [null]. *)
Record entry := {
  e_url : option str;
  e_status : option Z;
  e_text : option str;
  e_encoding : option str
}.

(** What [urlparse] returns, as far as the program reads it. *)
Record url_parts := { netloc : str; upath : str }.

(** The local variables of [extract_har]; [hosts] lists the set without
    repetition. *)
Record locals := { hosts : list str; written : nat }.

(** [hosts.add(host)] *)
Definition set_add (h : str) (l : list str) : list str :=
  if bool_decide (h ∈ l) then l else l ++ [h].

Definition newline : str := ["010"%char].

Section Library.

(** [urllib.parse.urlparse] ([None]: it raises [ValueError]),
    [urllib.parse.unquote], and [base64.b64decode] ([None]: it raises
    [binascii.Error]). *)
Variable urlparse : str -> option url_parts.
Variable unquote : str -> str.
Variable b64decode : str -> option (list Byte.byte).

(** Lines 33-35. *)
Definition derived_path (host ppath : str) : str :=
  let p := unquote (lstrip "/" ppath) in
  match p with
  | [] => host ++ lit "/index.html"
  | _ => p
  end.

(** Lines 50-55: the body of the [try]. *)
Definition write_body (out_path text : str) (encoding : option str) : M unit :=
  if bool_decide (encoding = Some (lit "base64"))
  then letM data := of_option BinasciiError (b64decode text) in
       safe_write out_path (Bin data)
  else safe_write out_path (Text text).

(** Lines 24-59: one turn of the loop. *)
Definition extract_entry (out_dir : str) (e : entry) (l : locals) : M locals :=
  match e_url e with
  | None | Some [] => ret l
  | Some url =>
      letM parsed := of_option ValueError (urlparse url) in
      let host := netloc parsed in
      match host with
      | [] => ret l
      | _ =>
          let l1 := {| hosts := set_add host (hosts l); written := written l |} in
          let p := derived_path host (upath parsed) in
          if is_image p then ret l1
          else
            let out_path := path_join out_dir p in
            match e_text e with
            | None => seqM print (SkipNoBody url (e_status e)) in ret l1
            | Some text =>
                catch
                  (seqM write_body out_path text (e_encoding e) in
                   seqM print (Wrote out_path) in
                   ret {| hosts := hosts l1; written := S (written l1) |})
                  (fun ex => seqM print (ErrorWriting out_path ex) in ret l1)
            end
      end
  end.

(** Lines 23-59: [for e in entries]. *)
Fixpoint extract_loop (out_dir : str) (entries : list entry) (l : locals)
  : M locals :=
  match entries with
  | [] => ret l
  | e :: rest => letM l' := extract_entry out_dir e l in extract_loop out_dir rest l'
  end.

Definition hosts_file (out_dir : str) : str :=
  path_join out_dir (lit "extracted_hosts.txt").

(** Lines 60-63. *)
Definition finish (out_dir : str) (l : locals) : M (list str) :=
  seqM print (ExtractionComplete (written l) out_dir) in
  seqM sys (open_write (hosts_file out_dir) (Text (join newline (sorted (hosts l))))) in
  ret (hosts l).

(** [extract_har(har_path, out_dir)] from line 20 on, lines 20-63: what
    the function does once it has printed the line of line 17 and parsed
    the file (lines 18-19).  [entries] is the parsed [log.entries], and the
    world is the one line 17 has left. *)
Definition extract_har (entries : list entry) (out_dir : str) : M (list str) :=
  letM l := extract_loop out_dir entries {| hosts := []; written := 0 |} in
  finish out_dir l.

End Library.
End Extractor.

(** ** [patch_index] and [main] *)

Module Main.
Import Py Patch Os Extractor.

(** What the file holds: [open(p, 'rb').read()], and the first step of
    reading it as text. *)
Definition read_file (p : str) : M content :=
  fun w => (read_at (resolve p) (w_fs w), w).

Section Environment.

Variable urlparse : str -> option url_parts.
Variable unquote : str -> str.
Variable b64decode : str -> option (list Byte.byte).

(** Decoding bytes as UTF-8 ([None]: [UnicodeDecodeError]). *)
Variable utf8_decode : list Byte.byte -> option str.
(** [time.strftime] at the time of the call. *)
Variable stamp : str.
(** The order in which a [set] is iterated. *)
Variable iter_order : list str -> list str.
(** The order in which [os.scandir] lists the entries of a directory. *)
Variable scan_order : path -> list (str * node) -> list (str * node).

(** [patch_index(index_path, hosts)], lines 65-105.  The index is read
    as text: decoded, and its line ends made [\n]. *)
Definition patch_index (index_path : str) (hs : list str) : M unit :=
  letM found := ask (exists_ index_path) in
  if negb found then print (IndexNotFound index_path)
  else
    letM c := read_file index_path in
    letM s0 := match c with
               | Text s => ret s
               | Bin b => of_option UnicodeDecodeError (utf8_decode b)
               end in
    let s := universal_newlines s0 in
    let bak := index_path ++ lit ".bak-" ++ stamp in
    seqM sys (open_write bak (Text s)) in
    seqM print (BackedUp bak) in
    letM s' := of_option ValueError (patch_text hs s) in
    seqM sys (open_write index_path (Text s')) in
    print Patched.

(** The entries of the directory [d], in the order [os.scandir] gives. *)
Definition listdir (f : gmap path node) (d : path) : list (str * node) :=
  scan_order d
    (omap (fun '(k, n) =>
             if bool_decide (k ≠ [] ∧ parent k = d)
             then Some (List.last k [], n) else None)
          (map_to_list f)).

Definition is_Dir (n : node) : bool :=
  match n with Dir => true | File _ => false end.

(** [os.path.relpath(p, start)] when [p] lies under [start]. *)
Definition relpath (p start : str) : str :=
  join (lit "/") (drop (length (resolve start)) (resolve p)).

(** Lines 120-125: the copy of one file. *)
Definition copy_file (out_sub out_dir root file : str) : M unit :=
  let rel := relpath (path_join root file) out_sub in
  let src := path_join root file in
  let dst := path_join out_dir rel in
  seqM sys (makedirs (dirname dst)) in
  letM c := read_file src in
  sys (open_write dst c).

Fixpoint for_each {A} (body : A -> M unit) (l : list A) : M unit :=
  match l with
  | [] => ret tt
  | a :: l' => seqM body a in for_each body l'
  end.

(** A loop whose body may run out of fuel ([None]). *)
Fixpoint for_each_fuel {A} (body : A -> world -> option (result unit * world))
    (l : list A) (w : world) : option (result unit * world) :=
  match l with
  | [] => Some (Ok tt, w)
  | a :: l' =>
      match body a w with
      | Some (Ok _, w') => for_each_fuel body l' w'
      | other => other
      end
  end.

(** Lines 118-125: [for root, dirs, files in os.walk(root)] with the copy
    as its body.  A directory is listed when the walk reaches it, its files
    are copied, then its subdirectories are walked in the order listed.
    [fuel] bounds the depth. *)
Fixpoint walk_copy (fuel : nat) (out_sub out_dir root : str) (w : world)
  : option (result unit * world) :=
  match fuel with
  | 0 => None
  | S fuel' =>
      let ents := listdir (w_fs w) (resolve root) in
      let dirs := map fst (List.filter (fun e => is_Dir (snd e)) ents) in
      let files := map fst (List.filter (fun e => negb (is_Dir (snd e))) ents) in
      match for_each (copy_file out_sub out_dir root) files w with
      | (Ok _, w') =>
          for_each_fuel
            (fun d => walk_copy fuel' out_sub out_dir (path_join root d))
            dirs w'
      | (Raise e, w') => Some (Raise e, w')
      end
  end.

(** [os.path.abspath], as far as line 116 compares its results. *)
Definition abspath (p : str) : path := resolve p.

(** Lines 116-128. *)
Definition copy_phase (fuel : nat) (out_sub out_dir : str) (w : world)
  : option (result unit * world) :=
  if bool_decide (abspath out_sub ≠ abspath out_dir)
  then match print Copying w with
       | (_, w1) =>
           match walk_copy fuel out_sub out_dir out_sub w1 with
           | Some (Ok _, w2) => Some (print CopyComplete w2)
           | other => other
           end
       end
  else Some (print NothingToCopy w).

(** [main()], lines 111-132, from the parsed [log.entries] of the HAR
    file and [out_dir]. *)
Definition main (fuel : nat) (entries : list entry) (out_dir : str) (w : world)
  : option (result unit * world) :=
  let out_sub := path_join out_dir (lit "out_extracted") in
  match (seqM sys (makedirs out_sub) in
         extract_har urlparse unquote b64decode entries out_sub) w with
  | (Raise e, w1) => Some (Raise e, w1)
  | (Ok hs, w1) =>
      match copy_phase fuel out_sub out_dir w1 with
      | Some (Ok _, w2) =>
          let index_path := path_join out_dir (lit "index.html") in
          let index_path :=
            if exists_ index_path (w_fs w2) then index_path
            else lit "index.html" in
          Some (patch_index index_path (iter_order hs) w2)
      | other => other
      end
  end.

End Environment.
End Main.

(** ** The library functions, for the examples

    Executable stand-ins for [urlparse], [unquote] and [b64decode] on the
    inputs the examples use.  The theorems below hold for every choice of
    the three functions. *)

Module Lib.
Import Py Os Extractor.

Definition is_alpha (c : ascii) : bool :=
  let n := code (lower_char c) in ((97 <=? n) && (n <=? 122))%N.
Definition is_digit (c : ascii) : bool :=
  let n := code c in ((48 <=? n) && (n <=? 57))%N.
Definition is_scheme_char (c : ascii) : bool :=
  is_alpha c || is_digit c || existsb (ceqb c) ["+"; "-"; "."]%char.

(** The text before the first character that satisfies [stop], and the
    text from it on. *)
Fixpoint break_at (stop : ascii -> bool) (s : str) : str * str :=
  match s with
  | [] => ([], [])
  | c :: s' => if stop c then ([], s)
               else let '(a, b) := break_at stop s' in (c :: a, b)
  end.

(** [_splitparams]: the path without the parameters of its last segment. *)
Definition strip_params (p : str) : str :=
  let r := rev p in
  let '(last_rev, dirs_rev) := break_at (ceqb "/") r in
  let '(seg, _) := break_at (ceqb ";") (rev last_rev) in
  rev dirs_rev ++ seg.

(** [urlparse(url)]: scheme, then [//netloc], then the path up to the
    query or the fragment, without its parameters; a bracket without its
    partner in the netloc raises. *)
Definition urlparse (url : str) : option url_parts :=
  let '(sch, rest) := break_at (ceqb ":") url in
  let after_scheme :=
    match sch, rest with
    | c :: _, _ :: r => if is_alpha c && forallb is_scheme_char sch then r else url
    | _, _ => url
    end in
  let '(loc, rest2) :=
    if startswith after_scheme (lit "//")
    then break_at (fun c => existsb (ceqb c) ["/"; "?"; "#"]%char)
                  (drop 2 after_scheme)
    else ([], after_scheme) in
  if xorb (existsb (ceqb "[") loc) (existsb (ceqb "]") loc) then None
  else
    let '(p, _) := break_at (fun c => existsb (ceqb c) ["?"; "#"]%char) rest2 in
    Some {| netloc := loc; upath := strip_params p |}.

Definition hex_val (c : ascii) : option N :=
  let n := code (lower_char c) in
  if is_digit c then Some (n - 48)%N
  else if ((97 <=? n) && (n <=? 102))%N then Some (n - 87)%N
  else None.

(** [unquote(s)] where every escape decodes to a code point below 128; an
    escape of a byte from 128 on is left as it is written. *)
Fixpoint unquote (s : str) : str :=
  match s with
  | [] => []
  | c :: s' =>
      match s' with
      | h :: l :: _ =>
          match (if ceqb c "%" then hex_val h else None), hex_val l with
          | Some a, Some b =>
              if (a <? 8)%N
              then ascii_of_N (16 * a + b) ::
                   match unquote s' with _ :: _ :: t => t | t => t end
              else c :: unquote s'
          | _, _ => c :: unquote s'
          end
      | _ => c :: unquote s'
      end
  end.

(** The value of a character of the base64 alphabet. *)
Definition b64_val (c : ascii) : option N :=
  let n := code c in
  if ((65 <=? n) && (n <=? 90))%N then Some (n - 65)%N
  else if ((97 <=? n) && (n <=? 122))%N then Some (n - 71)%N
  else if is_digit c then Some (n + 4)%N
  else if ceqb c "+" then Some 62%N
  else if ceqb c "/" then Some 63%N
  else None.

Definition byte_of_N (n : N) : Byte.byte :=
  match Byte.of_N (n mod 256) with Some b => b | None => Byte.x00 end.

Fixpoint b64_groups (v : list N) : option (list Byte.byte) :=
  match v with
  | a :: b :: c :: d :: v' =>
      let n := (a * 262144 + b * 4096 + c * 64 + d)%N in
      rest ← b64_groups v';
      Some (byte_of_N (n / 65536) :: byte_of_N (n / 256) :: byte_of_N n :: rest)
  | [a; b; c] =>
      let n := (a * 262144 + b * 4096 + c * 64)%N in
      Some [byte_of_N (n / 65536); byte_of_N (n / 256)]
  | [a; b] =>
      let n := (a * 262144 + b * 4096)%N in
      Some [byte_of_N (n / 65536)]
  | [_] => None
  | [] => Some []
  end.

(** [base64.b64decode(s)]: the characters outside the alphabet are
    dropped; wrong padding raises. *)
Definition b64decode (s : str) : option (list Byte.byte) :=
  let v := omap b64_val s in
  let pads := length (List.filter (ceqb "=") s) in
  if bool_decide (length v `mod` 4 = 0 ∨ 4 <= length v `mod` 4 + pads)
  then b64_groups v else None.

End Lib.


(** ** Notions the statements use *)

Module Spec.
Import Py Re Patch Os Extractor Main.

(** The matches of a scan, as [re.finditer] yields them. *)
Definition hits (re : regex) (s : str) : list rmatch :=
  omap (fun p => match p with Hit m => Some m | Keep _ => None end)
       (pieces re s).

(** [patch_index] run twice on a text. *)
Definition patch_twice (hs : list str) (s : str) : option str :=
  s1 ← patch_text hs s; patch_text hs s1.

(** A URL with a scheme or an authority. *)
Definition is_remote (u : str) : bool :=
  startswith u (lit "http://") || startswith u (lit "https://")
  || startswith u (lit "//").

(** Every reference the patcher looks for is local: the URLs of the
    script and link tags are relative, and there is neither an absolute
    import nor an absolute static-asset prefix. *)
Definition relative_refs (d : str) : bool :=
  forallb (fun m => negb (is_remote (group1 m))) (hits script_re d)
  && forallb (fun m => negb (is_remote (group1 m))) (hits link_re d)
  && bool_decide (hits import_re d = [])
  && bool_decide (hits next_abs_re d = [])
  && bool_decide (hits next_rel_re d = []).

(** The URL of a match is one [replacer] leaves alone: an image, or a
    text in which no host of the set occurs. *)
Definition host_free (hs : list str) (m : rmatch) : bool :=
  is_image (group1 m) || forallb (fun h => negb (contains h (group1 m))) hs.

(** Nothing in the text is for the patcher to change. *)
Definition settled (hs : list str) (d : str) : bool :=
  forallb (host_free hs) (hits script_re d)
  && forallb (host_free hs) (hits link_re d)
  && bool_decide (hits import_re d = [])
  && bool_decide (hits next_abs_re d = [])
  && bool_decide (hits next_rel_re d = [])
  && bool_decide (hits integrity_re d = [])
  && bool_decide (hits crossorigin_re d = []).

(** The attribute name, the equals sign and the opening quote. *)
Definition attr_head (name : string) : str := lit name ++ ["="%char; dq].

(** Lines 100-101 together. *)
Definition strip_attrs (s : str) : str := strip_crossorigin (strip_integrity s).

Definition ends_in_space (a : str) : bool :=
  match last a with Some c => is_space c | None => false end.

Definition no_quote (v : str) : bool := forallb (fun c => negb (ceqb c dq)) v.

(** The names among the components of a path string. *)
Definition comps (p : str) : path := List.filter is_name (split_all "/" p).

(** A component that [resolve] can produce: a name without a slash. *)
Definition good_name (n : str) : bool :=
  is_name n && forallb (fun c => negb (ceqb c "/")) n.

(** Every node under [d] has a path of names from [d] on. *)
Definition good_tree (f : gmap path node) (d : path) : Prop :=
  forall r, is_Some (f !! (d ++ r)) -> forallb good_name r = true.

(** The length of the longest path of the file system. *)
Definition deepest (f : gmap path node) : nat :=
  max_list (map (fun kn => length kn.1) (map_to_list f)).

Definition staging_name : str := lit "out_extracted".

(** [good_tree f d], and nothing under [d/out_extracted], by inspection
    of the paths of [f]. *)
Definition tree_check (f : gmap path node) (d : path) : bool :=
  forallb (fun kn : path * node =>
             if bool_decide (d `prefix_of` kn.1)
             then forallb good_name (drop (length d) kn.1)
                  && negb (bool_decide (d ++ [staging_name] `prefix_of` kn.1))
             else true)
          (map_to_list f).

Section CopySpec.

(** The staging directory, the target root, and the file system when the
    copy starts. *)
Variables (sub out : path) (f0 : gmap path node).

(** Under the staging directory nothing has changed. *)
Definition unchanged (w : world) : Prop :=
  forall r : path, w_fs w !! (sub ++ r) = f0 !! (sub ++ r).

(** The file at [r] under the staging directory is in the target. *)
Definition copied (w : world) (r : path) (c : content) : Prop :=
  w_fs w !! (out ++ r) = Some (File c).

Definition keeps (w w' : world) : Prop :=
  forall (r : path) c, f0 !! (sub ++ r) = Some (File c) ->
                       copied w r c -> copied w' r c.

(** Every file below [d], reached through directories, is in the target. *)
Definition covered (d : path) (w : world) : Prop :=
  forall (r : path) c, r <> [] ->
    f0 !! (sub ++ d ++ r) = Some (File c) ->
    (forall i, 0 < i < length r -> f0 !! (sub ++ d ++ take i r) = Some Dir) ->
    copied w (d ++ r) c.

End CopySpec.

(** [a1 < a2 < ...] *)
Fixpoint strictly_sorted (l : list str) : bool :=
  match l with
  | x :: l' =>
      match l' with
      | y :: _ => str_ltb x y && strictly_sorted l'
      | [] => true
      end
  | [] => true
  end.

Section EntrySpec.

Variable urlparse : str -> option url_parts.
Variable unquote : str -> str.
Variable b64decode : str -> option (list Byte.byte).

(** The URL of an entry, split, when it is not empty and has a netloc
    that is not empty: what gets an entry past lines 26-31. *)
Definition parts_of (e : entry) : option url_parts :=
  match e_url e with
  | Some (c :: u) =>
      match urlparse (c :: u) with
      | Some p => match netloc p with [] => None | _ => Some p end
      | None => None
      end
  | _ => None
  end.

(** The host an entry adds to the set. *)
Definition host_of (e : entry) : option str := netloc <$> parts_of e.

(** The path an entry is written to, when it gets as far as the [try]:
    the path is not an image and the body is present. *)
Definition target (out_dir : str) (e : entry) : option str :=
  p ← parts_of e;
  let d := derived_path unquote (netloc p) (upath p) in
  if is_image d then None
  else match e_text e with
       | Some _ => Some (path_join out_dir d)
       | None => None
       end.

(** The body of an entry as it is written: decoded when the encoding is
    base64, the text otherwise. *)
Definition body_of (e : entry) : option content :=
  text ← e_text e;
  if bool_decide (e_encoding e = Some (lit "base64"))
  then Bin <$> b64decode text
  else Some (Text text).

(** The netloc of every entry whose URL is present and not empty, as the
    specification counts the hosts. *)
Definition spec_netlocs (entries : list entry) : list str :=
  omap (fun e => match e_url e with
                 | Some (c :: u) => netloc <$> urlparse (c :: u)
                 | _ => None
                 end) entries.

Definition spec_host_text (entries : list entry) : str :=
  join newline (sorted (foldr set_add [] (spec_netlocs entries))).

End EntrySpec.

(** The locals after [hosts.add(h)] and after [written += 1]. *)
Definition added (h : str) (l : locals) : locals :=
  {| hosts := set_add h (hosts l); written := written l |}.
Definition counted (l : locals) : locals :=
  {| hosts := hosts l; written := S (written l) |}.

Definition start : locals := {| hosts := []; written := 0 |}.

Definition say (e : event) (w : world) : world :=
  {| w_fs := w_fs w; w_out := w_out w ++ [e] |}.

End Spec.

(** ** Texts and inputs of the examples *)

Module Examples.
Import Py Re Patch Os Extractor Main Spec.

(** The text [s] with a double quote for each backquote. *)
Definition html (s : string) : str :=
  map (fun c => if ceqb c "`" then dq else c) (lit s).

Definition cdn : str := lit "cdn.example.com".

Definition script_remote : str :=
  html "<script src=`https://cdn.example.com/js/app.js`>".



Definition img_plain : str := html "<img src=`https://cdn.example.com/logo.png`>".
Definition img_static : str :=
  html "<img src=`https://cdn.example.com/_next/static/media/logo.png`>".
Definition img_static_patched : str :=
  html "<img src=`./_next/static/media/logo.png`>".


(** A relative URL in which the host occurs twice. *)
Definition site : str := lit "example.com".
Definition script_named : str :=
  html "<script src=`./static/example.com/example.com.js`></script>".

Definition two_attrs : str :=
  html " integrity=`sha384-abc` crossorigin=`anonymous`".
Definition script_attrs : str :=
  html "<script src=`./js/app.js` integrity=`sha384-abc` crossorigin=`anonymous`></script>".
Definition script_bare : str := html "<script src=`./js/app.js`></script>".

(** A title whose value reads like the start of an integrity attribute,
    in front of a script tag with the two attributes. *)
Definition title_then_script : str := html "<a title=` integrity=`><script".
Definition title_mangled : str := html "<a title=`sha384-abc`>".

Definition entry_of (url : string) (text : option string)
    (encoding : option string) : entry :=
  {| e_url := Some (lit url); e_status := Some 200%Z;
     e_text := lit <$> text; e_encoding := lit <$> encoding |}.

(** Inputs of the extractor: a script, a page at the root path, a body
    whose base64 padding is wrong, and a URL whose netloc is empty. *)
Definition e_app : entry :=
  entry_of "https://cdn.example.com/js/app.js?v=1" (Some "alert(1)") None.
Definition e_root : entry :=
  entry_of "https://cdn.example.com/" (Some "<html></html>") None.
Definition e_bad_b64 : entry :=
  entry_of "https://img.example.com/x.bin" (Some "aGVsbG8") (Some "base64").
Definition e_b64 : entry :=
  entry_of "https://img.example.com/y.bin" (Some "aGVsbG8=") (Some "base64").
Definition e_file : entry := entry_of "file:///tmp/page.js" (Some "x") None.
Definition e_logo : entry :=
  entry_of "https://cdn.example.com/_next/static/media/logo.png"
           (Some "iVBORw0KGgo=") (Some "base64").

Definition empty_world : world := {| w_fs := ∅; w_out := [] |}.

(** A world with the directory [site/out_extracted], as [main] makes it. *)
Definition staged_world : world :=
  {| w_fs := {[ [lit "site"] := Dir; [lit "site"; lit "out_extracted"] := Dir ]};
     w_out := [] |}.

Definition staging : str := lit "site/out_extracted".

(** The extractor with the library stand-ins. *)
Definition run_loop (es : list entry) : result locals * world :=
  Extractor.extract_loop Lib.urlparse Lib.unquote Lib.b64decode staging es
    Spec.start staged_world.
Definition run_har (es : list entry) : result (list str) * world :=
  Extractor.extract_har Lib.urlparse Lib.unquote Lib.b64decode es staging
    staged_world.

(** The copy phase of [main] after the extraction of two entries, with
    the directory entries in the order of the map. *)
Definition copy_run : option (result unit * world) :=
  Main.copy_phase (fun _ l => l) 10 (lit "site/out_extracted") (lit "site")
    (run_har [e_app; e_root]).2.

Definition world_of (x : option (result unit * world)) : world :=
  match x with Some (_, w) => w | None => empty_world end.

Definition returned (x : option (result unit * world)) : bool :=
  match x with Some (Ok _, _) => true | _ => false end.

(** An entry whose path is the name of the staging directory, and [main]
    on it, with the directory entries in the order [order] makes of the
    order of the map. *)
Definition e_nested : entry :=
  entry_of "https://cdn.example.com/out_extracted" (Some "x") None.

Definition main_run (order : list (str * node) -> list (str * node))
    (es : list entry) : option (result unit * world) :=
  Main.main Lib.urlparse Lib.unquote Lib.b64decode (fun _ => None) (lit "T")
    (fun l => l) (fun _ => order) 10 es (lit "site") empty_world.

Definition img_host : str := lit "img.example.com".
Definition hello : content :=
  Bin [Byte.x68; Byte.x65; Byte.x6c; Byte.x6c; Byte.x6f].

End Examples.

(** ** Notions of the further properties *)

Module Props.
Import Py Re Patch Os Extractor Main Spec.

(** A line [WROTE: ...] of the output. *)
Definition is_wrote (e : event) : bool :=
  match e with Wrote _ => true | _ => false end.

(** The two file systems hold the same files with the same contents. *)
Definition same_files (f f' : gmap path node) : Prop :=
  forall (j : path) (d : content),
    f !! j = Some (File d) <-> f' !! j = Some (File d).

(** Every node of [f] is in [f'] as it is. *)
Definition extends (f f' : gmap path node) : Prop :=
  forall (j : path) (n : node), f !! j = Some n -> f' !! j = Some n.

(** A text without a carriage return. *)
Definition no_cr (s : str) : bool := forallb (fun c => negb (ceqb c "013")) s.

(** A text without a slash, and one without a closing parenthesis. *)
Definition no_slash (s : str) : bool := forallb (fun c => negb (ceqb c "/")) s.
Definition no_paren (s : str) : bool := forallb (fun c => negb (ceqb c ")")) s.

(** The schemes the patterns of lines 93 and 96 accept. *)
Definition is_http (sch : str) : bool :=
  bool_decide (sch = lit "http") || bool_decide (sch = lit "https").

(** No match of a pattern that begins with the literal [k] starts in
    [a], whatever follows [a]: no end of [a] begins with [k] or is the
    beginning of [k]. *)
Fixpoint clear_of (k a : str) : bool :=
  match a with
  | [] => true
  | _ :: a' => negb (startswith a k) && negb (startswith k a) && clear_of k a'
  end.

End Props.

(** ** Inputs of the further examples *)

Module Cases.
Import Py Re Patch Os Extractor Main Spec Examples.

Definition app_path : str := lit "site/js/app.js".
Definition app_body : content := Text (lit "alert(1)").

(** The world after [safe_write] has written the script. *)
Definition written_world : world :=
  (safe_write app_path app_body staged_world).2.

(** A world in which [site/js] is a regular file, and one in which [site]
    is. *)
Definition blocked_world : world :=
  {| w_fs := {[ [lit "site"] := Dir;
                [lit "site"; lit "js"] := File (Text (lit "x")) ]};
     w_out := [] |}.
Definition file_world : world :=
  {| w_fs := {[ [lit "site"] := File (Text (lit "x")) ]}; w_out := [] |}.

(** Entries: a directory URL, a URL that [urlparse] rejects, an entry
    without a body, and a path that begins with an escaped slash. *)
Definition e_docs : entry :=
  entry_of "https://cdn.example.com/docs/" (Some "<html></html>") None.
Definition e_bad_url : entry := entry_of "http://[bad/x.js" (Some "x") None.
Definition e_nobody : entry := entry_of "https://cdn.example.com/a.js" None None.
Definition e_abs : entry :=
  entry_of "https://cdn.example.com/%2Ftmp/x.js" (Some "x") None.

(** The match of line 89 on the script tag of the example. *)
Definition script_match : rmatch :=
  {| group0 := html "<script src=`https://cdn.example.com/js/app.js`";
     group1 := lit "https://cdn.example.com/js/app.js" |}.

(** A world with an index that holds the script tag, and [patch_index] on
    it. *)
Definition index_path : str := lit "site/index.html".
Definition indexed_world : world :=
  {| w_fs := {[ [lit "site"] := Dir;
                [lit "site"; lit "index.html"] := File (Text script_remote) ]};
     w_out := [] |}.
Definition no_utf8 : list Byte.byte -> option str := fun _ => None.
Definition a_stamp : str := lit "20240101-120000".
Definition patch_run (hs : list str) : result unit * world :=
  Main.patch_index no_utf8 a_stamp index_path hs indexed_world.

(** The first two steps of [main] with the empty string as [out_dir]. *)
Definition staged_run : result (list str) * world :=
  (seqM sys (makedirs (lit "out_extracted")) in
   Extractor.extract_har Lib.urlparse Lib.unquote Lib.b64decode [e_app]
     (lit "out_extracted")) empty_world.

Definition main_on (es : list entry) (out_dir : str) (w : world)
  : option (result unit * world) :=
  Main.main Lib.urlparse Lib.unquote Lib.b64decode no_utf8 a_stamp
    (fun l => l) (fun _ l => l) 10 es out_dir w.

End Cases.

(** ** Texts in which no pattern starts *)

Module Quiet.
Import Py Re Patch Spec Props.

(** The text without the white space it begins with. *)
Fixpoint lstrip_space (s : str) : str :=
  match s with
  | c :: s' => if is_space c then lstrip_space s' else s
  | [] => []
  end.

(** No match of a pattern that begins with white space and the literal
    [head] starts in [a], whatever follows [a]: behind the white space of
    [a] stands a text, within [a], that neither begins with [head] nor is
    the beginning of [head]. *)
Fixpoint space_clear (head a : str) : bool :=
  match a with
  | [] => true
  | c :: a' =>
      (if is_space c
       then let t := lstrip_space a' in
            negb (bool_decide (t = [])) && negb (startswith t head)
            && negb (startswith head t)
       else true)
      && space_clear head a'
  end.





(** No match of [re] starts in [a] when [r] follows it. *)
Definition inert (re : regex) (a r : str) : Prop :=
  forall a1 a2, a = a1 ++ a2 -> a2 <> [] -> re_match re (a2 ++ r) = None.

(** The text has nothing for lines 89-97 to rewrite: the URL of every
    script and link match is one [replacer] leaves alone, and neither the
    import pattern nor the two static-asset patterns match. *)
Definition local_refs (hs : list str) (d : str) : bool :=
  forallb (host_free hs) (hits script_re d)
  && forallb (host_free hs) (hits link_re d)
  && bool_decide (hits import_re d = [])
  && bool_decide (hits next_abs_re d = [])
  && bool_decide (hits next_rel_re d = []).



End Quiet.

(** ** Pages of the examples *)

Module Pages.
Import Py Re Patch Spec Examples.







(** A relative URL that holds the host once the integrity attribute in
    it is gone. *)
Definition split_host : str :=
  html "<script src=`./cdn.exam integrity=`x`ple.com/a.js`></script>".
Definition split_host_once : str :=
  html "<script src=`./cdn.example.com/a.js`></script>".
Definition split_host_twice : str := html "<script src=`./a.js`></script>".

(** A page that refers to an asset of another site. *)
Definition other_site : str :=
  html "<script src=`https://other.example.org/lib.js` integrity=`sha384-abc`></script>".
Definition other_site_patched : str :=
  html "<script src=`https://other.example.org/lib.js`></script>".

End Pages.

(** * Properties *)

Import Py Re Patch Os Extractor Main.

(** ** Strings *)

Section StringFacts.

Lemma ceqb_eq (a b : ascii) : ceqb a b = true <-> a = b.
Proof. apply Ascii.eqb_eq. Qed.


Lemma startswith_prefix (s p : str) : startswith s p = true <-> p `prefix_of` s.
Proof.
  revert s. induction p as [|a p IH]; intros s.
  - destruct s; simpl; (split; [intros _; apply prefix_nil | done]).
  - destruct s as [|c s]; simpl.
    + split; [done | intros H; by apply prefix_nil_not in H].
    + rewrite andb_true_iff, ceqb_eq, IH. split.
      * intros [-> H]. by apply prefix_cons.
      * intros H. split; [by apply prefix_cons_inv_1 in H | by apply prefix_cons_inv_2 in H].
Qed.

Lemma startswith_app (p k : str) : startswith (p ++ k) p = true.
Proof. apply startswith_prefix. by apply prefix_app_r. Qed.

Lemma split_first_Some (sep s a b : str) :
  split_first sep s = Some (a, b) -> s = a ++ sep ++ b.
Proof.
  revert a b. induction s as [|c s IH]; intros a b; cbn [split_first].
  - destruct sep; simpl; [|done]. by intros [= <- <-].
  - destruct (startswith (c :: s) sep) eqn:E.
    + intros [= <- <-]. apply startswith_prefix in E as [k ->].
      simpl. by rewrite drop_app_length.
    + destruct (split_first sep s) as [[a' b']|] eqn:E'; [|done].
      intros [= <- <-]. by rewrite (IH a' b').
Qed.


Lemma split_first_None (sep s : str) :
  split_first sep s = None -> forall a b, s <> a ++ sep ++ b.
Proof.
  induction s as [|c s IH]; cbn [split_first].
  - destruct sep as [|y sep]; [done|]. intros _ a b H. by destruct a.
  - destruct (startswith (c :: s) sep) eqn:E; [done|].
    destruct (split_first sep s) as [[a1 b1]|] eqn:E'; [done|].
    intros _ a b H. destruct a as [|x a]; simpl in H.
    + rewrite H, startswith_app in E. done.
    + injection H as -> H. by apply (IH eq_refl a b).
Qed.

Lemma contains_true (sep s : str) :
  contains sep s = true <-> exists a b, s = a ++ sep ++ b.
Proof.
  unfold contains. destruct (split_first sep s) as [[a b]|] eqn:E.
  - split; [intros _|done]. exists a, b. by apply split_first_Some.
  - split; [done|]. intros (a & b & H). by apply split_first_None with (a:=a) (b:=b) in E.
Qed.

Lemma contains_false (sep s : str) :
  contains sep s = false <-> forall a b, s <> a ++ sep ++ b.
Proof.
  split.
  - intros H a b Hs. assert (contains sep s = true) by (apply contains_true; eauto).
    congruence.
  - intros H. destruct (contains sep s) eqn:E; [|done].
    apply contains_true in E as (a & b & Hs). by destruct (H a b).
Qed.

Lemma lstrip_all (c : ascii) (s : str) :
  Forall (fun x => x = c) s -> lstrip c s = [].
Proof.
  induction 1 as [|x s -> _ IH]; simpl; [done|].
  by rewrite (proj2 (ceqb_eq c c) eq_refl).
Qed.

End StringFacts.

(** ** The matcher *)

Section MatcherFacts.

(** What [greedy] returns comes from its continuation, after a run of the
    class. *)
Lemma greedy_inv {R} (k : cls) (cont : str -> option R) (s : str) (r : R) :
  greedy k cont s = Some r ->
  exists a b, s = a ++ b /\ forallb (cls_mem k) a = true /\ cont b = Some r.
Proof.
  induction s as [|c s IH]; simpl.
  - intros H. by exists [], [].
  - destruct (cls_mem k c) eqn:E.
    + destruct (greedy k cont s) as [r'|] eqn:G.
      * intros [= ->]. destruct (IH eq_refl) as (a & b & -> & Ha & Hb).
        exists (c :: a), b. simpl. by rewrite E, Ha.
      * intros H. by exists [], (c :: s).
    + intros H. by exists [], (c :: s).
Qed.

(** The longest run is tried first. *)
Lemma greedy_run {R} (k : cls) (cont : str -> option R) (a b : str) (r : R) :
  forallb (cls_mem k) a = true ->
  match b with [] => True | c :: _ => cls_mem k c = false end ->
  cont b = Some r ->
  greedy k cont (a ++ b) = Some r.
Proof.
  intros Ha Hb Hc. induction a as [|x a IH]; simpl.
  - destruct b as [|c b]; simpl; [done|]. by rewrite Hb.
  - simpl in Ha. apply andb_true_iff in Ha as [-> Ha]. by rewrite (IH Ha).
Qed.

Lemma greedy_suffix (k : cls) (cont : str -> option (str * caps)) (s : str) r :
  (forall s' r', cont s' = Some r' -> r'.1 `suffix_of` s') ->
  greedy k cont s = Some r -> r.1 `suffix_of` s.
Proof.
  intros Hc H. apply greedy_inv in H as (a & b & -> & _ & H).
  apply Hc in H. by apply suffix_app_r.
Qed.

Lemma match_here_suffix (re : regex) (cp : caps) (s : str) r :
  match_here re cp s = Some r -> r.1 `suffix_of` s.
Proof.
  revert cp s r. induction re as [|it re IH]; intros cp s r; simpl.
  - by intros [= <-].
  - destruct it as [k q| |]; [destruct q|..].
    + destruct s as [|c s]; [done|]. destruct (cls_mem k c); [|done].
      intros H. apply IH in H. by apply suffix_cons_r.
    + destruct s as [|c s]; [apply IH|]. destruct (cls_mem k c); [|apply IH].
      destruct (match_here re cp s) eqn:E; [|apply IH].
      intros [= <-]. apply IH in E. by apply suffix_cons_r.
    + apply greedy_suffix. intros s' r'. apply IH.
    + destruct s as [|c s]; [done|]. destruct (cls_mem k c); [|done].
      intros H. apply greedy_suffix in H; [by apply suffix_cons_r|].
      intros s' r'. apply IH.
    + apply IH.
    + apply IH.
Qed.

Lemma between_app (a b : str) : between (a ++ b) b = a.
Proof.
  unfold between. rewrite length_app.
  replace (length a + length b - length b) with (length a) by lia.
  by rewrite take_app_length.
Qed.

(** [m.group(0)] is the text the match starts with. *)
Lemma re_match_prefix (re : regex) (s : str) (m : rmatch) :
  re_match re s = Some m -> group0 m `prefix_of` s.
Proof.
  unfold re_match. destruct (match_here re no_caps s) as [[rest cp]|] eqn:E; [|done].
  intros [= <-]. simpl. apply match_here_suffix in E as [pre ->]. simpl.
  rewrite between_app. by apply prefix_app_r.
Qed.

(** The pieces of a scan spell the input. *)
Lemma pieces_go_text (re : regex) (skip : nat) (s : str) :
  flat_map text_of (pieces_go re skip s) = drop skip s.
Proof.
  revert skip. induction s as [|c s IH]; intros skip; simpl.
  - destruct skip; simpl; [|done].
    destruct (re_match re []) as [m|] eqn:E; [|done]. simpl.
    apply re_match_prefix, prefix_nil_inv in E. by rewrite E.
  - destruct skip as [|k]; [|apply IH].
    destruct (re_match re (c :: s)) as [m|] eqn:E; simpl; [|by rewrite IH].
    pose proof (re_match_prefix _ _ _ E) as [t Ht].
    destruct (group0 m) as [|x g] eqn:G; simpl.
    + by rewrite G, IH.
    + rewrite G, IH. simpl in Ht. injection Ht as -> ->.
      simpl. by rewrite drop_app_length.
Qed.

Lemma pieces_text (re : regex) (s : str) : flat_map text_of (pieces re s) = s.
Proof. apply pieces_go_text. Qed.

End MatcherFacts.

(** ** Substitution *)

Import Spec.

Section SubFacts.

Lemma elem_of_hits (re : regex) (s : str) (m : rmatch) :
  m ∈ hits re s <-> Hit m ∈ pieces re s.
Proof.
  unfold hits. rewrite list_elem_of_omap. split.
  - intros ([c|m'] & Hin & Heq); [done|]. by injection Heq as ->.
  - intros H. by exists (Hit m).
Qed.

(** A replacement that returns every match as it is changes nothing. *)
Lemma sub_opt_id (re : regex) (f : rmatch -> option str) (s : str) :
  (forall m, m ∈ hits re s -> f m = Some (group0 m)) ->
  sub_opt re f s = Some s.
Proof.
  intros Hf. unfold sub_opt.
  assert (mapM (fun p => match p with Keep c => Some [c] | Hit m => f m end)
            (pieces re s) = Some (map text_of (pieces re s))) as ->.
  { apply mapM_Some. apply Forall2_fmap_r, Forall_Forall2_diag, Forall_forall.
    intros [c|m] Hin; [done|]. apply Hf. by apply elem_of_hits. }
  simpl. f_equal. rewrite <- flat_map_concat_map. apply pieces_text.
Qed.

Lemma flat_map_ext_elem {A B} (f g : A -> list B) (l : list A) :
  (forall x, x ∈ l -> f x = g x) -> flat_map f l = flat_map g l.
Proof.
  induction l as [|x l IH]; intros H; simpl; [done|].
  rewrite (H x), IH; [done| |by left]. intros y Hy. apply H. by right.
Qed.

Lemma sub_id (re : regex) (f : rmatch -> str) (s : str) :
  (forall m, m ∈ hits re s -> f m = group0 m) -> sub re f s = s.
Proof.
  intros Hf. unfold sub. rewrite <- (pieces_text re s) at 2.
  apply flat_map_ext_elem. intros [c|m] Hin; [done|].
  by apply Hf, elem_of_hits.
Qed.

Lemma sub_opt_no_hits (re : regex) (f : rmatch -> option str) (s : str) :
  hits re s = [] -> sub_opt re f s = Some s.
Proof. intros H. apply sub_opt_id. intros m. rewrite H. by intros ?%elem_of_nil. Qed.

Lemma sub_no_hits (re : regex) (f : rmatch -> str) (s : str) :
  hits re s = [] -> sub re f s = s.
Proof. intros H. apply sub_id. intros m. rewrite H. by intros ?%elem_of_nil. Qed.

End SubFacts.

(** ** [replacer] *)

Section ReplacerFacts.

Lemma replacer_image (hs : list str) (m : rmatch) :
  is_image (group1 m) = true -> replacer hs m = Some (group0 m).
Proof. unfold replacer. by intros ->. Qed.

Lemma replacer_loop_none (hs : list str) (url g0 : str) :
  Forall (fun h => contains h url = false) hs ->
  replacer_loop hs url g0 = Some g0.
Proof. induction 1 as [|h hs Hh _ IH]; simpl; [done|]. by rewrite Hh. Qed.

Lemma replacer_none (hs : list str) (m : rmatch) :
  Forall (fun h => contains h (group1 m) = false) hs ->
  replacer hs m = Some (group0 m).
Proof.
  intros H. unfold replacer. destruct (is_image (group1 m)); [done|].
  by apply replacer_loop_none.
Qed.


Lemma replacer_host_free (hs : list str) (m : rmatch) :
  host_free hs m = true -> replacer hs m = Some (group0 m).
Proof.
  unfold host_free. intros [H|H]%orb_true_iff; [by apply replacer_image|].
  apply replacer_none, Forall_forall. intros h Hin.
  rewrite forallb_forall in H. specialize (H h (proj1 (list_elem_of_In _ _) Hin)).
  by apply negb_true_iff in H.
Qed.


End ReplacerFacts.

(** ** The patcher: host set and static rewrites *)

Import Examples.

Section PatchTheorems.



(** A text without script and link tags goes through the five
    substitutions that do not look at the host set, and only through them. *)
Lemma patch_text_no_tags (hs : list str) (s : str) :
  hits script_re s = [] -> hits link_re s = [] ->
  patch_text hs s = Some (patch_static s).
Proof.
  intros H1 H2. unfold patch_text, patch_script, patch_link.
  rewrite (sub_opt_no_hits _ _ _ H1). cbn [mbind option_bind].
  by rewrite (sub_opt_no_hits _ _ _ H2).
Qed.

(** A text in which every script and link URL ends in an image extension
    or holds no host of the set, and in which none of the five other
    patterns matches, is written back as it is. *)
Lemma patch_text_settled (hs : list str) (d : str) :
  settled hs d = true -> patch_text hs d = Some d.
Proof.
  unfold settled. rewrite !andb_true_iff, !bool_decide_eq_true, !forallb_forall.
  intros [[[[[[Hs Hl] Hi] Ha] Hr] Hg] Hc].
  unfold patch_text, patch_script, patch_link.
  rewrite sub_opt_id; [|intros m Hm; apply replacer_host_free, Hs; by apply list_elem_of_In].
  simpl. rewrite sub_opt_id; [|intros m Hm; apply replacer_host_free, Hl; by apply list_elem_of_In].
  simpl. unfold patch_static, strip_crossorigin, strip_integrity, patch_next_rel,
    patch_next_abs, patch_import.
  by rewrite (sub_no_hits import_re), (sub_no_hits next_abs_re),
    (sub_no_hits next_rel_re), (sub_no_hits integrity_re),
    (sub_no_hits crossorigin_re).
Qed.

End PatchTheorems.

(** ** Scanning a text piece by piece *)

Section ScanFacts.

Lemma pieces_go_skip (re : regex) (a r : str) :
  pieces_go re (length a) (a ++ r) = pieces_go re 0 r.
Proof. induction a as [|x a IH]; simpl; [done|apply IH]. Qed.

(** Where no match starts, the characters are kept. *)
Lemma pieces_keep (re : regex) (a r : str) :
  (forall a1 a2, a = a1 ++ a2 -> a2 <> [] -> re_match re (a2 ++ r) = None) ->
  pieces re (a ++ r) = map Keep a ++ pieces re r.
Proof.
  unfold pieces. induction a as [|c a IH]; intros H; [done|].
  cbn [app pieces_go map].
  pose proof (H [] (c :: a) eq_refl ltac:(done)) as H0.
  cbn [app] in H0. rewrite H0.
  f_equal. apply IH. intros a1 a2 -> Hne. by apply (H (c :: a1) a2).
Qed.

(** A match that starts the text is the first piece. *)
Lemma pieces_hit (re : regex) (g r : str) (m : rmatch) :
  re_match re (g ++ r) = Some m -> group0 m = g -> g <> [] ->
  pieces re (g ++ r) = Hit m :: pieces re r.
Proof.
  unfold pieces. intros Hm Hg Hne. destruct g as [|x g]; [done|].
  cbn [app pieces_go]. cbn [app] in Hm. rewrite Hm, Hg. cbn [length].
  by rewrite pieces_go_skip.
Qed.

Lemma sub_keep_hit (re : regex) (f : rmatch -> str) (a g r : str) (m : rmatch) :
  (forall a1 a2, a = a1 ++ a2 -> a2 <> [] -> re_match re (a2 ++ g ++ r) = None) ->
  re_match re (g ++ r) = Some m -> group0 m = g -> g <> [] ->
  sub re f (a ++ g ++ r) = a ++ f m ++ sub re f r.
Proof.
  intros Ha Hm Hg Hne. unfold sub.
  rewrite (pieces_keep _ _ _ Ha), (pieces_hit _ _ _ _ Hm Hg Hne).
  rewrite flat_map_app. cbn [flat_map]. f_equal.
  induction a as [|c a IH]; [done|]. simpl. f_equal. apply IH.
  intros a1 a2 -> Hn. by apply (Ha (c :: a1) a2).
Qed.


(** A literal in front of a pattern. *)
Lemma match_lits (l : str) (re : regex) (cp : caps) (t : str) :
  match_here (map (fun c => Ch (Is c) One) l ++ re) cp (l ++ t)
  = match_here re cp t.
Proof.
  induction l as [|c l IH]; [done|]. cbn [map app match_here cls_mem].
  by rewrite (proj2 (ceqb_eq c c) eq_refl).
Qed.

Lemma match_lits_inv (l : str) (re : regex) (cp : caps) (s : str) r :
  match_here (map (fun c => Ch (Is c) One) l ++ re) cp s = Some r ->
  exists t, s = l ++ t /\ match_here re cp t = Some r.
Proof.
  revert s. induction l as [|c l IH]; intros s; [by exists s|].
  cbn [map app match_here cls_mem]. destruct s as [|x s]; [done|].
  destruct (ceqb x c) eqn:E; [|done]. apply ceqb_eq in E as ->.
  intros (t & -> & H)%IH. by exists t.
Qed.

End ScanFacts.

(** ** The integrity and crossorigin attributes *)

Section AttrFacts.

Variable name : string.

Local Abbreviation attr_head := (attr_head name).

Lemma attr_re_eq :
  attr_re name
  = Ch Space Plus :: map (fun c => Ch (Is c) One) attr_head
    ++ [Ch (Not dq) Star; Ch (Is dq) One].
Proof.
  unfold attr_re, attr_head, chars. rewrite map_app. cbn [app map].
  by rewrite <- app_assoc.
Qed.

(** A match begins with white space and the head of the attribute. *)
Lemma attr_match_inv (cp : caps) (s : str) r :
  match_here (attr_re name) cp s = Some r ->
  exists ws rest, s = ws ++ attr_head ++ rest /\ ws <> []
                  /\ forallb is_space ws = true.
Proof.
  rewrite attr_re_eq. cbn [match_here cls_mem].
  destruct s as [|c s]; [done|]. destruct (is_space c) eqn:E; [|done].
  intros (a & b & -> & Ha & H)%greedy_inv.
  apply match_lits_inv in H as (t & -> & _).
  exists (c :: a), t. split; [done|]. split; [done|]. simpl. by rewrite E.
Qed.

Hypothesis name_no_space : forallb (fun c => negb (is_space c)) attr_head = true.

Lemma attr_head_cons : exists c l, attr_head = c :: l /\ is_space c = false.
Proof.
  unfold attr_head in *. destruct (lit name ++ ["="%char; dq]) as [|c l] eqn:E.
  - by destruct (lit name).
  - exists c, l. split; [done|]. simpl in name_no_space.
    apply andb_true_iff in name_no_space as [H _]. by apply negb_true_iff in H.
Qed.

(** White space, the attribute with a value free of quotes: a match. *)
Lemma attr_match (ws v r : str) :
  ws <> [] -> forallb is_space ws = true ->
  forallb (fun c => negb (ceqb c dq)) v = true ->
  re_match (attr_re name) ((ws ++ attr_head ++ v ++ [dq]) ++ r)
  = Some {| group0 := ws ++ attr_head ++ v ++ [dq]; group1 := [] |}.
Proof.
  intros Hne Hws Hv. unfold re_match.
  assert (match_here (attr_re name) no_caps ((ws ++ attr_head ++ v ++ [dq]) ++ r)
          = Some (r, no_caps)) as ->.
  { rewrite attr_re_eq. destruct ws as [|c ws]; [done|].
    cbn [app match_here cls_mem]. simpl in Hws.
    apply andb_true_iff in Hws as [-> Hws].
    rewrite <- !app_assoc. apply greedy_run; [done| |].
    - destruct attr_head_cons as (x & l & -> & Hx). done.
    - rewrite match_lits. cbn [match_here].
      apply greedy_run; [done|done|done]. }
  simpl. by rewrite between_app.
Qed.

Lemma forallb_space_last (a : str) :
  a <> [] -> forallb is_space a = true ->
  exists c, last a = Some c /\ is_space c = true.
Proof.
  intros Hne Ha. destruct (last a) as [c|] eqn:E.
  - exists c. split; [done|]. apply last_Some in E as [a' ->].
    rewrite forallb_app in Ha. apply andb_true_iff in Ha as [_ Ha]. simpl in Ha.
    by apply andb_true_iff in Ha as [-> _].
  - by apply last_None in E.
Qed.

(** No match starts in a text that does not hold the head of the
    attribute, does not end in white space, and whose end together with
    the start of what follows does not spell the head either. *)
Lemma attr_inert (a r : str) :
  contains attr_head a = false ->
  (forall c, last a = Some c -> is_space c = false) ->
  (forall k k', attr_head = k ++ k' -> k <> [] -> k' <> [] ->
                k `suffix_of` a -> k' `prefix_of` r -> False) ->
  forall a1 a2, a = a1 ++ a2 -> a2 <> [] ->
                re_match (attr_re name) (a2 ++ r) = None.
Proof.
  intros Hno Hlast Hstr a1 a2 -> Hne. unfold re_match.
  destruct (match_here (attr_re name) no_caps (a2 ++ r)) as [res|] eqn:E; [|done].
  exfalso. apply attr_match_inv in E as (ws & rest & Heq & Hws & Hsp).
  assert (forall w, w <> [] -> forallb is_space w = true ->
                    w `suffix_of` a1 ++ a2 -> False) as Hnosp.
  { intros w Hw Hwsp [p Hp]. destruct (forallb_space_last w Hw Hwsp) as (c & Hc & Hcs).
    rewrite (Hlast c) in Hcs; [done|]. rewrite Hp, last_app, Hc. done. }
  apply app_eq_inv in Heq as [(k & Hk1 & Hk2)|(k & Hk1 & Hk2)].
  - (* the white space ends inside a2 *)
    symmetry in Hk2. apply app_eq_inv in Hk2 as [(k' & Hk3 & Hk4)|(k' & Hk3 & Hk4)].
    + (* the head lies inside a2 *)
      apply contains_false with (a := a1 ++ ws) (b := k') in Hno. apply Hno.
      rewrite Hk1, Hk3. by rewrite <- !app_assoc.
    + (* the head straddles the end of a2, or ends with it *)
      destruct k' as [|x k'].
      * rewrite app_nil_r in Hk3. subst k.
        apply contains_false with (a := a1 ++ ws) (b := []) in Hno. apply Hno.
        rewrite Hk1, app_nil_r. by rewrite <- !app_assoc.
      * destruct k as [|y k].
        -- rewrite app_nil_r in Hk1. subst a2. apply (Hnosp ws); [done..|].
           by apply suffix_app_r.
        -- apply (Hstr (y :: k) (x :: k')); [done..| |].
           ++ rewrite Hk1. apply suffix_app_r, suffix_app_r. done.
           ++ rewrite Hk4. by apply prefix_app_r.
  - (* a2 is white space *)
    apply (Hnosp a2); [done| |by apply suffix_app_r].
    rewrite Hk1, forallb_app in Hsp. by apply andb_true_iff in Hsp as [-> _].
Qed.

(** The same, when what follows begins with white space. *)
Lemma attr_inert_before_space (a r : str) (w : ascii) :
  contains attr_head a = false ->
  (forall c, last a = Some c -> is_space c = false) ->
  is_space w = true ->
  forall a1 a2, a = a1 ++ a2 -> a2 <> [] ->
                re_match (attr_re name) (a2 ++ w :: r) = None.
Proof.
  intros Hno Hlast Hw. apply attr_inert; [done..|].
  intros k k' Hk _ Hk' _ [t Ht]. destruct k' as [|x k']; [done|].
  simpl in Ht. injection Ht as <- _.
  rewrite Hk, forallb_app in name_no_space.
  apply andb_true_iff in name_no_space as [_ H]. simpl in H.
  apply andb_true_iff in H as [H _]. by rewrite Hw in H.
Qed.

(** The first attribute of the text is deleted, white space and all,
    and the scan goes on behind it. *)
Lemma attr_deleted (a ws v r : str) :
  contains attr_head a = false ->
  (forall c, last a = Some c -> is_space c = false) ->
  ws <> [] -> forallb is_space ws = true ->
  forallb (fun c => negb (ceqb c dq)) v = true ->
  sub (attr_re name) no_repl (a ++ (ws ++ attr_head ++ v ++ [dq]) ++ r)
  = a ++ sub (attr_re name) no_repl r.
Proof.
  intros Hno Hlast Hne Hws Hv.
  pose proof (attr_match ws v r Hne Hws Hv) as Hm.
  assert (forall a1 a2, a = a1 ++ a2 -> a2 <> [] ->
            re_match (attr_re name) (a2 ++ (ws ++ attr_head ++ v ++ [dq]) ++ r)
            = None) as Ha.
  { destruct ws as [|w ws]; [done|]. simpl in Hws.
    apply andb_true_iff in Hws as [Hw _]. rewrite <- !app_assoc. simpl.
    by apply attr_inert_before_space. }
  rewrite (sub_keep_hit _ _ _ _ _ _ Ha Hm eq_refl); [done|by destruct ws].
Qed.

End AttrFacts.

Section AttrTheorems.

Lemma ends_in_space_false (a : str) :
  ends_in_space a = false -> forall c, last a = Some c -> is_space c = false.
Proof. unfold ends_in_space. intros H c Hc. by rewrite Hc in H. Qed.

Lemma crossorigin_kept (b : str) :
  strip_integrity (html " crossorigin=`anonymous`" ++ b)
  = html " crossorigin=`anonymous`" ++ strip_integrity b.
Proof. vm_compute. reflexivity. Qed.

(** C7, as the code has it.  In a text that, up to the two attributes of
    the example, holds the head of neither attribute and does not end in
    white space, the two attributes are deleted together with the white
    space before each, the text before them stays as it is, and the text
    behind them is treated as a text of its own.  The same holds for each
    attribute alone, whatever white space precedes it and whatever value
    free of double quotes it has. *)
Theorem C7_attributes_removed :
  (forall a b : str,
      contains (attr_head "integrity") a = false ->
      contains (attr_head "crossorigin") a = false ->
      ends_in_space a = false ->
      strip_attrs (a ++ two_attrs ++ b) = a ++ strip_attrs b)
  /\ (forall a ws v b : str,
        contains (attr_head "integrity") a = false ->
        ends_in_space a = false ->
        ws <> [] -> forallb is_space ws = true -> no_quote v = true ->
        strip_integrity (a ++ (ws ++ attr_head "integrity" ++ v ++ [dq]) ++ b)
        = a ++ strip_integrity b)
  /\ (forall a ws v b : str,
        contains (attr_head "crossorigin") a = false ->
        ends_in_space a = false ->
        ws <> [] -> forallb is_space ws = true -> no_quote v = true ->
        strip_crossorigin (a ++ (ws ++ attr_head "crossorigin" ++ v ++ [dq]) ++ b)
        = a ++ strip_crossorigin b)
  /\ patch_text [cdn] script_attrs = Some script_bare.
Proof.
  assert (forall a ws v b : str,
        contains (attr_head "integrity") a = false ->
        ends_in_space a = false ->
        ws <> [] -> forallb is_space ws = true -> no_quote v = true ->
        strip_integrity (a ++ (ws ++ attr_head "integrity" ++ v ++ [dq]) ++ b)
        = a ++ strip_integrity b) as Hi.
  { intros a ws v b Hno Hsp Hne Hws Hv.
    apply (attr_deleted "integrity" eq_refl); [done| |done..].
    by apply ends_in_space_false. }
  assert (forall a ws v b : str,
        contains (attr_head "crossorigin") a = false ->
        ends_in_space a = false ->
        ws <> [] -> forallb is_space ws = true -> no_quote v = true ->
        strip_crossorigin (a ++ (ws ++ attr_head "crossorigin" ++ v ++ [dq]) ++ b)
        = a ++ strip_crossorigin b) as Hc.
  { intros a ws v b Hno Hsp Hne Hws Hv.
    apply (attr_deleted "crossorigin" eq_refl); [done| |done..].
    by apply ends_in_space_false. }
  split; [|split; [done|split; [done|]]].
  - intros a b Hni Hnc Hsp. unfold strip_attrs.
    change two_attrs with
      (([" "%char] ++ attr_head "integrity" ++ lit "sha384-abc" ++ [dq])
       ++ html " crossorigin=`anonymous`").
    rewrite <- (app_assoc _ _ b), (Hi a _ _ _ Hni Hsp); [|done..].
    rewrite crossorigin_kept.
    change (html " crossorigin=`anonymous`") with
      ([" "%char] ++ attr_head "crossorigin" ++ lit "anonymous" ++ [dq]).
    by rewrite (Hc a _ _ _ Hnc Hsp).
  - by vm_compute.
Qed.

Lemma C7_witness :
  strip_attrs (html "<script src=`./js/app.js`" ++ two_attrs ++ html "></script>")
  = html "<script src=`./js/app.js`" ++ strip_attrs (html "></script>").
Proof.
  apply (proj1 C7_attributes_removed (html "<script src=`./js/app.js`")
           (html "></script>")); reflexivity.
Defined.

(** In front of the script tag stands a tag whose title reads like the
    start of an integrity attribute; the script tag is eaten, the value of
    its integrity attribute stays: C7 as stated fails on this text. *)
Lemma C7_counterexample :
  strip_attrs (title_then_script ++ two_attrs ++ html ">") = title_mangled
  /\ strip_attrs (title_then_script ++ two_attrs ++ html ">")
     <> strip_attrs title_then_script ++ strip_attrs (html ">")
  /\ patch_text [] (title_then_script ++ two_attrs ++ html ">")
     = Some title_mangled.
Proof. by vm_compute. Qed.

End AttrTheorems.

(** ** The file system *)

Section FsFacts.

Implicit Types (f : gmap path node) (k j : path) (c d : content).

(** Creating directories leaves every file as it is. *)
Lemma ensure_dir_file f f' k j d :
  ensure_dir f k = Ok f' -> f !! j = Some (File d) -> f' !! j = Some (File d).
Proof.
  unfold ensure_dir. destruct (is_top k); [by intros [= <-]|].
  destruct (f !! k) as [[c'|]|] eqn:E; [done|by intros [= <-]|].
  intros [= <-] Hj. rewrite lookup_insert_ne; [done|]. intros ->. congruence.
Qed.

Lemma ensure_dirs_file ks f f' j d :
  ensure_dirs ks f = Ok f' -> f !! j = Some (File d) -> f' !! j = Some (File d).
Proof.
  revert f. induction ks as [|k ks IH]; intros f; simpl; [by intros [= <-]|].
  destruct (ensure_dir f k) as [f1|e] eqn:E; [|done].
  intros H Hj. apply (IH f1 H). by apply (ensure_dir_file f f1 k).
Qed.

Lemma makedirs_file name f f' j d :
  makedirs name f = Ok f' -> f !! j = Some (File d) -> f' !! j = Some (File d).
Proof. unfold makedirs, makedirs_at. destruct name; [done|]. apply ensure_dirs_file. Qed.

Lemma write_at_eq k c f f' : write_at k c f = Ok f' -> f' = <[k := File c]> f.
Proof.
  unfold write_at. destruct (is_top k); [done|].
  destruct (negb (is_dir f (parent k))); [done|].
  destruct (f !! k) as [[c'|]|]; [|done|]; by intros [= <-].
Qed.

Lemma open_write_eq p c f f' :
  open_write p c f = Ok f' -> f' = <[resolve p := File c]> f.
Proof. unfold open_write. destruct (names_file p); [apply write_at_eq|done]. Qed.

End FsFacts.

(** ** [safe_write] and one turn of the loop *)

Section WriteFacts.

Implicit Types (w : world) (p : str) (c d : content) (j : path).

(** Whether it returns or raises, [safe_write] prints nothing and leaves
    every file under another name as it is; when it returns, the file is
    there. *)
Lemma safe_write_inv p c w r w' :
  safe_write p c w = (r, w') ->
  w_out w' = w_out w
  /\ (forall j d, j <> resolve p -> w_fs w !! j = Some (File d) ->
                  w_fs w' !! j = Some (File d))
  /\ (r = Ok tt -> w_fs w' !! resolve p = Some (File c)).
Proof.
  unfold safe_write. run_m.
  destruct (makedirs (dirname p) (w_fs w)) as [f1|e] eqn:E1.
  - cbn [w_fs w_out]. destruct (open_write p c f1) as [f2|e] eqn:E2.
    + intros [= <- <-]. cbn [w_fs w_out]. apply open_write_eq in E2 as ->.
      split; [done|]. split; [|intros _; apply lookup_insert_eq].
      intros j d Hj Hd. rewrite lookup_insert_ne; [|done].
      by apply (makedirs_file _ _ _ _ _ E1).
    + intros [= <- <-]. cbn [w_fs w_out]. split; [done|]. split; [|done].
      intros j d _ Hd. by apply (makedirs_file _ _ _ _ _ E1).
  - intros [= <- <-]. split; [done|]. split; [|done]. by intros.
Qed.

End WriteFacts.

(** ** Sorting the host set *)

Section SortFacts.

Lemma code_inj (a b : ascii) : code a = code b -> a = b.
Proof.
  unfold code. intros H.
  by rewrite <- (ascii_N_embedding a), <- (ascii_N_embedding b), H.
Qed.

(** Two strings neither of which is below the other are equal. *)
Lemma str_ltb_total (a b : str) :
  str_ltb a b = false -> str_ltb b a = false -> a = b.
Proof.
  revert b. induction a as [|x a IH]; intros [|y b]; simpl; try done.
  destruct (code x <? code y)%N eqn:E1; [done|].
  destruct (code y <? code x)%N eqn:E2; [done|].
  intros H1 H2. apply N.ltb_ge in E1, E2.
  assert (x = y) as -> by (apply code_inj; lia). f_equal. by apply IH.
Qed.

Lemma insert_sorted_perm (x : str) (l : list str) : insert_sorted x l ≡ₚ x :: l.
Proof.
  induction l as [|y l IH]; simpl; [done|].
  destruct (str_leb x y); [done|]. rewrite IH. apply Permutation_swap.
Qed.

Lemma sorted_perm (l : list str) : sorted l ≡ₚ l.
Proof.
  induction l as [|x l IH]; simpl; [done|].
  unfold sorted in *. simpl. by rewrite insert_sorted_perm, IH.
Qed.

Lemma insert_sorted_head (x z : str) (l r : list str) :
  insert_sorted x l = z :: r -> z = x \/ exists l', l = z :: l'.
Proof.
  destruct l as [|y l]; simpl; [intros [= <- _]; by left|].
  destruct (str_leb x y); intros [= <- _]; [by left|right; eauto].
Qed.

Lemma strictly_sorted_cons (x : str) (l : list str) :
  strictly_sorted (x :: l) = true ->
  strictly_sorted l = true
  /\ match l with y :: _ => str_ltb x y = true | [] => True end.
Proof.
  cbn [strictly_sorted]. destruct l as [|y l]; [done|].
  by intros [? ?]%andb_true_iff.
Qed.

Lemma insert_sorted_strict (x : str) (l : list str) :
  strictly_sorted l = true -> x ∉ l ->
  strictly_sorted (insert_sorted x l) = true.
Proof.
  induction l as [|y l IH]; [done|]. intros Hs Hx. cbn [insert_sorted].
  apply not_elem_of_cons in Hx as [Hxy Hx].
  unfold str_leb. destruct (str_ltb y x) eqn:E; cbn [negb].
  - apply strictly_sorted_cons in Hs as [Hs Hy]. specialize (IH Hs Hx).
    cbn [strictly_sorted]. destruct (insert_sorted x l) as [|z r] eqn:Ez; [done|].
    rewrite IH, andb_true_r.
    apply insert_sorted_head in Ez as [->|[l' ->]]; done.
  - cbn [strictly_sorted] in *. rewrite Hs, andb_true_r.
    destruct (str_ltb x y) eqn:E'; [done|]. by destruct (Hxy (str_ltb_total _ _ E' E)).
Qed.

Lemma sorted_strict (l : list str) : NoDup l -> strictly_sorted (sorted l) = true.
Proof.
  induction 1 as [|x l Hx _ IH]; [done|]. unfold sorted in *. simpl.
  apply insert_sorted_strict; [done|]. fold (sorted l). by rewrite sorted_perm.
Qed.

Lemma set_add_NoDup (h : str) (hs : list str) : NoDup hs -> NoDup (set_add h hs).
Proof.
  unfold set_add. case_bool_decide; [done|]. intros Hn.
  apply NoDup_app. split; [done|]. split; [|apply NoDup_singleton].
  intros x Hx ->%list_elem_of_singleton. done.
Qed.

Lemma elem_of_set_add (x h : str) (hs : list str) :
  x ∈ set_add h hs <-> x = h \/ x ∈ hs.
Proof.
  unfold set_add. case_bool_decide.
  - split; [by right|]. by intros [->|?].
  - rewrite elem_of_app, list_elem_of_singleton. tauto.
Qed.

End SortFacts.


Section Extraction.

Variable urlparse : str -> option url_parts.
Variable unquote : str -> str.
Variable b64decode : str -> option (list Byte.byte).
Variable out_dir : str.

Local Abbreviation extract_entry := (extract_entry urlparse unquote b64decode out_dir).
Local Abbreviation extract_loop := (extract_loop urlparse unquote b64decode out_dir).
Local Abbreviation extract_har := (extract_har urlparse unquote b64decode).
Local Abbreviation write_body := (write_body b64decode).
Local Abbreviation parts_of := (parts_of urlparse).
Local Abbreviation host_of := (host_of urlparse).
Local Abbreviation target := (target urlparse unquote out_dir).
Local Abbreviation body_of := (body_of b64decode).

Implicit Types (w : world) (e : entry) (l : locals) (j : path).

(** The body of the [try], by what there is to write. *)
Lemma write_body_eq e p text w :
  e_text e = Some text ->
  write_body p text (e_encoding e) w
  = match body_of e with
    | Some c => safe_write p c w
    | None => (Raise BinasciiError, w)
    end.
Proof.
  intros Ht. unfold Extractor.write_body, Spec.body_of. rewrite Ht. simpl.
  case_bool_decide; [|done].
  run_m. by destruct (b64decode text).
Qed.

(** One turn of the loop, case by case. *)
Lemma extract_entry_eq e l w :
  extract_entry e l w
  = match parts_of e with
    | Some p =>
        let l1 := added (netloc p) l in
        let d := derived_path unquote (netloc p) (upath p) in
        if is_image d then (Ok l1, w)
        else match e_text e with
             | None =>
                 (Ok l1, say (SkipNoBody (default [] (e_url e)) (e_status e)) w)
             | Some text =>
                 match write_body (path_join out_dir d) text (e_encoding e) w with
                 | (Ok _, w1) =>
                     (Ok (counted l1), say (Wrote (path_join out_dir d)) w1)
                 | (Raise ex, w1) =>
                     (Ok l1, say (ErrorWriting (path_join out_dir d) ex) w1)
                 end
             end
    | None =>
        match e_url e with
        | Some (c :: u) =>
            match urlparse (c :: u) with
            | None => (Raise ValueError, w)
            | Some _ => (Ok l, w)
            end
        | _ => (Ok l, w)
        end
    end.
Proof.
  unfold Extractor.extract_entry, Spec.parts_of.
  destruct (e_url e) as [[|c u]|]; [done| |done]. run_m.
  destruct (urlparse (c :: u)) as [p|]; [|done]. cbn [default].
  destruct (netloc p) as [|x h] eqn:E; [done|]. cbn beta iota zeta. rewrite ?E.
  destruct (is_image _); [done|]. destruct (e_text e) as [text|]; [|done].
  destruct (Extractor.write_body _ _ _ _ _) as [[[]|ex] w1]; done.
Qed.

(** A turn raises only where [urlparse] does. *)
Lemma extract_entry_raises e l w ex w' :
  extract_entry e l w = (Raise ex, w') ->
  ex = ValueError /\ w' = w
  /\ exists url, e_url e = Some url /\ url <> [] /\ urlparse url = None.
Proof.
  rewrite extract_entry_eq. destruct (parts_of e) as [p|].
  - cbn zeta. destruct (is_image _); [done|]. destruct (e_text e); [|done].
    by destruct (write_body _ _ _ _) as [[[]|?] ?].
  - destruct (e_url e) as [[|c u]|]; [done| |done].
    destruct (urlparse (c :: u)) eqn:E; [done|]. intros [= <- <-].
    split; [done|]. split; [done|]. by exists (c :: u).
Qed.

(** The hosts after a turn that returns. *)
Lemma extract_entry_hosts e l w l' w' :
  extract_entry e l w = (Ok l', w') ->
  hosts l' = match host_of e with
             | Some h => set_add h (hosts l)
             | None => hosts l
             end.
Proof.
  rewrite extract_entry_eq. unfold Spec.host_of.
  destruct (parts_of e) as [p|]; simpl.
  - destruct (is_image _); [by intros [= <- <-]|].
    destruct (e_text e); [|by intros [= <- <-]].
    destruct (write_body _ _ _ _) as [[[]|?] ?]; by intros [= <- <-].
  - destruct (e_url e) as [[|c u]|]; [by intros [= <- <-]| |by intros [= <- <-]].
    destruct (urlparse (c :: u)); [by intros [= <- <-]|done].
Qed.

(** A turn leaves a file as it is unless it writes to its name. *)
Lemma extract_entry_frame e l w r w' j d :
  extract_entry e l w = (r, w') ->
  (forall p, target e = Some p -> resolve p <> j) ->
  w_fs w !! j = Some (File d) -> w_fs w' !! j = Some (File d).
Proof.
  rewrite extract_entry_eq. unfold Spec.target.
  destruct (parts_of e) as [p|]; simpl.
  - destruct (is_image _); [by intros [= <- <-]|].
    destruct (e_text e) as [text|] eqn:Et; [|by intros [= <- <-]].
    rewrite (write_body_eq e _ text w Et). intros H Hj Hd.
    specialize (Hj _ eq_refl).
    destruct (body_of e) as [c|].
    + destruct (safe_write _ c w) as [r1 w1] eqn:Es.
      apply safe_write_inv in Es as (_ & Hf & _).
      destruct r1 as [[]|ex]; injection H as <- <-; simpl; by apply Hf.
    + by injection H as <- <-.
  - destruct (e_url e) as [[|c u]|]; [by intros [= <- <-]| |by intros [= <- <-]].
    destruct (urlparse (c :: u)); by intros [= <- <-].
Qed.

(** A turn whose write returns leaves the body under the target. *)
Lemma extract_entry_writes e l w p c w1 :
  target e = Some p -> body_of e = Some c ->
  safe_write p c w = (Ok tt, w1) ->
  exists h, host_of e = Some h
    /\ extract_entry e l w = (Ok (counted (added h l)), say (Wrote p) w1)
    /\ w_fs (say (Wrote p) w1) !! resolve p = Some (File c).
Proof.
  unfold Spec.target, Spec.host_of. rewrite extract_entry_eq.
  destruct (parts_of e) as [q|]; [|done]. simpl.
  destruct (is_image _); [done|].
  destruct (e_text e) as [text|] eqn:Et; [|done]. intros [= <-] Hc Hs.
  exists (netloc q). split; [done|].
  rewrite (write_body_eq e _ text w Et), Hc, Hs. split; [done|].
  apply safe_write_inv in Hs as (_ & _ & H). by apply H.
Qed.

Lemma extract_loop_app (a b : list entry) l w :
  extract_loop (a ++ b) l w
  = match extract_loop a l w with
    | (Ok l', w') => extract_loop b l' w'
    | (Raise ex, w') => (Raise ex, w')
    end.
Proof.
  revert l w. induction a as [|e a IH]; intros l w; simpl; [done|].
  unfold bind. destruct (extract_entry e l w) as [[l1|ex] w1]; [apply IH|done].
Qed.

Lemma extract_loop_frame (es : list entry) l w r w' j d :
  extract_loop es l w = (r, w') ->
  (forall e p, e ∈ es -> target e = Some p -> resolve p <> j) ->
  w_fs w !! j = Some (File d) -> w_fs w' !! j = Some (File d).
Proof.
  revert l w. induction es as [|e es IH]; intros l w; simpl.
  - by intros [= <- <-].
  - unfold bind. destruct (extract_entry e l w) as [[l1|ex] w1] eqn:E.
    + intros H Ht Hd. apply (IH l1 w1 H).
      * intros e' p He'. apply Ht. by right.
      * apply (extract_entry_frame _ _ _ _ _ _ _ E); [|done].
        intros p. apply Ht. by left.
    + intros [= <- <-] Ht Hd.
      apply (extract_entry_frame _ _ _ _ _ _ _ E); [|done].
      intros p. apply Ht. by left.
Qed.

(** Lines 60-63: what [finish] does when the hosts file can be opened. *)
Lemma finish_inv l w hs w' :
  finish out_dir l w = (Ok hs, w') ->
  hs = hosts l
  /\ w_fs w' = <[resolve (hosts_file out_dir)
                 := File (Text (join newline (sorted (hosts l))))]> (w_fs w)
  /\ w_out w' = w_out w ++ [ExtractionComplete (written l) out_dir].
Proof.
  unfold finish. run_m.
  destruct (open_write _ _ _) as [f'|ex] eqn:E; [|done].
  intros [= <- <-]. apply open_write_eq in E. by subst f'.
Qed.

Lemma extract_har_inv (es : list entry) w hs w' :
  extract_har es out_dir w = (Ok hs, w') ->
  exists l w1, extract_loop es start w = (Ok l, w1)
               /\ finish out_dir l w1 = (Ok hs, w').
Proof.
  unfold Extractor.extract_har, bind. fold start.
  destruct (extract_loop es start w) as [[l|ex] w1]; [|done].
  intros H. by exists l, w1.
Qed.


(** ** The extractor: paths, failures, files *)

(** C10.  A URL path made of slashes only gives the local path
    [<host>/index.html], as the empty path does: the slashes are stripped
    before the path is compared with the empty string. *)
Theorem C10_slash_path_is_index (host ppath : str) :
  unquote [] = [] ->
  Forall (fun c => c = "/"%char) ppath ->
  derived_path unquote host ppath = host ++ lit "/index.html"
  /\ derived_path unquote host ppath = derived_path unquote host [].
Proof.
  intros Hu Hp. unfold derived_path. rewrite (lstrip_all _ _ Hp). simpl.
  by rewrite Hu.
Qed.

(** An entry whose path is an image is passed over before anything is
    written or printed; its host is in the set. *)
Lemma extract_entry_image e l w p :
  parts_of e = Some p ->
  is_image (derived_path unquote (netloc p) (upath p)) = true ->
  extract_entry e l w = (Ok (added (netloc p) l), w).
Proof. intros Hp Hi. rewrite extract_entry_eq, Hp. simpl. by rewrite Hi. Qed.

Lemma set_add_mono (h x : str) (hs : list str) : h ∈ hs -> h ∈ set_add x hs.
Proof.
  unfold set_add. case_bool_decide; [done|]. intros Hh. apply elem_of_app. by left.
Qed.

Lemma set_add_elem (h : str) (hs : list str) : h ∈ set_add h hs.
Proof.
  unfold set_add. case_bool_decide; [done|]. apply elem_of_app. right. by left.
Qed.

Lemma extract_loop_hosts_mono (es : list entry) l w l' w' h :
  extract_loop es l w = (Ok l', w') -> h ∈ hosts l -> h ∈ hosts l'.
Proof.
  revert l w. induction es as [|e es IH]; intros l w; simpl.
  - by intros [= <- <-].
  - unfold bind. destruct (extract_entry e l w) as [[l1|ex] w1] eqn:E; [|done].
    intros H Hh. apply (IH l1 w1 H).
    rewrite (extract_entry_hosts _ _ _ _ _ E).
    destruct (host_of e); [by apply set_add_mono|done].
Qed.

(** C6.  When the body of the [try] raises for an entry, be it in the
    decoding or in the write, the turn of the loop returns: the error is
    printed with the path, the host of the entry is in the set, the count
    of written files is as before, and the loop goes on with the entries
    that follow.  After them the hosts file is written: when it can be
    opened, [extract_har] returns the set, and the file lists it.  No
    turn of the loop raises, except where [urlparse] does. *)
Theorem C6_write_failure_is_caught (pre post : list entry) (e : entry)
    (w w1 w2 : world) (l1 : locals) (p text h : str) (ex : exn) :
  extract_loop pre start w = (Ok l1, w1) ->
  host_of e = Some h -> target e = Some p -> e_text e = Some text ->
  write_body p text (e_encoding e) w1 = (Raise ex, w2) ->
  let w2' := say (ErrorWriting p ex) w2 in
  extract_entry e l1 w1 = (Ok (added h l1), w2')
  /\ extract_loop (pre ++ e :: post) start w
     = extract_loop post (added h l1) w2'
  /\ extract_har (pre ++ e :: post) out_dir w
     = bind (extract_loop post (added h l1)) (finish out_dir) w2'
  /\ (forall l3 w3 f',
        extract_loop post (added h l1) w2' = (Ok l3, w3) ->
        open_write (hosts_file out_dir)
          (Text (join newline (sorted (hosts l3)))) (w_fs w3) = Ok f' ->
        extract_har (pre ++ e :: post) out_dir w
        = (Ok (hosts l3),
           {| w_fs := f';
              w_out := w_out w3 ++ [ExtractionComplete (written l3) out_dir] |})
        /\ f' !! resolve (hosts_file out_dir)
           = Some (File (Text (join newline (sorted (hosts l3)))))
        /\ h ∈ hosts l3)
  /\ (forall e' l w0 ex' w', extract_entry e' l w0 = (Raise ex', w') ->
        ex' = ValueError
        /\ exists url, e_url e' = Some url /\ urlparse url = None).
Proof.
  intros Hpre Hh Ht Htext Hw w2'.
  assert (extract_entry e l1 w1 = (Ok (added h l1), w2')) as He.
  { rewrite extract_entry_eq. unfold Spec.host_of, Spec.target in *.
    destruct (parts_of e) as [q|]; [|done]. simpl in *. injection Hh as <-.
    destruct (is_image _); [done|]. rewrite Htext in *. injection Ht as <-.
    by rewrite Hw. }
  assert (extract_loop (pre ++ e :: post) start w
          = extract_loop post (added h l1) w2') as Hl.
  { rewrite extract_loop_app, Hpre. simpl. unfold bind. by rewrite He. }
  assert (extract_har (pre ++ e :: post) out_dir w
          = bind (extract_loop post (added h l1)) (finish out_dir) w2') as Hh'.
  { unfold Extractor.extract_har. fold start. unfold bind. by rewrite Hl. }
  split; [done|]. split; [done|]. split; [done|]. split.
  - intros l3 w3 f' H3 Ho. rewrite Hh'. unfold bind. rewrite H3.
    unfold finish. run_m. rewrite Ho. split; [done|].
    apply open_write_eq in Ho as ->. split; [apply lookup_insert_eq|].
    apply (extract_loop_hosts_mono _ _ _ _ _ _ H3). apply set_add_elem.
  - intros e' l w0 ex' w' H.
    apply extract_entry_raises in H as (-> & _ & url & Hu & _ & Hp). eauto.
Qed.

(** C1, as the code has it.  An entry whose URL is not empty and has a
    netloc that is not empty, whose path is not an image and whose body is
    present and decodes, and for which the write returns: when
    [extract_har] returns, the file under the derived path holds the body,
    provided that no later entry is written to the same file and that the
    file is not the hosts file.  The paths of the run, the one of the hosts
    file included, have no component [..], so that two of them name the
    same file only when they resolve to the same path. *)
Theorem C1_body_is_on_disk (pre post : list entry) (e : entry)
    (w w' : world) (hs : list str) (p : str) (c : content) :
  extract_har (pre ++ e :: post) out_dir w = (Ok hs, w') ->
  target e = Some p ->
  body_of e = Some c ->
  (forall e' p', e' ∈ pre ++ e :: post -> target e' = Some p' ->
                 no_dotdot p' = true) ->
  no_dotdot (hosts_file out_dir) = true ->
  (forall l1 w1, extract_loop pre start w = (Ok l1, w1) ->
                 (safe_write p c w1).1 = Ok tt) ->
  (forall e' p', e' ∈ post -> target e' = Some p' -> resolve p' <> resolve p) ->
  resolve (hosts_file out_dir) <> resolve p ->
  w_fs w' !! resolve p = Some (File c).
Proof.
  intros Hhar Ht Hc _ _ Hw Hpost Hhosts.
  apply extract_har_inv in Hhar as (l & w3 & Hloop & Hfin).
  rewrite extract_loop_app in Hloop.
  destruct (extract_loop pre start w) as [[l1|ex] w1] eqn:Hpre; [|done].
  specialize (Hw l1 w1 eq_refl).
  destruct (safe_write p c w1) as [r w2] eqn:Hs. simpl in Hw. subst r.
  destruct (extract_entry_writes e l1 w1 p c w2 Ht Hc Hs) as (h & _ & He & Hfile).
  simpl in Hloop. unfold bind in Hloop. rewrite He in Hloop.
  apply finish_inv in Hfin as (_ & -> & _).
  rewrite lookup_insert_ne; [|done].
  by apply (extract_loop_frame _ _ _ _ _ _ _ Hloop).
Qed.


(** ** The host set *)

Lemma host_of_Some (e : entry) (h : str) :
  host_of e = Some h <->
  exists url p, e_url e = Some url /\ url <> [] /\ urlparse url = Some p
                /\ netloc p = h /\ h <> [].
Proof.
  unfold Spec.host_of, Spec.parts_of. split.
  - destruct (e_url e) as [[|c u]|]; [done| |done].
    destruct (urlparse (c :: u)) as [p|] eqn:E; [|done].
    destruct (netloc p) as [|x n] eqn:En; [done|]. simpl. rewrite En.
    intros [= <-]. by exists (c :: u), p.
  - intros (url & p & -> & Hu & Hp & Hn & Hh). destruct url as [|c u]; [done|].
    rewrite Hp. destruct (netloc p) as [|x n] eqn:En; [congruence|].
    simpl. congruence.
Qed.

(** The set after the loop: without repetition, and made of what it held
    before and the hosts of the entries. *)
Lemma extract_loop_hosts (es : list entry) (l : locals) (w : world) l' w' :
  extract_loop es l w = (Ok l', w') -> NoDup (hosts l) ->
  NoDup (hosts l')
  /\ forall h, h ∈ hosts l' <->
               h ∈ hosts l \/ exists e, e ∈ es /\ host_of e = Some h.
Proof.
  revert l w. induction es as [|e es IH]; intros l w; simpl.
  - intros [= <- <-] Hn. split; [done|]. intros h. split; [by left|].
    intros [?|(e & []%elem_of_nil & _)]. done.
  - unfold bind. destruct (extract_entry e l w) as [[l1|ex] w1] eqn:E; [|done].
    intros H Hn. pose proof (extract_entry_hosts _ _ _ _ _ E) as Hh.
    destruct (IH l1 w1 H) as [Hn' Hm].
    { rewrite Hh. destruct (host_of e); [by apply set_add_NoDup|done]. }
    split; [done|]. intros h. rewrite Hm, Hh. split.
    + intros [Hin|(e' & He' & Hh')].
      * destruct (host_of e) as [h0|] eqn:E0; [|by left].
        apply elem_of_set_add in Hin as [->|Hin]; [|by left].
        right. exists e. split; [by left|done].
      * right. exists e'. split; [by right|done].
    + intros [Hin|(e' & He' & Hh')].
      * left. destruct (host_of e); [by apply set_add_mono|done].
      * apply elem_of_cons in He' as [->|He'].
        -- left. rewrite Hh'. apply set_add_elem.
        -- right. by exists e'.
Qed.

(** C3, as the code has it.  When [extract_har] returns, the hosts file
    holds the lines of a strictly increasing list, joined by newlines,
    whose members are the netlocs of the entries with a URL that is not
    empty and a netloc that is not empty; the set returned has the same
    members. *)
Theorem C3_hosts_file_sorted_netlocs (entries : list entry) (w w' : world)
    (hs : list str) :
  extract_har entries out_dir w = (Ok hs, w') ->
  exists L : list str,
    w_fs w' !! resolve (hosts_file out_dir) = Some (File (Text (join newline L)))
    /\ strictly_sorted L = true
    /\ (forall h, h ∈ L <->
          exists e url p, e ∈ entries /\ e_url e = Some url /\ url <> []
                          /\ urlparse url = Some p /\ netloc p = h /\ h <> [])
    /\ hs ≡ₚ L.
Proof.
  intros (l & w1 & Hloop & Hfin)%extract_har_inv.
  apply finish_inv in Hfin as (-> & Hfs & _).
  destruct (extract_loop_hosts _ _ _ _ _ Hloop) as [Hn Hm]; [constructor|].
  exists (sorted (hosts l)). split; [rewrite Hfs; apply lookup_insert_eq|].
  split; [by apply sorted_strict|]. split; [|by rewrite sorted_perm].
  intros h. rewrite sorted_perm, Hm. split.
  - intros [[]%elem_of_nil|(e & He & Hh)].
    apply host_of_Some in Hh as (url & p & ?). exists e, url, p. tauto.
  - intros (e & url & p & He & Hh). right. exists e. split; [done|].
    apply host_of_Some. exists url, p. tauto.
Qed.

End Extraction.

(** ** The theorems at work on the examples *)

(** A run that returns, by its result and the world it leaves. *)
Lemma run_returns {A} (x : result A * world) (a : A) :
  x.1 = Ok a -> x = (Ok a, x.2).
Proof. destruct x as [r w]. simpl. by intros ->. Qed.

Lemma write_body_undecoded (p text : str) (enc : option str) (w : world) :
  enc = Some (lit "base64") -> Lib.b64decode text = None ->
  write_body Lib.b64decode p text enc w = (Raise BinasciiError, w).
Proof.
  intros -> H. unfold write_body. rewrite bool_decide_eq_true_2 by done.
  run_m. by rewrite H.
Qed.

Lemma C10_witness :
  derived_path Lib.unquote cdn (lit "/") = cdn ++ lit "/index.html"
  /\ derived_path Lib.unquote cdn (lit "/") = derived_path Lib.unquote cdn [].
Proof.
  apply (C10_slash_path_is_index Lib.unquote cdn (lit "/")).
  - reflexivity.
  - repeat constructor.
Defined.

Lemma C6_witness :
  let l1 := {| hosts := [cdn]; written := 1 |} in
  let w1 := (run_loop [e_app]).2 in
  extract_entry Lib.urlparse Lib.unquote Lib.b64decode staging e_bad_b64 l1 w1
  = (Ok (added img_host l1),
     say (ErrorWriting (lit "site/out_extracted/x.bin") BinasciiError) w1).
Proof.
  intros l1 w1.
  refine (proj1 (C6_write_failure_is_caught Lib.urlparse Lib.unquote Lib.b64decode
            staging [e_app] [e_b64] e_bad_b64 staged_world w1 w1 l1
            (lit "site/out_extracted/x.bin") (lit "aGVsbG8") img_host
            BinasciiError _ _ _ _ _)).
  - apply (run_returns (run_loop [e_app])). vm_compute. reflexivity.
  - vm_compute. reflexivity.
  - vm_compute. reflexivity.
  - vm_compute. reflexivity.
  - apply write_body_undecoded; vm_compute; reflexivity.
Defined.

Lemma C1_witness :
  (run_har [e_app; e_b64; e_root]).2.(w_fs)
    !! resolve (lit "site/out_extracted/y.bin")
  = Some (File hello).
Proof.
  refine (C1_body_is_on_disk Lib.urlparse Lib.unquote Lib.b64decode staging
            [e_app] [e_root] e_b64 staged_world
            (run_har [e_app; e_b64; e_root]).2 [cdn; img_host]
            (lit "site/out_extracted/y.bin") hello _ _ _ _ _ _ _ _).
  - apply (run_returns (run_har [e_app; e_b64; e_root])). vm_compute. reflexivity.
  - vm_compute. reflexivity.
  - vm_compute. reflexivity.
  - intros e' p' He' Hp'.
    assert (match target Lib.urlparse Lib.unquote staging e' with
            | Some q => no_dotdot q
            | None => true
            end = true) as H; [|by rewrite Hp' in H].
    apply elem_of_cons in He' as [->|He']; [vm_compute; reflexivity|].
    apply elem_of_cons in He' as [->|He']; [vm_compute; reflexivity|].
    apply list_elem_of_singleton in He' as ->. vm_compute. reflexivity.
  - vm_compute. reflexivity.
  - intros l1 w1 H.
    assert (w1 = (run_loop [e_app]).2) as -> by (change w1 with (Ok l1, w1).2; by rewrite <- H).
    vm_compute. reflexivity.
  - intros e' p' He' Hp'. apply list_elem_of_singleton in He' as ->.
    assert (p' = lit "site/out_extracted/cdn.example.com/index.html") as ->.
    { assert (Some p' = Some (lit "site/out_extracted/cdn.example.com/index.html"))
        as Heq by (rewrite <- Hp'; vm_compute; reflexivity).
      by injection Heq. }
    vm_compute. discriminate.
  - vm_compute. discriminate.
Defined.

(** The URL [file:///tmp/page.js] is not empty, its path is not an image
    and the body is present, yet no file is written, for its netloc is
    empty: C1 as stated fails on this entry. *)
Lemma C1_counterexample :
  Lib.urlparse (lit "file:///tmp/page.js")
  = Some {| netloc := []; upath := lit "/tmp/page.js" |}
  /\ derived_path Lib.unquote [] (lit "/tmp/page.js") = lit "tmp/page.js"
  /\ is_image (lit "tmp/page.js") = false
  /\ e_text e_file = Some (lit "x")
  /\ (run_har [e_file]).1 = Ok []
  /\ (run_har [e_file]).2.(w_fs) !! resolve (path_join staging (lit "tmp/page.js"))
     = None.
Proof. vm_compute. repeat split; reflexivity. Qed.

Lemma C3_witness :
  exists L : list str,
    (run_har [e_app; e_file; e_b64; e_root]).2.(w_fs)
      !! resolve (hosts_file staging)
    = Some (File (Text (join newline L)))
    /\ strictly_sorted L = true
    /\ (forall h, h ∈ L <->
          exists e url p, e ∈ [e_app; e_file; e_b64; e_root]
                          /\ e_url e = Some url /\ url <> []
                          /\ Lib.urlparse url = Some p /\ netloc p = h /\ h <> [])
    /\ [cdn; img_host] ≡ₚ L.
Proof.
  refine (C3_hosts_file_sorted_netlocs Lib.urlparse Lib.unquote Lib.b64decode
            staging [e_app; e_file; e_b64; e_root] staged_world
            (run_har [e_app; e_file; e_b64; e_root]).2 [cdn; img_host] _).
  apply (run_returns (run_har [e_app; e_file; e_b64; e_root])).
  vm_compute. reflexivity.
Defined.

(** The hosts file lists [cdn.example.com] alone; the netlocs of the
    entries whose URL is not empty are that and the empty netloc of
    [file:///tmp/page.js], which sorted and joined give an empty first line: C3
    as stated fails on these entries. *)
Lemma C3_counterexample :
  (run_har [e_file; e_root]).2.(w_fs) !! resolve (hosts_file staging)
  = Some (File (Text cdn))
  /\ spec_netlocs Lib.urlparse [e_file; e_root] = [[]; cdn]
  /\ spec_host_text Lib.urlparse [e_file; e_root] = newline ++ cdn
  /\ spec_host_text Lib.urlparse [e_file; e_root] <> cdn.
Proof. vm_compute. repeat split; try reflexivity. discriminate. Qed.

(** C2 at the input on which the code departs from it.  An image under
    [/_next/static/] is passed over by the extractor: its host is in the
    set and no file is written.  The patcher, for every host set, rewrites
    its URL in an [img] tag to the local path, where no file is.  An image
    URL outside [/_next/static/] is left as it is. *)
Theorem C2_static_image_is_rewritten :
  ((run_har [e_logo]).1 = Ok [cdn]
   /\ (run_har [e_logo]).2.(w_fs)
        !! resolve (lit "site/out_extracted/_next/static/media/logo.png") = None
   /\ (run_har [e_logo]).2.(w_out) = [ExtractionComplete 0 staging])
  /\ (forall hs, patch_text hs img_static = Some img_static_patched)
  /\ (forall hs, patch_text hs img_plain = Some img_plain).
Proof.
  split; [|split].
  - vm_compute. repeat split; reflexivity.
  - intros hs. rewrite patch_text_no_tags; vm_compute; reflexivity.
  - intros hs. rewrite patch_text_no_tags; vm_compute; reflexivity.
Qed.

(** ** Path strings and resolved paths *)

Section PathFacts.

Lemma split_all_cons (c : ascii) (s : str) : exists p ps, split_all c s = p :: ps.
Proof.
  induction s as [|x s (p & ps & IH)]; simpl; [by eexists _, _|].
  destruct (ceqb x c); [by eexists _, _|]. rewrite IH. by eexists _, _.
Qed.

Lemma split_all_app (c : ascii) (a b : str) :
  split_all c (a ++ c :: b) = split_all c a ++ split_all c b.
Proof.
  induction a as [|x a IH]; simpl.
  - by rewrite (proj2 (ceqb_eq c c) eq_refl).
  - destruct (ceqb x c); [by rewrite IH|]. rewrite IH.
    by destruct (split_all_cons c a) as (p & ps & ->).
Qed.

Lemma split_all_name (c : ascii) (n : str) :
  forallb (fun x => negb (ceqb x c)) n = true -> split_all c n = [n].
Proof.
  induction n as [|x n IH]; simpl; [done|].
  intros [Hx Hn]%andb_true_iff. apply negb_true_iff in Hx. rewrite Hx.
  by rewrite (IH Hn).
Qed.

Lemma comps_app (a b : str) : comps (a ++ "/"%char :: b) = comps a ++ comps b.
Proof. unfold comps. by rewrite split_all_app, List.filter_app. Qed.

Lemma comps_nil : comps [] = [].
Proof. done. Qed.

Lemma comps_name (n : str) : good_name n = true -> comps n = [n].
Proof.
  unfold good_name, comps. intros [Hn Hs]%andb_true_iff.
  rewrite (split_all_name _ _ Hs). simpl. by rewrite Hn.
Qed.

Lemma good_name_no_slash (n : str) :
  good_name n = true -> startswith n (lit "/") = false.
Proof.
  unfold good_name. intros [Hn Hs]%andb_true_iff. destruct n as [|x n]; [done|].
  simpl in *. apply andb_true_iff in Hs as [Hx _]. apply negb_true_iff in Hx.
  by rewrite Hx.
Qed.

Lemma join_slash_cons (x : str) (l : list str) :
  l <> [] -> join (lit "/") (x :: l) = x ++ "/"%char :: join (lit "/") l.
Proof. by destruct l. Qed.

Lemma comps_join (cs : list str) :
  forallb good_name cs = true -> comps (join (lit "/") cs) = cs.
Proof.
  induction cs as [|x cs IH]; [done|]. intros [Hx Hcs]%andb_true_iff.
  destruct cs as [|y cs]; [by apply comps_name|].
  rewrite join_slash_cons, comps_app, (comps_name _ Hx), IH; done.
Qed.

Lemma startswith_app_l (a b : str) (c : ascii) :
  a <> [] -> startswith (a ++ b) [c] = startswith a [c].
Proof.
  destruct a as [|x a]; [done|]. intros _. cbn [app startswith].
  by rewrite !(proj2 (startswith_prefix _ []) (prefix_nil _)).
Qed.

Lemma join_no_slash (cs : list str) :
  forallb good_name cs = true -> cs <> [] ->
  startswith (join (lit "/") cs) (lit "/") = false.
Proof.
  destruct cs as [|x cs]; [done|]. intros [Hx _]%andb_true_iff _.
  pose proof (good_name_no_slash _ Hx) as Hs.
  destruct cs as [|y cs]; [exact Hs|].
  rewrite join_slash_cons; [|done]. destruct x as [|c x]; [done|].
  change (lit "/") with ["/"%char] in *. by rewrite startswith_app_l.
Qed.

Lemma resolve_eq (p : str) :
  resolve p = if startswith p (lit "/") then root_mark :: comps p else comps p.
Proof. done. Qed.

(** A slash after a text that is not empty separates components. *)
Lemma resolve_app (a b : str) :
  a <> [] -> resolve (a ++ "/"%char :: b) = resolve a ++ comps b.
Proof.
  intros Ha. rewrite !resolve_eq, comps_app.
  change (lit "/") with ["/"%char]. rewrite (startswith_app_l a _ _ Ha).
  by destruct (startswith a ["/"%char]).
Qed.

Lemma resolve_slash (b : str) : resolve ("/"%char :: b) = root_mark :: comps b.
Proof.
  rewrite resolve_eq. change (lit "/") with ([] ++ ["/"%char]).
  change ("/"%char :: b) with ([] ++ "/"%char :: b) at 2. rewrite comps_app.
  cbn [app startswith]. rewrite (proj2 (startswith_prefix _ []) (prefix_nil _)).
  done.
Qed.

Lemma endswith_slash (a : str) :
  endswith a (lit "/") = true -> exists a', a = a' ++ ["/"%char].
Proof.
  unfold endswith. intros H. apply startswith_prefix in H as [t Ht].
  exists (rev t). by rewrite <- (rev_involutive a), Ht.
Qed.

(** [os.path.join] with a relative second argument appends its
    components. *)
Lemma resolve_join (a b : str) :
  startswith b (lit "/") = false ->
  resolve (path_join a b) = resolve a ++ comps b.
Proof.
  intros Hb. unfold path_join. rewrite Hb.
  destruct a as [|x a].
  { rewrite bool_decide_eq_true_2 by done. cbn [orb app].
    by rewrite resolve_eq, Hb. }
  rewrite bool_decide_eq_false_2 by done. cbn [orb].
  destruct (endswith (x :: a) (lit "/")) eqn:E.
  - apply endswith_slash in E as [a' ->]. rewrite <- app_assoc. cbn [app].
    destruct a' as [|y a'].
    + cbn [app]. by rewrite !resolve_slash.
    + rewrite resolve_app by done.
      rewrite (resolve_app (y :: a') []) by done. by rewrite comps_nil, app_nil_r.
  - change (lit "/" ++ b) with ("/"%char :: b). by rewrite resolve_app.
Qed.

Lemma resolve_join_name (a n : str) :
  good_name n = true -> resolve (path_join a n) = resolve a ++ [n].
Proof.
  intros Hn. rewrite resolve_join by by apply good_name_no_slash.
  by rewrite comps_name.
Qed.

Lemma resolve_join_rel (a : str) (cs : list str) :
  forallb good_name cs = true -> cs <> [] ->
  resolve (path_join a (join (lit "/") cs)) = resolve a ++ cs.
Proof.
  intros Hcs Hne. rewrite resolve_join by by apply join_no_slash.
  by rewrite comps_join.
Qed.

End PathFacts.

(** ** [os.path.dirname] and [os.makedirs] *)

Section DirFacts.

Lemma drop_to_slash_spec (r : str) :
  exists t, r = t ++ drop_to_slash r
    /\ (drop_to_slash r = [] \/ exists h, drop_to_slash r = "/"%char :: h).
Proof.
  induction r as [|c r (t & Ht & IH)]; simpl.
  - exists []. split; [done|by left].
  - destruct (ceqb c "/") eqn:E.
    + apply ceqb_eq in E as ->. exists []. split; [done|]. right. by eexists.
    + exists (c :: t). split; [|done]. simpl. by rewrite <- Ht.
Qed.

Lemma lstrip_spec (c : ascii) (s : str) :
  exists k, s = k ++ lstrip c s /\ forallb (ceqb c) k = true.
Proof.
  induction s as [|x s (k & Hk & Hall)]; simpl; [by exists []|].
  destruct (ceqb x c) eqn:E; [|by exists []].
  apply ceqb_eq in E as ->. exists (c :: k). simpl.
  rewrite <- Hk, Hall, (proj2 (ceqb_eq c c) eq_refl). done.
Qed.

Lemma comps_slashes (s : str) : forallb (ceqb "/") s = true -> comps s = [].
Proof.
  induction s as [|x s IH]; [done|]. intros [Hx Hs]%andb_true_iff.
  apply ceqb_eq in Hx as <-. change ("/"%char :: s) with ([] ++ "/"%char :: s).
  by rewrite comps_app, IH.
Qed.

Lemma forallb_rev {A} (P : A -> bool) (l : list A) :
  forallb P (rev l) = forallb P l.
Proof.
  induction l as [|x l IH]; [done|]. simpl.
  rewrite forallb_app, IH. simpl. rewrite andb_true_r. apply andb_comm.
Qed.

(** The directory part of a path string resolves to the front of what
    the string resolves to. *)
Lemma resolve_dirname (p : str) : resolve (dirname p) `prefix_of` resolve p.
Proof.
  unfold dirname. destruct (drop_to_slash_spec (rev p)) as (t & Hp & Hd).
  assert (p = rev (drop_to_slash (rev p)) ++ rev t) as Hp'.
  { by rewrite <- rev_app_distr, <- Hp, rev_involutive. }
  destruct Hd as [Hd|[h Hd]]; rewrite Hd in *; simpl in Hp'.
  { simpl. apply prefix_nil. }
  simpl. destruct (forallb (ceqb "/") (rev h ++ ["/"%char])) eqn:Hall.
  - (* the head is made of slashes *)
    rewrite Hp'. destruct (rev h ++ ["/"%char]) as [|x s] eqn:Es.
    { by destruct (rev h). }
    cbn [forallb] in Hall. apply andb_true_iff in Hall as [Hx Hs].
    apply ceqb_eq in Hx as <-. cbn [app]. rewrite !resolve_slash.
    rewrite (comps_slashes _ Hs). apply prefix_cons, prefix_nil.
  - (* the head without its trailing slashes *)
    unfold rstrip_slash. rewrite rev_app_distr. cbn [rev app lstrip].
    rewrite (proj2 (ceqb_eq "/" "/") eq_refl), rev_involutive.
    destruct (lstrip_spec "/" h) as (k & Hk & Hks).
    destruct (lstrip "/" h) as [|y h'] eqn:El.
    { rewrite app_nil_r in Hk. subst k.
      rewrite forallb_app, forallb_rev, Hks in Hall. done. }
    assert (exists rest, p = rev (y :: h') ++ "/"%char :: rest) as [rest Hrest].
    { rewrite Hp', Hk, rev_app_distr, <- !app_assoc.
      destruct (rev k) as [|z k'] eqn:Ek.
      - by exists (rev t).
      - assert (z = "/"%char) as ->.
        { assert (forallb (ceqb "/") (rev k) = true) as Hr by by rewrite forallb_rev.
          rewrite Ek in Hr. cbn [forallb] in Hr.
          apply andb_true_iff in Hr as [Hz _].
          by apply ceqb_eq in Hz. }
        by eexists. }
    rewrite Hrest, resolve_app.
    + by apply prefix_app_r.
    + simpl. by destruct (rev h').
Qed.

Implicit Types (f : gmap path node) (k j : path).

Lemma ensure_dir_other f f' k j :
  ensure_dir f k = Ok f' -> j <> k -> f' !! j = f !! j.
Proof.
  unfold ensure_dir. destruct (is_top k); [by intros [= <-]|].
  destruct (f !! k) as [[c'|]|] eqn:E; [done|by intros [= <-]|].
  intros [= <-] Hj. by rewrite lookup_insert_ne.
Qed.

Lemma ensure_dirs_other ks f f' j :
  ensure_dirs ks f = Ok f' -> j ∉ ks -> f' !! j = f !! j.
Proof.
  revert f. induction ks as [|k ks IH]; intros f; simpl; [by intros [= <-]|].
  destruct (ensure_dir f k) as [f1|e] eqn:E; [|done].
  intros H [Hk Hj]%not_elem_of_cons. rewrite (IH f1 H Hj).
  by apply (ensure_dir_other f f1 k).
Qed.

Lemma elem_of_prefixes k j : j ∈ prefixes k -> j `prefix_of` k.
Proof.
  unfold prefixes. intros (n & -> & _)%list_elem_of_fmap. apply prefix_take.
Qed.

(** [makedirs] touches nothing but the path and what leads to it. *)
Lemma makedirs_other name f f' j :
  makedirs name f = Ok f' -> ~ j `prefix_of` resolve name -> f' !! j = f !! j.
Proof.
  unfold makedirs, makedirs_at. destruct name as [|c n]; [done|].
  intros H Hj. apply (ensure_dirs_other _ _ _ _ H).
  intros Hin. by apply Hj, elem_of_prefixes.
Qed.

End DirFacts.

(** ** The copy phase *)

Section CopyPhase.

Variable scan_order : path -> list (str * node) -> list (str * node).
Hypothesis scan_perm : forall d l, scan_order d l ≡ₚ l.

Implicit Types (f : gmap path node) (k j d r : path) (w : world) (n : str).

Lemma elem_of_listdir f d n (nd : node) :
  (n, nd) ∈ listdir scan_order f d <-> f !! (d ++ [n]) = Some nd.
Proof.
  unfold listdir. rewrite scan_perm, list_elem_of_omap. split.
  - intros ([k nd'] & Hin & Hg). apply elem_of_map_to_list in Hin.
    case_bool_decide as Hk; [|done]. destruct Hk as [Hne Hpar].
    injection Hg as <- <-. rewrite <- Hpar. unfold parent.
    by rewrite <- app_removelast_last.
  - intros H. exists (d ++ [n], nd). split; [by apply elem_of_map_to_list|].
    rewrite bool_decide_eq_true_2.
    + by rewrite last_last.
    + split; [by destruct d|]. unfold parent. apply removelast_last.
Qed.

Lemma elem_of_files (ents : list (str * node)) n :
  n ∈ map fst (List.filter (fun e => negb (is_Dir e.2)) ents)
  <-> exists c, (n, File c) ∈ ents.
Proof.
  rewrite list_elem_of_fmap. split.
  - intros ([n' nd] & -> & Hin). apply list_elem_of_In, filter_In in Hin as [Hin Hd].
    destruct nd as [c|]; [|done]. exists c. by apply list_elem_of_In.
  - intros [c Hin]. exists (n, File c). split; [done|].
    apply list_elem_of_In, filter_In. split; [by apply list_elem_of_In|done].
Qed.

Lemma elem_of_dirs (ents : list (str * node)) n :
  n ∈ map fst (List.filter (fun e => is_Dir e.2) ents) <-> (n, Dir) ∈ ents.
Proof.
  rewrite list_elem_of_fmap. split.
  - intros ([n' nd] & -> & Hin). apply list_elem_of_In, filter_In in Hin as [Hin Hd].
    destruct nd as [c|]; [done|]. by apply list_elem_of_In.
  - intros Hin. exists (n, Dir). split; [done|].
    apply list_elem_of_In, filter_In. split; [by apply list_elem_of_In|done].
Qed.

Variables out_sub out_dir : str.

Local Abbreviation sub := (resolve out_sub).
Local Abbreviation out := (resolve out_dir).

Hypothesis sub_eq : sub = out ++ [staging_name].

(** The file system when the copy starts. *)
Variable f0 : gmap path node.
Hypothesis good : good_tree f0 sub.
Hypothesis no_nested : forall r, f0 !! (sub ++ staging_name :: r) = None.

Local Abbreviation unchanged := (unchanged sub f0).
Local Abbreviation copied := (copied out).
Local Abbreviation keeps := (keeps sub out f0).
Local Abbreviation covered := (covered sub out f0).

Lemma keeps_refl w : keeps w w.
Proof. by intros r c. Qed.

Lemma keeps_trans w1 w2 w3 : keeps w1 w2 -> keeps w2 w3 -> keeps w1 w3.
Proof. intros H1 H2 r c Hf Hc. by apply H2, H1. Qed.

Lemma covered_keeps d w w' : covered d w -> keeps w w' -> covered d w'.
Proof.
  intros Hc Hk r c Hr Hf Hd. apply Hk; [done|]. by apply Hc.
Qed.

(** The target of a staged path does not lie under the staging
    directory, nor does anything that leads to it. *)
Lemma target_outside r j :
  is_Some (f0 !! (sub ++ r)) -> j `prefix_of` out ++ r -> forall r', j <> sub ++ r'.
Proof.
  intros Hr [t Ht] r' ->. rewrite sub_eq, <- !app_assoc in Ht.
  apply app_inv_head in Ht. simpl in Ht. subst r.
  rewrite no_nested in Hr. by destruct Hr.
Qed.

(** Lines 120-125 for one file of the staging tree. *)
Lemma copy_file_step root d n (c : content) w w' :
  resolve root = sub ++ d -> unchanged w ->
  f0 !! (sub ++ d ++ [n]) = Some (File c) ->
  copy_file out_sub out_dir root n w = (Ok tt, w') ->
  unchanged w' /\ copied w' (d ++ [n]) c /\ keeps w w'.
Proof.
  intros Hroot Hinv Hf. unfold copy_file, relpath, read_file. run_m.
  assert (forallb good_name (d ++ [n]) = true) as Hgood by (apply good; by rewrite Hf).
  assert (good_name n = true) as Hn.
  { rewrite forallb_app in Hgood. apply andb_true_iff in Hgood as [_ H].
    simpl in H. by apply andb_true_iff in H as [-> _]. }
  rewrite (resolve_join_name root n Hn), Hroot, <- app_assoc, drop_app_length.
  set (dst := path_join out_dir (join (lit "/") (d ++ [n]))).
  assert (resolve dst = out ++ d ++ [n]) as Hdst.
  { apply resolve_join_rel; [done|by destruct d]. }
  destruct (makedirs (dirname dst) (w_fs w)) as [f1|e] eqn:E1; [|done].
  cbn [w_fs w_out].
  assert (read_at (sub ++ d ++ [n]) f1 = Ok c) as ->.
  { unfold read_at. erewrite (makedirs_file _ _ _ _ _ E1); [done|]. by rewrite Hinv. }
  destruct (open_write dst c f1) as [f2|e] eqn:E2; [|done].
  intros [= <-]. cbn [w_fs]. apply open_write_eq in E2 as ->. rewrite Hdst.
  assert (forall j, j `prefix_of` out ++ d ++ [n] -> forall r', j <> sub ++ r') as Hout.
  { intros j Hj. apply (target_outside (d ++ [n])); [by rewrite Hf|done]. }
  split; [|split].
  - intros r. cbn [w_fs]. rewrite lookup_insert_ne.
    + rewrite (makedirs_other _ _ _ _ E1); [apply Hinv|].
      intros Hp. apply (Hout (sub ++ r)) with (r' := r); [|done]. rewrite <- Hdst.
      exact (transitivity Hp (resolve_dirname dst)).
    + intros Heq. by apply (Hout (out ++ d ++ [n])) with (r' := r).
  - unfold Spec.copied. cbn [w_fs]. apply lookup_insert_eq.
  - intros r c' Hf' Hc'. unfold Spec.copied in *. cbn [w_fs].
    destruct (decide (out ++ d ++ [n] = out ++ r)) as [Heq|Hne].
    + rewrite Heq, lookup_insert_eq. apply app_inv_head in Heq as <-. congruence.
    + rewrite lookup_insert_ne by done. by apply (makedirs_file _ _ _ _ _ E1).
Qed.

(** The loop of line 119 over files of the directory [d]. *)
Lemma copy_files_loop root d (ns : list str) w w' :
  resolve root = sub ++ d -> unchanged w ->
  (forall n, n ∈ ns -> exists c, f0 !! (sub ++ d ++ [n]) = Some (File c)) ->
  for_each (copy_file out_sub out_dir root) ns w = (Ok tt, w') ->
  unchanged w' /\ keeps w w'
  /\ forall n c, n ∈ ns -> f0 !! (sub ++ d ++ [n]) = Some (File c) ->
                 copied w' (d ++ [n]) c.
Proof.
  intros Hroot. revert w. induction ns as [|n ns IH]; intros w Hinv Hns; simpl.
  - intros [= <-]. split; [done|]. split; [apply keeps_refl|].
    by intros n c []%elem_of_nil.
  - unfold bind. destruct (copy_file out_sub out_dir root n w) as [[[]|e] w1] eqn:E;
      [|done].
    destruct (Hns n) as [c Hc]; [by left|].
    destruct (copy_file_step _ _ _ _ _ _ Hroot Hinv Hc E) as (Hinv1 & Hcp & Hk).
    intros H. destruct (IH w1 Hinv1) as (Hinv' & Hk' & Hall); [|done|].
    { intros n' Hn'. apply Hns. by right. }
    split; [done|]. split; [by eapply keeps_trans|].
    intros n' c' [->|Hn']%elem_of_cons Hf'; [|by apply Hall].
    apply Hk'; [done|]. assert (c' = c) as -> by congruence. done.
Qed.

Variable D : nat.
Hypothesis depth_bound : forall r, is_Some (f0 !! (sub ++ r)) -> length r <= D.

(** What a walk from [root] does, when the fuel reaches the bottom of the
    tree: it ends; and when it returns, the staging tree is as it was and
    every file below [root] is in the target. *)
Local Abbreviation walk_spec fuel :=
  (forall root d w,
    resolve root = sub ++ d -> unchanged w -> length d <= D ->
    D < fuel + length d ->
    exists res w',
      walk_copy scan_order fuel out_sub out_dir root w = Some (res, w')
      /\ (res = Ok tt -> unchanged w' /\ keeps w w' /\ covered d w')).

Lemma walk_dirs_loop fuel root d (ds : list str) w :
  walk_spec fuel ->
  resolve root = sub ++ d -> unchanged w ->
  (forall n, n ∈ ds -> f0 !! (sub ++ d ++ [n]) = Some Dir) ->
  D < fuel + S (length d) ->
  exists res w',
    for_each_fuel
      (fun n => walk_copy scan_order fuel out_sub out_dir (path_join root n))
      ds w = Some (res, w')
    /\ (res = Ok tt ->
        unchanged w' /\ keeps w w' /\ forall n, n ∈ ds -> covered (d ++ [n]) w').
Proof.
  intros IH Hroot. revert w. induction ds as [|n ds IHds]; intros w Hinv Hds Hfuel.
  - exists (Ok tt), w. split; [done|]. intros _. split; [done|].
    split; [apply keeps_refl|]. by intros n []%elem_of_nil.
  - cbn [for_each_fuel].
    assert (f0 !! (sub ++ d ++ [n]) = Some Dir) as Hn by (apply Hds; by left).
    assert (forallb good_name (d ++ [n]) = true) as Hgood
      by (apply good; by rewrite Hn).
    assert (good_name n = true) as Hgn.
    { rewrite forallb_app in Hgood. apply andb_true_iff in Hgood as [_ H].
      simpl in H. by apply andb_true_iff in H as [-> _]. }
    destruct (IH (path_join root n) (d ++ [n]) w) as (res & w1 & -> & Hres).
    + by rewrite (resolve_join_name _ _ Hgn), Hroot, <- app_assoc.
    + done.
    + apply depth_bound. by rewrite Hn.
    + rewrite length_app. simpl. lia.
    + destruct res as [[]|e].
      * destruct (Hres eq_refl) as (Hinv1 & Hk1 & Hc1).
        destruct (IHds w1 Hinv1) as (res' & w' & -> & Hres'); [|done|].
        { intros n' Hn'. apply Hds. by right. }
        exists res', w'. split; [done|]. intros Hok.
        destruct (Hres' Hok) as (Hinv' & Hk' & Hc').
        split; [done|]. split; [by eapply keeps_trans|].
        intros n' [->|Hn']%elem_of_cons; [|by apply Hc'].
        by eapply covered_keeps.
      * exists (Raise e), w1. by split.
Qed.

Lemma walk_copy_spec fuel : walk_spec fuel.
Proof.
  induction fuel as [|fuel IH]; intros root d w Hroot Hinv Hd Hfuel; [lia|].
  cbn [walk_copy]. rewrite Hroot.
  set (ents := listdir scan_order (w_fs w) (sub ++ d)).
  assert (forall n nd, (n, nd) ∈ ents <-> f0 !! (sub ++ d ++ [n]) = Some nd) as Hents.
  { intros n nd. unfold ents. rewrite elem_of_listdir, <- app_assoc. by rewrite Hinv. }
  destruct (for_each _ _ w) as [[[]|e] w1] eqn:Efiles; [|by eexists _, _].
  assert (forall n, n ∈ map fst (List.filter (fun e => negb (is_Dir e.2)) ents) ->
            exists c, f0 !! (sub ++ d ++ [n]) = Some (File c)) as Hfs.
  { intros n [c Hc]%elem_of_files. exists c. by apply Hents. }
  destruct (copy_files_loop _ _ _ _ _ Hroot Hinv Hfs Efiles)
    as (Hinv1 & Hk1 & Hfiles).
  destruct (walk_dirs_loop fuel root d
              (map fst (List.filter (fun e => is_Dir e.2) ents)) w1 IH Hroot Hinv1)
    as (res & w' & -> & Hres).
  { intros n Hn%elem_of_dirs. by apply Hents. }
  { lia. }
  exists res, w'. split; [done|]. intros Hok.
  destruct (Hres Hok) as (Hinv' & Hk' & Hdirs).
  split; [done|]. split; [by eapply keeps_trans|].
  intros r c Hr Hf Hchain. destruct r as [|x r]; [done|]. destruct r as [|y r].
  - apply Hk'; [done|]. apply Hfiles; [|done].
    apply elem_of_files. exists c. by apply Hents.
  - assert (f0 !! (sub ++ d ++ [x]) = Some Dir) as Hx.
    { apply (Hchain 1). simpl. lia. }
    assert (covered (d ++ [x]) w') as Hc.
    { apply Hdirs, elem_of_dirs. by apply Hents. }
    unfold Spec.copied. replace (d ++ x :: y :: r) with ((d ++ [x]) ++ y :: r)
      by by rewrite <- app_assoc.
    apply Hc; [done|by rewrite <- app_assoc|].
    intros i Hi. rewrite <- app_assoc. apply (Hchain (S i)). simpl in *. lia.
Qed.

End CopyPhase.

(** ** The copy phase, from [main] *)

Section CopyTheorem.

Variable scan_order : path -> list (str * node) -> list (str * node).

Lemma for_each_fuel_mono {A} (body body' : A -> world -> option (result unit * world))
    (l : list A) (w : world) res :
  (forall a w0 r, body a w0 = Some r -> body' a w0 = Some r) ->
  for_each_fuel body l w = Some res -> for_each_fuel body' l w = Some res.
Proof.
  intros Hb. revert w. induction l as [|a l IH]; intros w; simpl; [done|].
  destruct (body a w) as [[[[]|e] w1]|] eqn:E; [| |done].
  - rewrite (Hb _ _ _ E). apply IH.
  - by rewrite (Hb _ _ _ E).
Qed.

(** More fuel does not change what a walk returns. *)
Lemma walk_copy_mono (fuel fuel' : nat) (out_sub out_dir root : str) (w : world) res :
  fuel <= fuel' ->
  walk_copy scan_order fuel out_sub out_dir root w = Some res ->
  walk_copy scan_order fuel' out_sub out_dir root w = Some res.
Proof.
  revert fuel' root w res. induction fuel as [|fuel IH]; intros fuel' root w res Hle;
    [done|].
  destruct fuel' as [|fuel']; [lia|]. cbn [walk_copy].
  destruct (for_each _ _ w) as [[[]|e] w1]; [|done].
  apply for_each_fuel_mono. intros n w0 r. apply IH. lia.
Qed.

Lemma deepest_bound (f : gmap path node) (k : path) :
  is_Some (f !! k) -> length k <= deepest f.
Proof.
  intros [nd H]. unfold deepest. apply max_list_elem_of_le.
  apply list_elem_of_fmap. exists (k, nd). split; [done|].
  by apply elem_of_map_to_list.
Qed.

Lemma tree_check_good (f : gmap path node) (d : path) :
  tree_check f d = true ->
  good_tree f d /\ forall r, f !! (d ++ staging_name :: r) = None.
Proof.
  unfold tree_check. rewrite forallb_forall. intros H. split.
  - intros r [nd Hr]. specialize (H (d ++ r, nd)). cbn [fst] in H.
    rewrite bool_decide_eq_true_2 in H by by apply prefix_app_r.
    rewrite drop_app_length in H.
    apply andb_true_iff in H as [H _]; [done|].
    by apply list_elem_of_In, elem_of_map_to_list.
  - intros r. destruct (f !! (d ++ staging_name :: r)) as [nd|] eqn:Hr; [|done].
    specialize (H (d ++ staging_name :: r, nd)). cbn [fst] in H.
    rewrite bool_decide_eq_true_2 in H by by apply prefix_app_r.
    rewrite (bool_decide_eq_true_2 (d ++ [staging_name] `prefix_of` _)) in H.
    + rewrite andb_false_r in H. by discriminate H; apply list_elem_of_In, elem_of_map_to_list.
    + exists r. by rewrite <- app_assoc.
Qed.

Hypothesis scan_perm : forall d l, scan_order d l ≡ₚ l.

(** C8, as the code has it.  Let the names under the staging directory be
    names, and let nothing lie under [out_extracted/out_extracted].  With
    fuel beyond the length of the longest path the copy phase ends.  When
    it returns, every file under the staging directory that is reached
    through directories is in the target root under the same relative
    path, with the same content; so is [extracted_hosts.txt]. *)
Theorem C8_copy_phase_copies (out_dir : str) (w : world) :
  let out_sub := path_join out_dir staging_name in
  good_tree (w_fs w) (resolve out_sub) ->
  (forall r, w_fs w !! (resolve out_sub ++ staging_name :: r) = None) ->
  (forall fuel, deepest (w_fs w) < fuel ->
                copy_phase scan_order fuel out_sub out_dir w <> None)
  /\ (forall fuel w',
        copy_phase scan_order fuel out_sub out_dir w = Some (Ok tt, w') ->
        (forall (r : path) c, r <> [] ->
            w_fs w !! (resolve out_sub ++ r) = Some (File c) ->
            (forall i, 0 < i < length r ->
                       w_fs w !! (resolve out_sub ++ take i r) = Some Dir) ->
            w_fs w' !! (resolve out_dir ++ r) = Some (File c))
        /\ (forall c,
              w_fs w !! resolve (hosts_file out_sub) = Some (File c) ->
              w_fs w' !! resolve (hosts_file out_dir) = Some (File c))).
Proof.
  intros out_sub Hgood Hnest.
  assert (resolve out_sub = resolve out_dir ++ [staging_name]) as Hsub
    by by apply resolve_join_name.
  assert (forall r, is_Some (w_fs w !! (resolve out_sub ++ r)) ->
                    length r <= deepest (w_fs w)) as Hdepth.
  { intros r Hr. apply deepest_bound in Hr. rewrite length_app in Hr. lia. }
  pose proof (walk_copy_spec scan_order scan_perm out_sub out_dir Hsub (w_fs w)
                Hgood Hnest (deepest (w_fs w)) Hdepth) as Hwalk.
  assert (forall fuel, deepest (w_fs w) < fuel ->
            exists res w2,
              walk_copy scan_order fuel out_sub out_dir out_sub (say Copying w)
              = Some (res, w2)
              /\ (res = Ok tt ->
                  covered (resolve out_sub) (resolve out_dir) (w_fs w) [] w2)) as Hrun.
  { intros fuel Hfuel.
    destruct (Hwalk fuel out_sub [] (say Copying w)) as (res & w2 & Hw & Hres).
    - by rewrite app_nil_r.
    - by intros r.
    - simpl. lia.
    - simpl. lia.
    - exists res, w2. split; [done|]. intros Hok. by destruct (Hres Hok) as (_ & _ & ?). }
  assert (forall fuel,
            copy_phase scan_order fuel out_sub out_dir w
            = match walk_copy scan_order fuel out_sub out_dir out_sub (say Copying w) with
              | Some (Ok _, w2) => Some (Ok tt, say CopyComplete w2)
              | other => other
              end) as Hphase.
  { intros fuel. unfold copy_phase, abspath. rewrite bool_decide_eq_true_2; [done|].
    rewrite Hsub. intros Heq. apply (f_equal length) in Heq.
    rewrite length_app in Heq. simpl in Heq. lia. }
  split.
  - intros fuel Hfuel. rewrite Hphase.
    destruct (Hrun fuel Hfuel) as (res & w2 & -> & _). by destruct res as [[]|e].
  - intros fuel w' Hcp. rewrite Hphase in Hcp.
    destruct (walk_copy _ fuel _ _ _ _) as [[[[]|e] w2]|] eqn:Ew; [|done..].
    injection Hcp as <-.
    destruct (Hrun (Nat.max fuel (S (deepest (w_fs w))))) as (res & w3 & Hw3 & Hcov);
      [lia|].
    rewrite (walk_copy_mono fuel (Nat.max fuel (S (deepest (w_fs w)))) _ _ _ _ _
               ltac:(lia) Ew) in Hw3.
    injection Hw3 as <- <-. specialize (Hcov eq_refl).
    assert (forall (r : path) c, r <> [] ->
              w_fs w !! (resolve out_sub ++ r) = Some (File c) ->
              (forall i, 0 < i < length r ->
                         w_fs w !! (resolve out_sub ++ take i r) = Some Dir) ->
              w_fs w2 !! (resolve out_dir ++ r) = Some (File c)) as Hall.
    { intros r c Hr Hf Hchain. by apply (Hcov r c). }
    split; [exact Hall|]. intros c Hc. unfold hosts_file in *.
    rewrite resolve_join_name in * by done. cbn [w_fs say]. apply Hall; [done..|].
    intros i Hi. simpl in Hi. lia.
Qed.

End CopyTheorem.

Lemma returned_eq (x : option (result unit * world)) :
  returned x = true -> x = Some (Ok tt, world_of x).
Proof. by destruct x as [[[[]|e] w]|]. Qed.

Lemma C8_witness :
  (forall (r : path) c, r <> [] ->
      (run_har [e_app; e_root]).2.(w_fs) !! (resolve staging ++ r) = Some (File c) ->
      (forall i, 0 < i < length r ->
         (run_har [e_app; e_root]).2.(w_fs) !! (resolve staging ++ take i r)
         = Some Dir) ->
      w_fs (world_of copy_run) !! (resolve (lit "site") ++ r) = Some (File c))
  /\ (forall c,
        (run_har [e_app; e_root]).2.(w_fs) !! resolve (hosts_file staging)
        = Some (File c) ->
        w_fs (world_of copy_run) !! resolve (hosts_file (lit "site"))
        = Some (File c)).
Proof.
  refine (proj2 (C8_copy_phase_copies (fun _ l => l) _ (lit "site")
                   (run_har [e_app; e_root]).2 _ _) 10 (world_of copy_run) _).
  - done.
  - apply tree_check_good. vm_compute. reflexivity.
  - apply tree_check_good. vm_compute. reflexivity.
  - apply (returned_eq copy_run). vm_compute. reflexivity.
Defined.

(** [main] on an entry whose path is the name of the staging directory:
    the extractor writes the file [out_extracted] under the staging
    directory, and the copy phase raises when it opens the target of that
    file, which is the staging directory itself.  The file is not in the
    target root, and [main] does not return: C8 as stated fails on this
    input, whichever way the directory is listed. *)
Lemma C8_counterexample :
  ((exists w', main_run (fun l => l) [e_nested] = Some (Raise OSError, w'))
   /\ w_fs (world_of (main_run (fun l => l) [e_nested]))
        !! [lit "site"; lit "out_extracted"; lit "out_extracted"]
      = Some (File (Text (lit "x")))
   /\ w_fs (world_of (main_run (fun l => l) [e_nested]))
        !! [lit "site"; lit "out_extracted"] = Some Dir)
  /\ ((exists w', main_run (@rev _) [e_nested] = Some (Raise OSError, w'))
      /\ w_fs (world_of (main_run (@rev _) [e_nested]))
           !! [lit "site"; lit "out_extracted"; lit "out_extracted"]
         = Some (File (Text (lit "x")))
      /\ w_fs (world_of (main_run (@rev _) [e_nested]))
           !! [lit "site"; lit "out_extracted"] = Some Dir).
Proof.
  split.
  - split; [eexists; vm_compute; reflexivity|]. vm_compute. split; reflexivity.
  - split; [eexists; vm_compute; reflexivity|]. vm_compute. split; reflexivity.
Qed.
(** ** Directories and [safe_write] *)

Import Props.

Section DirFacts2.

Implicit Types (f : gmap path node) (k j : path) (n : node).

Lemma ensure_dir_extends f f' k : ensure_dir f k = Ok f' -> extends f f'.
Proof.
  unfold ensure_dir, extends. destruct (is_top k); [by intros [= <-]|].
  destruct (f !! k) as [[c|]|] eqn:E; [done|by intros [= <-]|].
  intros [= <-] j n Hj. rewrite lookup_insert_ne; [done|]. intros ->. congruence.
Qed.

Lemma ensure_dirs_extends ks f f' : ensure_dirs ks f = Ok f' -> extends f f'.
Proof.
  revert f. induction ks as [|k ks IH]; intros f; simpl.
  - intros [= <-] j n Hj. done.
  - destruct (ensure_dir f k) as [f1|e] eqn:E; [|done].
    intros H j n Hj. apply (IH f1 H). by apply (ensure_dir_extends f f1 k).
Qed.

(** What [ensure_dirs] adds is a directory, at one of the paths given. *)
Lemma ensure_dirs_new ks f f' j n :
  ensure_dirs ks f = Ok f' -> f' !! j = Some n ->
  f !! j = Some n \/ (f !! j = None /\ n = Dir /\ j ∈ ks).
Proof.
  revert f. induction ks as [|k ks IH]; intros f; simpl.
  - intros [= <-] Hj. by left.
  - destruct (ensure_dir f k) as [f1|e] eqn:E; [|done]. intros H Hj.
    destruct (IH f1 H Hj) as [H1|(H1 & -> & Hin)].
    + revert E H1. unfold ensure_dir. destruct (is_top k); [intros [= <-]; by left|].
      destruct (f !! k) as [[c|]|] eqn:Ek; [done|intros [= <-]; by left|].
      intros [= <-]. destruct (decide (j = k)) as [->|Hne].
      * rewrite lookup_insert_eq. intros [= <-]. right. split; [done|].
        split; [done|by left].
      * rewrite lookup_insert_ne by done. by left.
    + destruct (f !! j) as [n'|] eqn:Ej.
      * apply (ensure_dir_extends _ _ _ E) in Ej. congruence.
      * right. split; [done|]. split; [done|by right].
Qed.

Lemma is_dir_extends f f' k : extends f f' -> is_dir f k = true -> is_dir f' k = true.
Proof.
  unfold is_dir. intros He. destruct (is_top k); [done|]. simpl.
  destruct (f !! k) as [[c|]|] eqn:E; [done| |done].
  by rewrite (He _ _ E).
Qed.

Lemma ensure_dir_made f f' k : ensure_dir f k = Ok f' -> is_dir f' k = true.
Proof.
  unfold ensure_dir, is_dir. destruct (is_top k); [done|]. simpl.
  destruct (f !! k) as [[c|]|] eqn:E; [done|intros [= <-]; by rewrite E|].
  intros [= <-]. by rewrite lookup_insert_eq.
Qed.

Lemma ensure_dirs_made ks f f' k :
  ensure_dirs ks f = Ok f' -> k ∈ ks -> is_dir f' k = true.
Proof.
  revert f. induction ks as [|k0 ks IH]; intros f; simpl.
  - by intros _ ?%elem_of_nil.
  - destruct (ensure_dir f k0) as [f1|e] eqn:E; [|done].
    intros H [->|Hin]%elem_of_cons; [|by apply (IH f1)].
    apply (is_dir_extends f1); [by apply (ensure_dirs_extends ks)|].
    by apply (ensure_dir_made f).
Qed.

Lemma prefix_in_prefixes k j : j `prefix_of` k -> j <> [] -> j ∈ prefixes k.
Proof.
  intros [t ->] Hne. unfold prefixes. apply list_elem_of_fmap.
  exists (length j). split; [by rewrite take_app_length|].
  apply elem_of_seq. rewrite length_app. destruct j; [done|]. simpl. lia.
Qed.

(** After [makedirs] every directory on the way is there. *)
Lemma makedirs_at_made k f f' j :
  makedirs_at k f = Ok f' -> j `prefix_of` k -> is_dir f' j = true.
Proof.
  intros H Hj. destruct j as [|x j]; [done|].
  apply (ensure_dirs_made _ _ _ _ H). by apply prefix_in_prefixes.
Qed.

(** A file on the way stops [makedirs]. *)
Lemma ensure_dirs_blocked ks f k d :
  k ∈ ks -> is_top k = false -> f !! k = Some (File d) ->
  ensure_dirs ks f = Raise OSError.
Proof.
  revert f. induction ks as [|k0 ks IH]; intros f; simpl.
  - by intros ?%elem_of_nil.
  - intros Hin Ht Hk. destruct (decide (k0 = k)) as [->|Hne].
    + unfold ensure_dir. by rewrite Ht, Hk.
    + apply elem_of_cons in Hin as [->|Hin]; [done|].
      destruct (ensure_dir f k0) as [f1|e] eqn:E.
      * apply (IH f1 Hin Ht). by apply (ensure_dir_extends _ _ _ E).
      * revert E. unfold ensure_dir. destruct (is_top k0); [done|].
        destruct (f !! k0) as [[c|]|]; [|done|done]. by intros [= <-].
Qed.

(** [makedirs] raises nothing but [OSError]. *)
Lemma ensure_dirs_raises ks f e : ensure_dirs ks f = Raise e -> e = OSError.
Proof.
  revert f. induction ks as [|k0 ks IH]; intros f; simpl; [done|].
  destruct (ensure_dir f k0) as [f1|e'] eqn:E; [apply IH|].
  revert E. unfold ensure_dir. destruct (is_top k0); [done|].
  destruct (f !! k0) as [[c|]|]; [|done|done]. by intros [= <-] [= <-].
Qed.

Lemma makedirs_raises name f e : makedirs name f = Raise e -> e = OSError.
Proof.
  unfold makedirs, makedirs_at. destruct name; [by intros [= <-]|].
  apply ensure_dirs_raises.
Qed.

Lemma open_write_raises p c f e : open_write p c f = Raise e -> e = OSError.
Proof.
  unfold open_write, write_at. destruct (names_file p); [|by intros [= <-]].
  destruct (is_top _); [by intros [= <-]|].
  destruct (negb _); [by intros [= <-]|].
  destruct (f !! resolve p) as [[c'|]|]; [done|by intros [= <-]|done].
Qed.

Lemma makedirs_extends name f f' : makedirs name f = Ok f' -> extends f f'.
Proof.
  unfold makedirs, makedirs_at. destruct name; [done|]. apply ensure_dirs_extends.
Qed.

Lemma makedirs_new name f f' j n :
  makedirs name f = Ok f' -> f' !! j = Some n -> f !! j = Some n \/ n = Dir.
Proof.
  unfold makedirs, makedirs_at. destruct name; [done|]. intros H Hj.
  destruct (ensure_dirs_new _ _ _ _ _ H Hj) as [?|(_ & ? & _)]; [by left|by right].
Qed.

Lemma makedirs_same_files name f f' : makedirs name f = Ok f' -> same_files f f'.
Proof.
  intros H j d. split; [apply (makedirs_extends _ _ _ H)|].
  intros Hj. by destruct (makedirs_new _ _ _ _ _ H Hj).
Qed.

End DirFacts2.

Section SafeWrite.

Implicit Types (w : world) (p : str) (c : content) (f : gmap path node).

(** The two steps of a [safe_write] that returns. *)
Lemma safe_write_ok p c w w' :
  safe_write p c w = (Ok tt, w') ->
  exists f1, makedirs (dirname p) (w_fs w) = Ok f1
             /\ open_write p c f1 = Ok (w_fs w') /\ w_out w' = w_out w.
Proof.
  unfold safe_write. run_m.
  destruct (makedirs (dirname p) (w_fs w)) as [f1|e] eqn:E1; [|done].
  cbn [w_fs w_out]. destruct (open_write p c f1) as [f2|e] eqn:E2; [|done].
  intros [= <-]. by exists f1.
Qed.

(** What lets [open_write] return. *)
Lemma open_write_ok p c f f' :
  open_write p c f = Ok f' ->
  names_file p = true /\ is_top (resolve p) = false
  /\ is_dir f (parent (resolve p)) = true /\ is_dir f (resolve p) = false
  /\ f' = <[resolve p := File c]> f.
Proof.
  intros H. pose proof (open_write_eq _ _ _ _ H) as ->. revert H.
  unfold open_write, write_at, is_dir. destruct (names_file p); [|done].
  destruct (is_top (resolve p)) eqn:Et; [done|].
  destruct (is_top (parent (resolve p)) || _) eqn:Ep; [|done]. cbn [negb orb].
  by destruct (f !! resolve p) as [[c'|]|].
Qed.

(** A directory stays one when a file is written under another name. *)
Lemma is_dir_insert_file f k j c :
  is_dir f k = false -> is_dir f j = true -> is_dir (<[k := File c]> f) j = true.
Proof.
  intros Hk Hj. destruct (decide (j = k)) as [->|Hne]; [congruence|].
  revert Hj. unfold is_dir. by rewrite lookup_insert_ne.
Qed.

Lemma no_slash_dirname p : no_slash p = true -> dirname p = [].
Proof.
  intros H. unfold dirname.
  assert (drop_to_slash (rev p) = []) as ->; [|done].
  assert (no_slash (rev p) = true) as Hr
    by (unfold no_slash; by rewrite forallb_rev).
  unfold no_slash in Hr.
  induction (rev p) as [|x r IH]; [done|]. simpl in *.
  apply andb_true_iff in Hr as [Hx Hr]. apply negb_true_iff in Hx.
  rewrite Hx. by apply IH.
Qed.

(** X1.  When [safe_write] returns for a path without a component [..],
    the file holds the data, every directory on the way to it exists, every
    other file and directory is as it was, nothing is there that was not
    except the directories on the way, and nothing is printed. *)
Theorem safe_write_creates p c w w' :
  no_dotdot p = true ->
  safe_write p c w = (Ok tt, w') ->
  w_fs w' !! resolve p = Some (File c)
  /\ (forall k, k `prefix_of` resolve (dirname p) -> is_dir (w_fs w') k = true)
  /\ (forall j n, j <> resolve p -> w_fs w !! j = Some n -> w_fs w' !! j = Some n)
  /\ (forall j n, j <> resolve p -> w_fs w' !! j = Some n ->
        w_fs w !! j = Some n
        \/ (w_fs w !! j = None /\ n = Dir /\ j `prefix_of` resolve (dirname p)))
  /\ w_out w' = w_out w.
Proof.
  intros _ (f1 & Hm & Ho & Hout)%safe_write_ok.
  apply open_write_ok in Ho as (_ & _ & _ & Hnd & ->).
  split; [apply lookup_insert_eq|]. split; [|split; [|split; [|done]]].
  - intros k Hk. apply is_dir_insert_file; [done|]. revert Hm. unfold makedirs.
    destruct (dirname p) eqn:Ed; [done|]. intros Hm.
    by apply (makedirs_at_made _ _ _ _ Hm).
  - intros j n Hj Hn. rewrite lookup_insert_ne by done.
    by apply (makedirs_extends _ _ _ Hm).
  - intros j n Hj. rewrite lookup_insert_ne by done. revert Hm. unfold makedirs.
    destruct (dirname p) eqn:Ed; [done|]. intros Hm Hn.
    destruct (ensure_dirs_new _ _ _ _ _ Hm Hn) as [?|(? & ? & Hin)]; [by left|].
    right. split; [done|]. split; [done|]. by apply elem_of_prefixes.
Qed.

(** X2.  When a regular file stands where [safe_write] needs a directory,
    [safe_write] raises, and the file system is as it was. *)
Theorem safe_write_blocked p c w (k : path) (d : content) :
  k `prefix_of` resolve (dirname p) -> is_top k = false ->
  w_fs w !! k = Some (File d) ->
  safe_write p c w = (Raise OSError, w).
Proof.
  intros Hk Ht Hf. unfold safe_write. run_m.
  assert (makedirs (dirname p) (w_fs w) = Raise OSError) as ->; [|done].
  unfold makedirs, makedirs_at. destruct (dirname p) as [|x t] eqn:Ed.
  - done.
  - apply (ensure_dirs_blocked _ _ k d); [|done..].
    apply prefix_in_prefixes; [done|]. by intros ->.
Qed.

(** X3.  A path without a directory part cannot be written:
    [os.path.dirname] gives the empty string, and [os.makedirs] raises on
    it. *)
Theorem safe_write_bare_name p c w :
  no_slash p = true -> safe_write p c w = (Raise OSError, w).
Proof.
  intros H. unfold safe_write. run_m. by rewrite (no_slash_dirname p H).
Qed.

(** X4.  Where [safe_write] has returned once, it returns again for the
    same path: the directories are found in place, and the new data
    replace the old. *)
Theorem safe_write_again p c c' w w1 :
  safe_write p c w = (Ok tt, w1) ->
  safe_write p c' w1
  = (Ok tt, {| w_fs := <[resolve p := File c']> (w_fs w1); w_out := w_out w1 |}).
Proof.
  intros (f1 & Hm & Ho & Hout)%safe_write_ok.
  apply open_write_ok in Ho as (Hn & Ht & Hp & Hnd & Hfs).
  assert (makedirs (dirname p) (w_fs w1) = Ok (w_fs w1)) as Hm'.
  { revert Hm. unfold makedirs, makedirs_at. destruct (dirname p) eqn:Ed; [done|].
    rewrite <- Ed. clear Ed. intros Hm.
    assert (forall j, j ∈ prefixes (resolve (dirname p)) ->
                      is_dir (w_fs w1) j = true) as Hd.
    { intros j Hj. rewrite Hfs. apply is_dir_insert_file; [done|].
      by apply (ensure_dirs_made _ _ _ _ Hm). }
    clear Hm. induction (prefixes (resolve (dirname p))) as [|j ks IH]; [done|].
    simpl. assert (ensure_dir (w_fs w1) j = Ok (w_fs w1)) as ->.
    { specialize (Hd j ltac:(by left)). revert Hd. unfold ensure_dir, is_dir.
      destruct (is_top j); [done|]. simpl.
      by destruct (w_fs w1 !! j) as [[?|]|]. }
    apply IH. intros j' Hj'. apply Hd. by right. }
  unfold safe_write. run_m. rewrite Hm'. cbn [w_fs w_out].
  unfold open_write, write_at. rewrite Hn, Ht.
  assert (is_dir (w_fs w1) (parent (resolve p)) = true) as ->.
  { rewrite Hfs. by apply is_dir_insert_file. }
  cbn [negb]. by rewrite Hfs at 1; rewrite lookup_insert_eq.
Qed.

End SafeWrite.
(** ** The extractor: paths that cannot be written, failures, counts *)

Section WriteEdges.

Implicit Types (w : world) (p : str) (c : content).

Lemma names_file_slash p : endswith p (lit "/") = true -> names_file p = false.
Proof.
  intros [a ->]%endswith_slash. unfold names_file.
  change (a ++ ["/"%char]) with (a ++ "/"%char :: []).
  rewrite split_all_app. cbn [split_all]. unfold last_piece.
  by rewrite last_last.
Qed.

(** A path that ends in a slash names a directory: the directories are
    made, and [open] raises. *)
Lemma safe_write_slash p c w :
  endswith p (lit "/") = true ->
  exists w1, safe_write p c w = (Raise OSError, w1)
             /\ same_files (w_fs w) (w_fs w1) /\ w_out w1 = w_out w.
Proof.
  intros Hs. unfold safe_write. run_m.
  destruct (makedirs (dirname p) (w_fs w)) as [f1|e] eqn:E1.
  - cbn [w_fs w_out]. unfold open_write. rewrite (names_file_slash p Hs).
    eexists. split; [done|]. split; [|done]. by apply (makedirs_same_files (dirname p)).
  - apply makedirs_raises in E1 as ->. exists w. split; [done|]. split; [|done].
    by intros j d.
Qed.

End WriteEdges.

Section Extraction2.

Variable urlparse : str -> option url_parts.
Variable unquote : str -> str.
Variable b64decode : str -> option (list Byte.byte).

Local Abbreviation parts_of := (parts_of urlparse).
Local Abbreviation host_of := (host_of urlparse).
Local Abbreviation body_of := (body_of b64decode).
Local Abbreviation target := (target urlparse unquote).
Local Abbreviation extract_entry := (extract_entry urlparse unquote b64decode).
Local Abbreviation extract_loop := (extract_loop urlparse unquote b64decode).
Local Abbreviation extract_har := (extract_har urlparse unquote b64decode).

Implicit Types (w : world) (e : entry) (l : locals) (out_dir p : str).

(** X5.  An entry whose path ends in a slash, unless the path is made of
    slashes only, is never saved: the turn of the loop prints the error,
    counts nothing, and no file is made or changed. *)
Theorem slash_path_is_not_written out_dir e l w p :
  target out_dir e = Some p -> endswith p (lit "/") = true ->
  exists h ex w1,
    host_of e = Some h
    /\ extract_entry out_dir e l w = (Ok (added h l), say (ErrorWriting p ex) w1)
    /\ same_files (w_fs w) (w_fs w1) /\ w_out w1 = w_out w.
Proof.
  unfold Spec.target, Spec.host_of. rewrite extract_entry_eq.
  destruct (Spec.parts_of urlparse e) as [q|]; [|done]. simpl.
  destruct (is_image _); [done|].
  destruct (e_text e) as [text|] eqn:Et; [|done]. intros [= <-] Hs.
  exists (netloc q). rewrite (write_body_eq b64decode e _ text w Et).
  destruct (Spec.body_of b64decode e) as [c|].
  - destruct (safe_write_slash _ c w Hs) as (w1 & -> & Hf & Ho).
    by exists OSError, w1.
  - exists BinasciiError, w. split; [done|]. split; [done|]. split; [|done].
    by intros j d.
Qed.

(** X6.  A URL that [urlparse] rejects ends the extraction: [extract_har]
    raises where the loop stands, the entries that follow are not read,
    and neither the closing line is printed nor the hosts file written. *)
Theorem extract_har_urlparse_raises out_dir (pre post : list entry) e (url : str)
    l1 w w1 :
  extract_loop out_dir pre start w = (Ok l1, w1) ->
  e_url e = Some url -> url <> [] -> urlparse url = None ->
  extract_har (pre ++ e :: post) out_dir w = (Raise ValueError, w1).
Proof.
  intros Hpre Hu Hne Hp. unfold Extractor.extract_har. fold start. unfold bind.
  rewrite extract_loop_app, Hpre. simpl. unfold bind.
  rewrite extract_entry_eq. unfold Spec.parts_of. rewrite Hu.
  destruct url as [|c u]; [done|]. by rewrite Hp.
Qed.

(** The output and the count of one turn. *)
Lemma extract_entry_out out_dir e l w l' w' :
  extract_entry out_dir e l w = (Ok l', w') ->
  exists evs, w_out w' = w_out w ++ evs
    /\ length evs <= 1
    /\ written l' = written l + length (List.filter is_wrote evs)
    /\ (forall p, Wrote p ∈ evs -> target out_dir e = Some p).
Proof.
  rewrite extract_entry_eq. unfold Spec.target.
  destruct (Spec.parts_of urlparse e) as [q|]; simpl.
  - destruct (is_image _).
    { intros [= <- <-]. exists []. rewrite app_nil_r. simpl.
      split; [done|]. split; [lia|]. split; [lia|]. by intros p ?%elem_of_nil. }
    destruct (e_text e) as [text|] eqn:Et.
    + rewrite (write_body_eq b64decode e _ text w Et).
      destruct (Spec.body_of b64decode e) as [c|].
      * destruct (safe_write _ c w) as [r w1] eqn:Es.
        apply safe_write_inv in Es as (Ho & _ & _).
        destruct r as [[]|ex]; intros [= <- <-]; simpl; rewrite Ho;
          eexists; (split; [done|]); simpl; (split; [lia|]); (split; [lia|]).
        -- by intros p [= ->]%list_elem_of_singleton.
        -- by intros p ?%list_elem_of_singleton.
      * intros [= <- <-]. simpl. eexists. split; [done|]. simpl.
        split; [lia|]. split; [lia|]. by intros p ?%list_elem_of_singleton.
    + intros [= <- <-]. simpl. eexists. split; [done|]. simpl.
      split; [lia|]. split; [lia|]. by intros p ?%list_elem_of_singleton.
  - assert (l' = l /\ w' = w -> exists evs, w_out w' = w_out w ++ evs
      /\ length evs <= 1
      /\ written l' = written l + length (List.filter is_wrote evs)
      /\ (forall p, Wrote p ∈ evs -> None = Some p)) as Hsame.
    { intros [-> ->]. exists []. rewrite app_nil_r. simpl.
      split; [done|]. split; [lia|]. split; [lia|]. by intros p ?%elem_of_nil. }
    destruct (e_url e) as [[|c u]|]; [intros [= <- <-]; by apply Hsame|
                                     |intros [= <- <-]; by apply Hsame].
    destruct (urlparse (c :: u)); [|done]. intros [= <- <-]. by apply Hsame.
Qed.

Lemma extract_loop_out out_dir (es : list entry) l w l' w' :
  extract_loop out_dir es l w = (Ok l', w') ->
  exists evs, w_out w' = w_out w ++ evs
    /\ length evs <= length es
    /\ written l' = written l + length (List.filter is_wrote evs)
    /\ (forall p, Wrote p ∈ evs -> exists e, e ∈ es /\ target out_dir e = Some p).
Proof.
  revert l w. induction es as [|e es IH]; intros l w; simpl.
  - intros [= <- <-]. exists []. rewrite app_nil_r. simpl.
    split; [done|]. split; [lia|]. split; [lia|]. by intros p ?%elem_of_nil.
  - unfold bind. destruct (extract_entry out_dir e l w) as [[l1|ex] w1] eqn:E; [|done].
    intros H. apply extract_entry_out in E as (ev1 & Ho1 & Hl1 & Hw1 & Hp1).
    apply IH in H as (ev2 & Ho2 & Hl2 & Hw2 & Hp2).
    exists (ev1 ++ ev2). rewrite Ho2, Ho1, <- app_assoc. split; [done|].
    rewrite length_app, List.filter_app, length_app. split; [lia|]. split; [lia|].
    intros p [Hin|Hin]%elem_of_app.
    + exists e. split; [by left|by apply Hp1].
    + destruct (Hp2 p Hin) as (e' & He' & Ht). exists e'. split; [by right|done].
Qed.

(** X7.  The number in the closing line of the extraction is the number
    of the lines [WROTE: ...] printed before it; there is at most one line
    for each entry, and every line names the path of an entry. *)
Theorem written_counts_wrote out_dir (es : list entry) w hs w' :
  extract_har es out_dir w = (Ok hs, w') ->
  exists evs,
    w_out w' = w_out w ++ evs
               ++ [ExtractionComplete (length (List.filter is_wrote evs)) out_dir]
    /\ length evs <= length es
    /\ (forall p, Wrote p ∈ evs -> exists e, e ∈ es /\ target out_dir e = Some p).
Proof.
  intros (l & w1 & Hloop & Hfin)%extract_har_inv.
  apply finish_inv in Hfin as (_ & _ & Ho).
  apply extract_loop_out in Hloop as (evs & Ho1 & Hl & Hw & Hp).
  exists evs. rewrite Ho, Ho1, <- app_assoc. simpl in Hw. rewrite Hw. done.
Qed.

(** A turn for an entry without a target leaves the files and the count. *)
Lemma extract_entry_skips out_dir e l w l' w' :
  target out_dir e = None ->
  extract_entry out_dir e l w = (Ok l', w') ->
  w_fs w' = w_fs w /\ written l' = written l
  /\ (w_out w' = w_out w
      \/ exists u s, w_out w' = w_out w ++ [SkipNoBody u s]).
Proof.
  rewrite extract_entry_eq. unfold Spec.target.
  destruct (Spec.parts_of urlparse e) as [q|]; simpl.
  - destruct (is_image _); [intros _ [= <- <-]; by auto|].
    destruct (e_text e) as [text|]; [done|]. intros _ [= <- <-]. simpl.
    split; [done|]. split; [done|]. right. eauto.
  - intros _. destruct (e_url e) as [[|c u]|]; [intros [= <- <-]; by auto|
                                               |intros [= <- <-]; by auto].
    destruct (urlparse (c :: u)); [|done]. intros [= <- <-]. by auto.
Qed.

Lemma extract_loop_skips out_dir (es : list entry) l w l' w' :
  (forall e, e ∈ es -> target out_dir e = None) ->
  extract_loop out_dir es l w = (Ok l', w') ->
  w_fs w' = w_fs w /\ written l' = written l
  /\ exists evs, w_out w' = w_out w ++ evs
                 /\ Forall (fun ev => exists u s, ev = SkipNoBody u s) evs.
Proof.
  revert l w. induction es as [|e es IH]; intros l w Ht; simpl.
  - intros [= <- <-]. split; [done|]. split; [done|]. exists [].
    by rewrite app_nil_r.
  - unfold bind.
    destruct (extract_entry out_dir e l w) as [[l1|ex] w2] eqn:E; [|done].
    intros H. apply extract_entry_skips in E as (Hf & Hc & Ho);
      [|apply Ht; by left].
    destruct (IH l1 w2) as (Hf' & Hc' & evs & Ho' & Hevs); [|done|].
    { intros e' He'. apply Ht. by right. }
    split; [congruence|]. split; [congruence|].
    destruct Ho as [Ho|(u & s & Ho)]; rewrite Ho in Ho'.
    + by exists evs.
    + exists (SkipNoBody u s :: evs). rewrite <- app_assoc in Ho'.
      split; [done|]. constructor; [eauto|done].
Qed.

(** X8.  Lines 20-63, when no entry has something to write (the list is
    empty, or every entry lacks a URL, a netloc or a body, or is an image)
    and the path of the hosts file has no component [..]: nothing changes
    in the file system but the hosts file, the closing line reports 0
    files, and the lines printed from line 20 on, after the line of line 17
    and before the closing line, are the lines of the entries without a
    body. *)
Theorem skipped_entries_write_nothing out_dir (es : list entry) w hs w' :
  no_dotdot (hosts_file out_dir) = true ->
  (forall e, e ∈ es -> target out_dir e = None) ->
  extract_har es out_dir w = (Ok hs, w') ->
  w_fs w' = <[resolve (hosts_file out_dir)
              := File (Text (join newline (sorted hs)))]> (w_fs w)
  /\ exists evs, w_out w' = w_out w ++ evs ++ [ExtractionComplete 0 out_dir]
                 /\ Forall (fun ev => exists u s, ev = SkipNoBody u s) evs.
Proof.
  intros _ Ht (l & w1 & Hloop & Hfin)%extract_har_inv.
  apply finish_inv in Hfin as (-> & -> & ->).
  apply (extract_loop_skips _ _ _ _ _ _ Ht) in Hloop as (-> & -> & evs & -> & Hevs).
  split; [done|]. exists evs. by rewrite <- app_assoc.
Qed.

(** X9.  The output directory confines nothing: for an entry whose
    decoded path begins with a slash, [os.path.join] returns the path
    alone, so the turn of the loop is the same for every output
    directory, and the path it writes to is the decoded path. *)
Theorem absolute_path_ignores_out_dir (dir1 dir2 : str) e l w (q : url_parts) :
  parts_of e = Some q ->
  startswith (derived_path unquote (netloc q) (upath q)) (lit "/") = true ->
  extract_entry dir1 e l w = extract_entry dir2 e l w
  /\ (forall p, target dir1 e = Some p ->
                p = derived_path unquote (netloc q) (upath q)).
Proof.
  intros Hq Hs. rewrite !extract_entry_eq. unfold Spec.target. rewrite Hq. simpl.
  unfold path_join. rewrite Hs. split; [done|].
  intros p. destruct (is_image _); [done|]. destruct (e_text e); [|done].
  by intros [= <-].
Qed.

End Extraction2.
(** ** The patcher: exceptions, letter case, imports, static prefixes *)

Section PatchTotal.

Lemma replacer_loop_total (hs : list str) (url g0 : str) :
  Forall (fun h => h <> []) hs -> is_Some (replacer_loop hs url g0).
Proof.
  induction 1 as [|h hs Hh _ IH]; simpl; [done|].
  destruct (contains h url); [|done]. unfold split1_last.
  destruct h as [|x h]; [done|].
  by destruct (split_first (x :: h) url) as [[a b]|].
Qed.

Lemma sub_opt_total (re : regex) (f : rmatch -> option str) (s : str) :
  (forall m, is_Some (f m)) -> is_Some (sub_opt re f s).
Proof.
  intros Hf. unfold sub_opt.
  destruct (mapM (fun p => match p with Keep c => Some [c] | Hit m => f m end)
              (pieces re s)) as [x|] eqn:E; [done|].
  assert (is_Some (mapM (fun p => match p with Keep c => Some [c] | Hit m => f m end)
                     (pieces re s))) as [x Hx]; [|congruence].
  apply mapM_is_Some, Forall_forall. intros [c|m] _; simpl; [done|apply Hf].
Qed.

Lemma sub_opt_raises (re : regex) (f : rmatch -> option str) (s : str) (m : rmatch) :
  m ∈ hits re s -> f m = None -> sub_opt re f s = None.
Proof.
  intros Hm Hf. unfold sub_opt.
  destruct (mapM (fun p => match p with Keep c => Some [c] | Hit m => f m end)
              (pieces re s)) as [x|] eqn:E; [|done].
  assert (is_Some (mapM (fun p => match p with Keep c => Some [c] | Hit m => f m end)
                     (pieces re s))) as Hs by by rewrite E.
  apply mapM_is_Some in Hs. rewrite Forall_forall in Hs.
  apply elem_of_hits in Hm. specialize (Hs _ Hm). simpl in Hs.
  rewrite Hf in Hs. by destruct Hs.
Qed.

Lemma patch_text_total (hs : list str) (s : str) :
  Forall (fun h => h <> []) hs -> is_Some (patch_text hs s).
Proof.
  intros Hh.
  assert (forall m, is_Some (replacer hs m)) as Hr.
  { intros m. unfold replacer. destruct (is_image _); [done|].
    by apply replacer_loop_total. }
  unfold patch_text, patch_script, patch_link.
  destruct (sub_opt_total script_re _ s Hr) as [s1 ->]. simpl.
  by destruct (sub_opt_total link_re _ s1 Hr) as [s2 ->].
Qed.

(** X10.  [replacer] does not raise when no host of the set is the empty
    string; the set [extract_har] returns holds no empty string, so the
    patch of [main] does not raise either, in whatever order the set is
    iterated. *)
Theorem patch_text_never_raises :
  (forall (hs : list str) (s : str),
      Forall (fun h => h <> []) hs -> is_Some (patch_text hs s))
  /\ (forall urlparse unquote b64decode (es : list entry) (out_dir : str)
             (w w' : world) (hs : list str) (order : list str -> list str)
             (s : str),
        extract_har urlparse unquote b64decode es out_dir w = (Ok hs, w') ->
        order hs ≡ₚ hs ->
        is_Some (patch_text (order hs) s)).
Proof.
  split; [apply patch_text_total|].
  intros urlparse unquote b64decode es out_dir w w' hs order s Hhar Hperm.
  apply patch_text_total, Forall_forall. intros h Hin. rewrite Hperm in Hin.
  apply extract_har_inv in Hhar as (l & w1 & Hloop & Hfin).
  apply finish_inv in Hfin as (-> & _ & _).
  destruct (extract_loop_hosts _ _ _ _ _ _ _ _ _ Hloop) as [_ Hm]; [constructor|].
  apply Hm in Hin as [[]%elem_of_nil|(e & _ & He)].
  by apply host_of_Some in He as (url & p & _ & _ & _ & _ & ?).
Qed.

(** X11.  With the empty string as the first host of the set, a script
    tag whose URL is not an image makes [replacer] raise, for the empty
    string occurs in every URL and [split] refuses it; a link tag does the
    same when there is no script tag. *)
Theorem empty_host_raises (hs : list str) (s : str) (m : rmatch) :
  is_image (group1 m) = false ->
  (m ∈ hits script_re s -> patch_text ([] :: hs) s = None)
  /\ (hits script_re s = [] -> m ∈ hits link_re s ->
      patch_text ([] :: hs) s = None).
Proof.
  intros Hi.
  assert (replacer ([] :: hs) m = None) as Hr.
  { unfold replacer. rewrite Hi. simpl. unfold contains.
    by destruct (group1 m). }
  split.
  - intros Hm. unfold patch_text, patch_script.
    by rewrite (sub_opt_raises _ _ _ m Hm Hr).
  - intros Hs Hm. unfold patch_text, patch_script, patch_link.
    rewrite (sub_opt_no_hits _ _ _ Hs). simpl.
    by rewrite (sub_opt_raises _ _ _ m Hm Hr).
Qed.

End PatchTotal.

Section ImageCase.

Lemma lower_app (a b : str) : lower (a ++ b) = lower a ++ lower b.
Proof. apply map_app. Qed.

Lemma endswith_app (a b : str) : endswith (a ++ b) b = true.
Proof. unfold endswith. rewrite rev_app_distr. apply startswith_app. Qed.

Lemma endswith_inv (s x : str) :
  endswith s x = true -> exists a, s = a ++ x.
Proof.
  unfold endswith. intros [t Ht]%startswith_prefix.
  exists (rev t). by rewrite <- (rev_involutive s), Ht, rev_app_distr, rev_involutive.
Qed.

(** X12.  The image test looks at the end of the text and not at the
    case of its letters: a text is an image exactly when it ends in a text
    whose lower-case form is one of the seven extensions. *)
Theorem is_image_any_case (s : str) :
  is_image s = true
  <-> exists a ext, s = a ++ ext /\ lower ext ∈ IMAGE_EXTS.
Proof.
  unfold is_image, endswith_any. rewrite existsb_exists. split.
  - intros (x & Hx & He). apply endswith_inv in He as [a Ha].
    exists (take (length a) s), (drop (length a) s).
    split; [by rewrite take_drop|].
    assert (lower (drop (length a) s) = x) as ->; [|by apply list_elem_of_In].
    unfold lower in *. rewrite <- List.skipn_map. rewrite Ha.
    by rewrite drop_app_length.
  - intros (a & ext & -> & Hin). exists (lower ext).
    split; [by apply list_elem_of_In|]. rewrite lower_app. apply endswith_app.
Qed.

End ImageCase.
(** ** Imports and static prefixes *)

Section MatchSteps.

Implicit Types (k : cls) (re : regex) (cp : caps) (a b s : str).

(** [x+] takes a run of [x] that ends where [x] does, when what follows
    matches there. *)
Lemma match_plus_run k re cp a b r :
  a <> [] -> forallb (cls_mem k) a = true ->
  match b with [] => True | c :: _ => cls_mem k c = false end ->
  match_here re cp b = Some r ->
  match_here (Ch k Plus :: re) cp (a ++ b) = Some r.
Proof.
  intros Hne Ha Hb Hr. destruct a as [|c a]; [done|]. simpl in Ha.
  apply andb_true_iff in Ha as [Hc Ha]. cbn [app match_here]. rewrite Hc.
  by apply greedy_run.
Qed.

(** [x?] takes an [x] when what follows matches behind it. *)
Lemma match_opt_take k re cp (c : ascii) s r :
  cls_mem k c = true -> match_here re cp s = Some r ->
  match_here (Ch k Opt :: re) cp (c :: s) = Some r.
Proof. intros Hc Hr. cbn [match_here]. by rewrite Hc, Hr. Qed.

(** [x?] takes nothing where no [x] stands. *)
Lemma match_opt_skip k re cp s :
  match s with [] => True | c :: _ => cls_mem k c = false end ->
  match_here (Ch k Opt :: re) cp s = match_here re cp s.
Proof. intros Hs. cbn [match_here]. destruct s as [|c s]; [done|]. by rewrite Hs. Qed.

Lemma clear_of_spec (l a : str) :
  clear_of l a = true ->
  forall a1 a2, a = a1 ++ a2 -> a2 <> [] ->
                ~ l `prefix_of` a2 /\ ~ a2 `prefix_of` l.
Proof.
  intros H a1. revert a H. induction a1 as [|x a1 IH]; intros a H a2 -> Hne.
  - destruct a2 as [|y a2]; [done|]. cbn [app clear_of] in H.
    apply andb_true_iff in H as [[H1 H2]%andb_true_iff _].
    apply negb_true_iff in H1, H2. split; intros Hp%startswith_prefix; congruence.
  - cbn [app clear_of] in H. apply andb_true_iff in H as [_ H].
    by apply (IH _ H).
Qed.

(** A pattern that begins with a literal matches only where the literal
    stands. *)
Lemma lits_no_match (l : str) re a (r : str) :
  clear_of l a = true ->
  forall a1 a2, a = a1 ++ a2 -> a2 <> [] ->
    re_match (map (fun c => Ch (Is c) One) l ++ re) (a2 ++ r) = None.
Proof.
  intros Hclear a1 a2 Ha Hne. unfold re_match.
  destruct (match_here _ no_caps (a2 ++ r)) as [res|] eqn:E; [|done].
  exfalso. apply match_lits_inv in E as (t & Heq & _).
  destruct (clear_of_spec l a Hclear a1 a2 Ha Hne) as [H1 H2].
  apply app_eq_inv in Heq as [(x & Hk1 & Hk2)|(x & Hk1 & Hk2)].
  - apply H1. by exists x.
  - apply H2. by exists x.
Qed.

Lemma match_lits_end (l : str) cp (t : str) :
  match_here (map (fun c => Ch (Is c) One) l) cp (l ++ t) = Some (t, cp).
Proof.
  rewrite <- (app_nil_r (map _ l)). by rewrite match_lits.
Qed.

End MatchSteps.

Section Imports.

Implicit Types (a b s t h r ws sch body post : str).

Lemma sub_hit (re : regex) (f : rmatch -> str) (g r : str) (m : rmatch) :
  re_match re (g ++ r) = Some m -> group0 m = g -> g <> [] ->
  sub re f (g ++ r) = f m ++ sub re f r.
Proof.
  intros Hm Hg Hne.
  apply (sub_keep_hit re f [] g r m); [|done..].
  intros a1 a2 Ha Hn. by destruct a1, a2.
Qed.

Lemma split_char_zero (c : ascii) s : split_char c 0 s = [s].
Proof. by destruct s. Qed.

Lemma split_char_cut (n : nat) a t :
  no_slash a = true ->
  split_char "/" (S n) (a ++ "/"%char :: t) = a :: split_char "/" n t.
Proof.
  induction a as [|x a IH]; [done|]. simpl. intros [Hx Ha]%andb_true_iff.
  apply negb_true_iff in Hx. rewrite Hx. cbn [app] in IH. by rewrite (IH Ha).
Qed.

Lemma split_char_whole (n : nat) a : no_slash a = true -> split_char "/" n a = [a].
Proof.
  destruct n as [|n]; [intros _; apply split_char_zero|].
  induction a as [|x a IH]; [done|]. simpl. intros [Hx Ha]%andb_true_iff.
  apply negb_true_iff in Hx. by rewrite Hx, (IH Ha).
Qed.

Lemma is_http_cases sch : is_http sch = true -> sch = lit "http" \/ sch = lit "https".
Proof.
  unfold is_http. intros [H|H]%orb_true_iff; apply bool_decide_eq_true in H; auto.
Qed.

(** [url.split("/", 3)[-1]]: what follows the third slash, which is the
    first slash after the host; the host itself when none follows. *)
Lemma url_last_piece sch h r :
  is_http sch = true -> no_slash h = true ->
  last_piece (split_char "/" 3 (sch ++ lit "://" ++ h ++ "/"%char :: r)) = r.
Proof.
  intros Hs Hh.
  change (sch ++ lit "://" ++ h ++ "/"%char :: r)
    with (sch ++ [":"%char] ++ "/"%char :: [] ++ "/"%char :: h ++ "/"%char :: r).
  rewrite app_assoc, split_char_cut, (split_char_cut 1 []), (split_char_cut 0 h),
    split_char_zero; [done..|].
  by destruct (is_http_cases sch Hs) as [-> | ->].
Qed.

Lemma url_last_piece_bare sch h :
  is_http sch = true -> no_slash h = true ->
  last_piece (split_char "/" 3 (sch ++ lit "://" ++ h)) = h.
Proof.
  intros Hs Hh.
  change (sch ++ lit "://" ++ h)
    with (sch ++ [":"%char] ++ "/"%char :: [] ++ "/"%char :: h).
  rewrite app_assoc, split_char_cut, (split_char_cut 1 []), split_char_whole;
    [done..|].
  by destruct (is_http_cases sch Hs) as [-> | ->].
Qed.

(** The match of line 93 on an import: the group takes everything up to
    the closing parenthesis. *)
Lemma import_match ws (qo : str) sch body post :
  ws <> [] -> forallb is_space ws = true ->
  qo = [] \/ qo = [dq] \/ qo = [sq] ->
  is_http sch = true -> body <> [] -> no_paren body = true ->
  re_match import_re
    ((lit "@import" ++ ws ++ lit "url(" ++ qo ++ sch ++ lit "://" ++ body
      ++ lit ")") ++ post)
  = Some {| group0 := lit "@import" ++ ws ++ lit "url(" ++ qo ++ sch
                      ++ lit "://" ++ body ++ lit ")";
            group1 := sch ++ lit "://" ++ body |}.
Proof.
  intros Hne Hws Hq Hs Hb Hp.
  assert (match_here import_re no_caps
            ((lit "@import" ++ ws ++ lit "url(" ++ qo ++ sch ++ lit "://" ++ body
              ++ lit ")") ++ post)
          = Some (post,
                  {| g_open := Some ((sch ++ lit "://" ++ body) ++ lit ")" ++ post);
                     g_close := Some (lit ")" ++ post) |})) as Hm.
  { rewrite <- !app_assoc. unfold import_re, chars. rewrite match_lits.
    cbn [app]. apply match_plus_run; [done|done| |].
    { by simpl. }
    rewrite match_lits. cbn [app].
    assert (match_here
              (GOpen :: map (fun c => Ch (Is c) One) (lit "http")
                 ++ Ch (Is "s") Opt :: map (fun c => Ch (Is c) One) (lit "://")
                 ++ [Ch (Not ")") Plus; GClose; Ch (OneOf [dq; sq]) Opt;
                     Ch (Is ")") One])
              no_caps (sch ++ lit "://" ++ body ++ lit ")" ++ post)
            = Some (post,
                    {| g_open := Some (sch ++ lit "://" ++ body ++ lit ")" ++ post);
                       g_close := Some (lit ")" ++ post) |})) as Hin.
    { cbn [match_here g_close].
      assert (match_here [Ch (Not ")") Plus; GClose; Ch (OneOf [dq; sq]) Opt;
                          Ch (Is ")") One]
                {| g_open := Some (sch ++ lit "://" ++ body ++ lit ")" ++ post);
                   g_close := None |}
                (body ++ lit ")" ++ post)
              = Some (post,
                      {| g_open := Some (sch ++ lit "://" ++ body ++ lit ")" ++ post);
                         g_close := Some (lit ")" ++ post) |})) as Hrun.
      { apply match_plus_run.
        - done.
        - exact Hp.
        - by simpl.
        - reflexivity. }
      destruct (is_http_cases sch Hs) as [-> | ->].
      - rewrite match_lits, match_opt_skip by done. rewrite match_lits.
        exact Hrun.
      - change (match_here ?re ?cp (lit "https" ++ ?x))
          with (match_here re cp (lit "http" ++ "s"%char :: x)).
        rewrite match_lits. apply match_opt_take; [done|]. rewrite match_lits.
        exact Hrun. }
    destruct Hq as [-> | [-> | ->]].
    - cbn [app]. rewrite match_opt_skip; [done|].
      by destruct (is_http_cases sch Hs) as [-> | ->].
    - by apply match_opt_take.
    - by apply match_opt_take. }
  unfold re_match. rewrite Hm. cbn [g_open g_close]. f_equal. f_equal.
  - apply between_app.
  - apply between_app.
Qed.

End Imports.

Section ImportTheorems.

Implicit Types (h r ws sch post : str).

Lemma no_paren_app (a b : str) :
  no_paren a = true -> no_paren b = true -> no_paren (a ++ b) = true.
Proof. unfold no_paren. rewrite forallb_app. by intros -> ->. Qed.

(** X13.  An import whose URL stands in quotes is rewritten with a
    quote too many: the group of line 93 runs up to the closing
    parenthesis and so takes the closing quote along, and the replacement
    puts its own quotes around that. *)
Theorem import_keeps_closing_quote ws sch h r post (q : ascii) :
  ws <> [] -> forallb is_space ws = true -> is_http sch = true ->
  q = dq \/ q = sq ->
  no_slash h = true -> no_paren h = true -> no_paren r = true ->
  patch_import (lit "@import" ++ ws ++ lit "url(" ++ [q] ++ sch ++ lit "://"
                ++ h ++ lit "/" ++ r ++ [q] ++ lit ")" ++ post)
  = lit "@import url(" ++ [dq] ++ lit "./" ++ r ++ [q] ++ [dq] ++ lit ")"
    ++ patch_import post.
Proof.
  intros Hne Hws Hs Hq Hh Hph Hpr.
  assert (no_paren (h ++ lit "/" ++ r ++ [q]) = true) as Hb.
  { apply no_paren_app; [done|]. apply (no_paren_app (lit "/")); [done|].
    apply no_paren_app; [done|]. by destruct Hq as [-> | ->]. }
  assert (re_match import_re
            ((lit "@import" ++ ws ++ lit "url(" ++ [q] ++ sch ++ lit "://"
              ++ (h ++ lit "/" ++ r ++ [q]) ++ lit ")") ++ post)
          = Some {| group0 := lit "@import" ++ ws ++ lit "url(" ++ [q] ++ sch
                              ++ lit "://" ++ (h ++ lit "/" ++ r ++ [q]) ++ lit ")";
                    group1 := sch ++ lit "://" ++ h ++ lit "/" ++ r ++ [q] |}) as Hm.
  { apply import_match; [done|done| |done| |done].
    - destruct Hq as [-> | ->]; auto.
    - by destruct h. }
  unfold patch_import.
  replace (lit "@import" ++ ws ++ lit "url(" ++ [q] ++ sch ++ lit "://"
           ++ h ++ lit "/" ++ r ++ [q] ++ lit ")" ++ post)
    with ((lit "@import" ++ ws ++ lit "url(" ++ [q] ++ sch ++ lit "://"
           ++ (h ++ lit "/" ++ r ++ [q]) ++ lit ")") ++ post)
    by (by rewrite <- !app_assoc).
  rewrite (sub_hit _ _ _ _ _ Hm eq_refl); [|done].
  unfold import_repl. cbn [group1].
  change (sch ++ lit "://" ++ h ++ lit "/" ++ r ++ [q])
    with (sch ++ lit "://" ++ h ++ "/"%char :: (r ++ [q])).
  rewrite (url_last_piece sch h _ Hs Hh). by rewrite <- !app_assoc.
Qed.

(** X14.  An import whose URL stands without quotes is rewritten to the
    local path: what follows the host, or the host itself when no slash
    follows it. *)
Theorem import_without_quotes ws sch h r post :
  ws <> [] -> forallb is_space ws = true -> is_http sch = true ->
  h <> [] -> no_slash h = true -> no_paren h = true -> no_paren r = true ->
  patch_import (lit "@import" ++ ws ++ lit "url(" ++ sch ++ lit "://"
                ++ h ++ lit "/" ++ r ++ lit ")" ++ post)
  = lit "@import url(" ++ [dq] ++ lit "./" ++ r ++ [dq] ++ lit ")"
    ++ patch_import post
  /\ patch_import (lit "@import" ++ ws ++ lit "url(" ++ sch ++ lit "://"
                   ++ h ++ lit ")" ++ post)
     = lit "@import url(" ++ [dq] ++ lit "./" ++ h ++ [dq] ++ lit ")"
       ++ patch_import post.
Proof.
  intros Hne Hws Hs Hh Hsl Hph Hpr. split.
  - assert (re_match import_re
              ((lit "@import" ++ ws ++ lit "url(" ++ [] ++ sch ++ lit "://"
                ++ (h ++ lit "/" ++ r) ++ lit ")") ++ post)
            = Some {| group0 := lit "@import" ++ ws ++ lit "url(" ++ [] ++ sch
                                ++ lit "://" ++ (h ++ lit "/" ++ r) ++ lit ")";
                      group1 := sch ++ lit "://" ++ h ++ lit "/" ++ r |}) as Hm.
    { apply import_match; [done|done|auto|done| |].
      - by destruct h.
      - apply no_paren_app; [done|]. by apply (no_paren_app (lit "/")). }
    unfold patch_import.
    replace (lit "@import" ++ ws ++ lit "url(" ++ sch ++ lit "://"
             ++ h ++ lit "/" ++ r ++ lit ")" ++ post)
      with ((lit "@import" ++ ws ++ lit "url(" ++ [] ++ sch ++ lit "://"
             ++ (h ++ lit "/" ++ r) ++ lit ")") ++ post)
      by (by rewrite <- !app_assoc).
    rewrite (sub_hit _ _ _ _ _ Hm eq_refl); [|done].
    unfold import_repl. cbn [group1].
    change (sch ++ lit "://" ++ h ++ lit "/" ++ r)
      with (sch ++ lit "://" ++ h ++ "/"%char :: r).
    rewrite (url_last_piece sch h _ Hs Hsl). by rewrite <- !app_assoc.
  - assert (re_match import_re
              ((lit "@import" ++ ws ++ lit "url(" ++ [] ++ sch ++ lit "://"
                ++ h ++ lit ")") ++ post)
            = Some {| group0 := lit "@import" ++ ws ++ lit "url(" ++ [] ++ sch
                                ++ lit "://" ++ h ++ lit ")";
                      group1 := sch ++ lit "://" ++ h |}) as Hm.
    { by apply import_match; auto. }
    unfold patch_import.
    replace (lit "@import" ++ ws ++ lit "url(" ++ sch ++ lit "://"
             ++ h ++ lit ")" ++ post)
      with ((lit "@import" ++ ws ++ lit "url(" ++ [] ++ sch ++ lit "://"
             ++ h ++ lit ")") ++ post)
      by (by rewrite <- !app_assoc).
    rewrite (sub_hit _ _ _ _ _ Hm eq_refl); [|done].
    unfold import_repl. cbn [group1].
    rewrite (url_last_piece_bare sch h Hs Hsl). by rewrite <- !app_assoc.
Qed.

End ImportTheorems.

Section StaticPrefix.

Implicit Types (a b h sch : str).

Lemma next_abs_match sch h b :
  is_http sch = true -> h <> [] -> no_slash h = true ->
  re_match next_abs_re ((sch ++ lit "://" ++ h ++ lit "/_next/static/") ++ b)
  = Some {| group0 := sch ++ lit "://" ++ h ++ lit "/_next/static/";
            group1 := [] |}.
Proof.
  intros Hs Hne Hh.
  assert (match_here next_abs_re no_caps
            ((sch ++ lit "://" ++ h ++ lit "/_next/static/") ++ b)
          = Some (b, no_caps)) as Hm.
  { rewrite <- !app_assoc. unfold next_abs_re, chars.
    assert (match_here
              (map (fun c => Ch (Is c) One) (lit "://")
               ++ [Ch (Not "/") Plus]
               ++ map (fun c => Ch (Is c) One) (lit "/_next/static/"))
              no_caps (lit "://" ++ h ++ lit "/_next/static/" ++ b)
            = Some (b, no_caps)) as Hrun.
    { rewrite match_lits. cbn [app]. apply match_plus_run.
      - done.
      - exact Hh.
      - by simpl.
      - apply match_lits_end. }
    destruct (is_http_cases sch Hs) as [-> | ->].
    - rewrite match_lits. cbn [app]. by rewrite match_opt_skip.
    - change (match_here ?re ?cp (lit "https" ++ ?x))
        with (match_here re cp (lit "http" ++ "s"%char :: x)).
      rewrite match_lits. cbn [app]. by apply match_opt_take. }
  unfold re_match. rewrite Hm. cbn [g_open g_close no_caps]. f_equal. f_equal.
  apply between_app.
Qed.

Lemma next_rel_match h b :
  h <> [] -> no_slash h = true ->
  re_match next_rel_re ((lit "//" ++ h ++ lit "/_next/static/") ++ b)
  = Some {| group0 := lit "//" ++ h ++ lit "/_next/static/"; group1 := [] |}.
Proof.
  intros Hne Hh.
  assert (match_here next_rel_re no_caps
            ((lit "//" ++ h ++ lit "/_next/static/") ++ b)
          = Some (b, no_caps)) as Hm.
  { rewrite <- !app_assoc. unfold next_rel_re, chars.
    rewrite match_lits. cbn [app]. apply match_plus_run.
    - done.
    - exact Hh.
    - by simpl.
    - apply match_lits_end. }
  unfold re_match. rewrite Hm. cbn [g_open g_close no_caps]. f_equal. f_equal.
  apply between_app.
Qed.

(** X15.  Lines 96 and 97 put [./_next/static/] for the first absolute or
    protocol-relative prefix of the text, whatever tag or text it stands
    in, an [img] tag included, leave what stands before it, and go on
    behind it. *)
Theorem next_static_prefix_is_rewritten a sch h b :
  is_http sch = true -> h <> [] -> no_slash h = true ->
  (clear_of (lit "http") a = true ->
   patch_next_abs (a ++ sch ++ lit "://" ++ h ++ lit "/_next/static/" ++ b)
   = a ++ lit "./_next/static/" ++ patch_next_abs b)
  /\ (clear_of (lit "//") a = true ->
      patch_next_rel (a ++ lit "//" ++ h ++ lit "/_next/static/" ++ b)
      = a ++ lit "./_next/static/" ++ patch_next_rel b).
Proof.
  intros Hs Hne Hh. split; intros Hc.
  - unfold patch_next_abs.
    replace (a ++ sch ++ lit "://" ++ h ++ lit "/_next/static/" ++ b)
      with (a ++ (sch ++ lit "://" ++ h ++ lit "/_next/static/") ++ b)
      by (by rewrite <- !app_assoc).
    rewrite (sub_keep_hit _ _ _ _ _ _ (lits_no_match _ _ _ _ Hc)
               (next_abs_match sch h b Hs Hne Hh) eq_refl); [done|].
    by destruct (is_http_cases sch Hs) as [-> | ->].
  - unfold patch_next_rel.
    replace (a ++ lit "//" ++ h ++ lit "/_next/static/" ++ b)
      with (a ++ (lit "//" ++ h ++ lit "/_next/static/") ++ b)
      by (by rewrite <- !app_assoc).
    by rewrite (sub_keep_hit _ _ _ _ _ _ (lits_no_match _ _ _ _ Hc)
                  (next_rel_match h b Hne Hh) eq_refl).
Qed.

End StaticPrefix.
(** ** [patch_index]: the backup and the index *)

Section BackupName.

Implicit Types (p t : str).

(** A text without a slash, added to a path, is added to its last
    component. *)
Lemma split_all_suffix (c : ascii) p t :
  forallb (fun x => negb (ceqb x c)) t = true ->
  exists pre n, split_all c p = pre ++ [n]
                /\ split_all c (p ++ t) = pre ++ [n ++ t].
Proof.
  intros Ht. induction p as [|x p IH].
  - exists [], []. split; [done|]. by apply split_all_name.
  - destruct IH as (pre & n & Hp & Hpt). cbn [app split_all]. rewrite Hp, Hpt. destruct (ceqb x c).
    + by exists ([] :: pre), n.
    + destruct pre as [|q pre]; cbn [app].
      * by exists [], (x :: n).
      * by exists ((x :: q) :: pre), n.
Qed.

Lemma is_name_app (n t : str) : n <> [] -> t <> [] -> is_name (n ++ t) = true.
Proof.
  intros Hn Ht. unfold is_name. destruct n as [|x n]; [done|].
  destruct t as [|y t]; [done|]. rewrite !bool_decide_eq_false_2; [done| |done].
  destruct n; done.
Qed.

(** The backup is another file than the index. *)
Lemma resolve_suffix_ne p t :
  names_file p = true -> no_slash t = true -> t <> [] ->
  resolve (p ++ t) <> resolve p.
Proof.
  intros Hn Ht Hne. unfold names_file, last_piece in Hn.
  destruct (split_all_suffix "/" p t Ht) as (pre & n & Hp & Hpt).
  rewrite Hp, last_last in Hn. apply andb_true_iff in Hn as [Hn _].
  assert (n <> []) as Hn0 by (intros ->; done).
  assert (p <> []) as Hp0.
  { intros ->. cbn in Hp. destruct pre as [|? [|? ?]]; [|done..].
    injection Hp as <-. done. }
  rewrite !resolve_eq. unfold comps. rewrite Hp, Hpt, !List.filter_app.
  cbn [List.filter]. rewrite Hn, (is_name_app n t Hn0 Hne).
  change (lit "/") with ["/"%char]. rewrite (startswith_app_l p t _ Hp0).
  intros Heq.
  assert (List.filter is_name pre ++ [n ++ t] = List.filter is_name pre ++ [n])
    as Heq' by (destruct (startswith p ["/"%char]); [by injection Heq|done]).
  apply app_inj_tail in Heq' as [_ Heq'].
  rewrite <- (app_nil_r n) in Heq' at 2. apply app_inv_head in Heq'. done.
Qed.

End BackupName.

Section PatchIndex.

Variable utf8_decode : list Byte.byte -> option str.
Variable stamp : str.

Local Abbreviation patch_index := (patch_index utf8_decode stamp).
Local Abbreviation backup_of := (fun index_path : str => index_path ++ lit ".bak-" ++ stamp).

Hypothesis stamp_no_slash : no_slash stamp = true.

Implicit Types (w : world) (index_path : str) (hs : list str).

Lemma backup_ne index_path :
  names_file index_path = true ->
  resolve (backup_of index_path) <> resolve index_path.
Proof.
  intros Hn. apply resolve_suffix_ne; [done| |done].
  unfold no_slash in *. rewrite forallb_app. by rewrite stamp_no_slash.
Qed.

(** [patch_index], step by step. *)
Lemma patch_index_eq index_path hs w :
  patch_index index_path hs w
  = if negb (exists_ index_path (w_fs w))
    then (Ok tt, say (IndexNotFound index_path) w)
    else
      match read_at (resolve index_path) (w_fs w) with
      | Raise e => (Raise e, w)
      | Ok c =>
          match (match c with Text s => Some s | Bin b => utf8_decode b end) with
          | None => (Raise UnicodeDecodeError, w)
          | Some s0 =>
              let s := universal_newlines s0 in
              match open_write (backup_of index_path) (Text s) (w_fs w) with
              | Raise e => (Raise e, w)
              | Ok f1 =>
                  let w1 := say (BackedUp (backup_of index_path))
                              {| w_fs := f1; w_out := w_out w |} in
                  match patch_text hs s with
                  | None => (Raise ValueError, w1)
                  | Some s' =>
                      match open_write index_path (Text s') f1 with
                      | Raise e => (Raise e, w1)
                      | Ok f2 => (Ok tt, say Patched {| w_fs := f2; w_out := w_out w1 |})
                      end
                  end
              end
          end
      end.
Proof.
  unfold Main.patch_index, read_file, say. run_m.
  destruct (exists_ index_path (w_fs w)); cbn [negb]; [|done].
  destruct (read_at (resolve index_path) (w_fs w)) as [c|e]; [|done].
  destruct c as [s|b]; [|destruct (utf8_decode b) as [s|]; [|done]];
    (cbn zeta;
     destruct (open_write (backup_of index_path) (Text (universal_newlines s))
                 (w_fs w)) as [f1|e];
     [|done]; cbn [w_fs w_out];
     destruct (patch_text hs (universal_newlines s)) as [s'|]; [|done];
     cbn [w_fs w_out]; by destruct (open_write index_path (Text s') f1)).
Qed.

Lemma universal_newlines_id (s : str) : no_cr s = true -> universal_newlines s = s.
Proof.
  induction s as [|c s IH]; [done|]. cbn [no_cr forallb universal_newlines].
  intros [Hc Hs]%andb_true_iff. apply negb_true_iff in Hc. rewrite Hc.
  f_equal. by apply IH.
Qed.

(** X16.  When [patch_index] finds the index, at a path without a
    component [..], and returns, the backup holds the text of the index as
    it was read, which is the text the index held with [\r\n] and [\r]
    turned into [\n], and that very text when it has no [\r]; the index
    holds what the patch makes of the text read, every other file and
    directory is as it was, and the two lines are printed. *)
Theorem patch_index_keeps_backup index_path hs w w' :
  no_dotdot index_path = true ->
  exists_ index_path (w_fs w) = true ->
  patch_index index_path hs w = (Ok tt, w') ->
  exists s0 s',
    (w_fs w !! resolve index_path = Some (File (Text s0))
     \/ exists b, w_fs w !! resolve index_path = Some (File (Bin b))
                  /\ utf8_decode b = Some s0)
    /\ patch_text hs (universal_newlines s0) = Some s'
    /\ w_fs w' !! resolve (backup_of index_path)
       = Some (File (Text (universal_newlines s0)))
    /\ (no_cr s0 = true ->
        w_fs w' !! resolve (backup_of index_path) = Some (File (Text s0)))
    /\ w_fs w' !! resolve index_path = Some (File (Text s'))
    /\ (forall j, j <> resolve index_path -> j <> resolve (backup_of index_path) ->
                  w_fs w' !! j = w_fs w !! j)
    /\ w_out w' = w_out w ++ [BackedUp (backup_of index_path); Patched].
Proof.
  intros _ Hex. rewrite patch_index_eq, Hex. cbn [negb]. unfold read_at.
  destruct (w_fs w !! resolve index_path) as [[c|]|] eqn:Ei; [|done..].
  destruct (match c with Text s => Some s | Bin b => utf8_decode b end)
    as [s0|] eqn:Ec; [|done]. cbn zeta.
  destruct (open_write (backup_of index_path) (Text (universal_newlines s0))
              (w_fs w)) as [f1|e] eqn:E1; [|done].
  destruct (patch_text hs (universal_newlines s0)) as [s'|] eqn:Ep; [|done].
  destruct (open_write index_path (Text s') f1) as [f2|e] eqn:E2; [|done].
  intros [= <-]. cbn [w_fs w_out say].
  apply open_write_ok in E2 as (Hn & _ & _ & _ & ->).
  apply open_write_eq in E1 as ->.
  pose proof (backup_ne index_path Hn) as Hne.
  exists s0, s'. split.
  { destruct c as [s1|b]; [left; congruence|right; by exists b]. }
  split; [done|]. split; [by rewrite lookup_insert_ne, lookup_insert_eq|].
  split.
  { intros Hcr. rewrite lookup_insert_ne, lookup_insert_eq by done.
    by rewrite (universal_newlines_id s0 Hcr). }
  split; [apply lookup_insert_eq|]. split; [|by rewrite <- app_assoc].
  intros j H1 H2. by rewrite !lookup_insert_ne.
Qed.

(** X17.  When [patch_index] raises, the index is as it was.  When it is
    [replacer] that raises, the backup has been written before and its
    line printed. *)
Theorem patch_index_failure_keeps_index index_path hs w (e : exn) w' :
  names_file index_path = true ->
  patch_index index_path hs w = (Raise e, w') ->
  w_fs w' !! resolve index_path = w_fs w !! resolve index_path
  /\ (e = ValueError ->
      exists s, patch_text hs s = None
        /\ w_fs w' !! resolve (backup_of index_path) = Some (File (Text s))
        /\ w_out w' = w_out w ++ [BackedUp (backup_of index_path)]).
Proof.
  intros Hn. pose proof (backup_ne index_path Hn) as Hne.
  rewrite patch_index_eq.
  destruct (exists_ index_path (w_fs w)); cbn [negb]; [|done].
  unfold read_at.
  destruct (w_fs w !! resolve index_path) as [[c|]|] eqn:Ei;
    [|by intros [= <- <-]..].
  destruct (match c with Text s => Some s | Bin b => utf8_decode b end)
    as [s0|] eqn:Ec; [|by intros [= <- <-]]. cbn zeta.
  set (s := universal_newlines s0).
  destruct (open_write (backup_of index_path) (Text s) (w_fs w)) as [f1|e1] eqn:E1.
  - pose proof (open_write_eq _ _ _ _ E1) as ->.
    destruct (patch_text hs s) as [s'|] eqn:Ep.
    + destruct (open_write index_path (Text s') _) as [f2|e2] eqn:E2; [done|].
      intros [= <- <-]. cbn [w_fs w_out say]. apply open_write_raises in E2 as ->.
      split; [by rewrite lookup_insert_ne|done].
    + intros [= <- <-]. cbn [w_fs w_out say].
      split; [by rewrite lookup_insert_ne|]. intros _. exists s.
      split; [done|]. split; [apply lookup_insert_eq|done].
  - intros [= <- <-]. apply open_write_raises in E1 as ->. done.
Qed.

End PatchIndex.
(** ** [main]: the staging directory and the target *)

Section MainEdges.

Variable urlparse : str -> option url_parts.
Variable unquote : str -> str.
Variable b64decode : str -> option (list Byte.byte).
Variable utf8_decode : list Byte.byte -> option str.
Variable stamp : str.
Variable iter_order : list str -> list str.
Variable scan_order : path -> list (str * node) -> list (str * node).

Local Abbreviation main :=
  (main urlparse unquote b64decode utf8_decode stamp iter_order scan_order).
Local Abbreviation extract_har := (extract_har urlparse unquote b64decode).

Implicit Types (w : world) (out_dir : str) (fuel : nat) (es : list entry).

Lemma staging_resolve out_dir :
  resolve (path_join out_dir (lit "out_extracted")) = resolve out_dir ++ [staging_name].
Proof. by apply resolve_join_name. Qed.

(** X18.  The staging directory is never the target: the paths that
    line 116 compares differ for every [out_dir], so [main] always takes
    the branch that copies, and the line of line 128 is never printed. *)
Theorem staging_is_never_the_target fuel out_dir w :
  abspath (path_join out_dir (lit "out_extracted")) <> abspath out_dir
  /\ copy_phase scan_order fuel (path_join out_dir (lit "out_extracted")) out_dir w
     = match walk_copy scan_order fuel (path_join out_dir (lit "out_extracted"))
               out_dir (path_join out_dir (lit "out_extracted")) (say Copying w) with
       | Some (Ok _, w2) => Some (print CopyComplete w2)
       | other => other
       end.
Proof.
  assert (abspath (path_join out_dir (lit "out_extracted")) <> abspath out_dir) as Hne.
  { unfold abspath. rewrite staging_resolve. intros H.
    apply (f_equal length) in H. rewrite length_app in H. simpl in H. lia. }
  split; [done|]. unfold copy_phase. by rewrite bool_decide_eq_true_2.
Qed.

(** X19.  When [out_dir] names a regular file, [main] raises at its first
    step, the [makedirs] of line 114, before anything is read, written or
    printed. *)
Theorem main_stops_at_a_file fuel es out_dir w (d : content) :
  w_fs w !! resolve out_dir = Some (File d) -> is_top (resolve out_dir) = false ->
  main fuel es out_dir w = Some (Raise OSError, w).
Proof.
  intros Hf Ht. unfold Main.main.
  assert (makedirs (path_join out_dir (lit "out_extracted")) (w_fs w) = Raise OSError)
    as Hm.
  { unfold makedirs, makedirs_at.
    destruct (path_join out_dir (lit "out_extracted")) as [|x t] eqn:E.
    - pose proof (staging_resolve out_dir) as H. rewrite E in H.
      by destruct (resolve out_dir).
    - rewrite <- E, staging_resolve.
      apply (ensure_dirs_blocked _ _ (resolve out_dir) d); [|done..].
      apply prefix_in_prefixes; [by apply prefix_app_r|]. by intros H; rewrite H in Ht. }
  run_m. by rewrite Hm.
Qed.

Hypothesis scan_perm : forall d l, scan_order d l ≡ₚ l.

(** With the empty string as target, the copy of a file that lies
    directly in the staging directory asks [makedirs] for the empty
    path. *)
Lemma copy_file_top (n : str) w :
  good_name n = true ->
  copy_file (lit "out_extracted") [] (lit "out_extracted") n w = (Raise OSError, w).
Proof.
  intros Hn. unfold copy_file, relpath. rewrite (resolve_join_name _ n Hn).
  rewrite drop_app_length. cbn [join].
  assert (path_join [] n = n) as ->.
  { unfold path_join. by rewrite (good_name_no_slash n Hn). }
  assert (dirname n = []) as ->.
  { apply no_slash_dirname. unfold good_name in Hn.
    by apply andb_true_iff in Hn as [_ Hn]. }
  by run_m.
Qed.

(** X20.  With the empty string as [out_dir], [main] extracts into
    [out_extracted] and then raises in the copy: the target of the first
    file in the staging directory has no directory part, and [makedirs]
    refuses the empty path.  Nothing is copied and no index is patched. *)
Theorem main_empty_out_dir fuel es w (hs : list str) w1 :
  (seqM sys (makedirs (lit "out_extracted")) in
   extract_har es (lit "out_extracted")) w = (Ok hs, w1) ->
  good_tree (w_fs w1) [staging_name] ->
  main (S fuel) es [] w = Some (Raise OSError, say Copying w1).
Proof.
  intros Hrun Hgood. unfold Main.main.
  change (path_join [] (lit "out_extracted")) with (lit "out_extracted").
  rewrite Hrun. unfold copy_phase. rewrite bool_decide_eq_true_2 by done.
  unfold print at 1. fold (say Copying w1). cbn [walk_copy].
  assert (w_fs w1 !! [staging_name; lit "extracted_hosts.txt"]
          = Some (File (Text (join newline (sorted hs))))) as Hhosts.
  { revert Hrun. run_m.
    destruct (makedirs (lit "out_extracted") (w_fs w)) as [f1|e]; [|done].
    intros (l & w2 & _ & Hfin)%extract_har_inv.
    apply finish_inv in Hfin as (-> & -> & _). apply lookup_insert_eq. }
  set (files := map fst (List.filter (fun e => negb (is_Dir e.2))
                  (listdir scan_order (w_fs (say Copying w1))
                     (resolve (lit "out_extracted"))))).
  assert (forall n, n ∈ files -> good_name n = true) as Hnames.
  { intros n [c Hc]%elem_of_files. apply (elem_of_listdir _ scan_perm) in Hc.
    specialize (Hgood [n]). cbn [forallb] in Hgood.
    rewrite andb_true_r in Hgood. apply Hgood. by eexists. }
  assert (lit "extracted_hosts.txt" ∈ files) as Hin.
  { apply elem_of_files. eexists. apply (elem_of_listdir _ scan_perm). exact Hhosts. }
  destruct files as [|n rest]; [by apply elem_of_nil in Hin|].
  cbn [for_each]. unfold bind at 1.
  by rewrite (copy_file_top n _ (Hnames n ltac:(by left))).
Qed.

(** X21.  The copy is a copy when the staging directory holds no
    [out_extracted] of its own: let the output directory have no component
    [..], let the names under the staging directory be names, and let
    nothing lie under [out_extracted/out_extracted]; when the copy phase
    returns, everything under the staging directory is as it was before. *)
Theorem copy_phase_keeps_staging fuel out_dir w w' :
  no_dotdot out_dir = true ->
  good_tree (w_fs w) (resolve (path_join out_dir (lit "out_extracted"))) ->
  (forall r, w_fs w !! (resolve (path_join out_dir (lit "out_extracted"))
                        ++ staging_name :: r) = None) ->
  copy_phase scan_order fuel (path_join out_dir (lit "out_extracted")) out_dir w
  = Some (Ok tt, w') ->
  forall r : path,
    w_fs w' !! (resolve (path_join out_dir (lit "out_extracted")) ++ r)
    = w_fs w !! (resolve (path_join out_dir (lit "out_extracted")) ++ r).
Proof.
  set (out_sub := path_join out_dir (lit "out_extracted")).
  intros _ Hgood Hnest Hcp.
  assert (forall r, is_Some (w_fs w !! (resolve out_sub ++ r)) ->
                    length r <= deepest (w_fs w)) as Hdepth.
  { intros r Hr. apply deepest_bound in Hr. rewrite length_app in Hr. lia. }
  pose proof (walk_copy_spec scan_order scan_perm out_sub out_dir
                (staging_resolve out_dir) (w_fs w) Hgood Hnest (deepest (w_fs w))
                Hdepth) as Hwalk.
  unfold copy_phase in Hcp. rewrite bool_decide_eq_true_2 in Hcp.
  2:{ unfold abspath. fold out_sub. unfold out_sub. rewrite staging_resolve.
      intros H. apply (f_equal length) in H. rewrite length_app in H.
      simpl in H. lia. }
  unfold print at 1 in Hcp. fold (say Copying w) in Hcp.
  destruct (walk_copy scan_order fuel out_sub out_dir out_sub (say Copying w))
    as [[[[]|e] w2]|] eqn:Ew; [|done..].
  injection Hcp as <-.
  destruct (Hwalk (Nat.max fuel (S (deepest (w_fs w)))) out_sub [] (say Copying w))
    as (res & w3 & Hw3 & Hres).
  - by rewrite app_nil_r.
  - by intros r.
  - simpl. lia.
  - simpl. lia.
  - rewrite (walk_copy_mono scan_order fuel (Nat.max fuel (S (deepest (w_fs w))))
               _ _ _ _ _ ltac:(lia) Ew) in Hw3.
    injection Hw3 as <- <-. destruct (Hres eq_refl) as (Hun & _ & _).
    intros r. cbn [w_fs]. apply Hun.
Qed.

End MainEdges.
(** ** The further properties at work on examples *)

Import Cases.

Lemma safe_write_creates_witness :
  w_fs written_world !! resolve app_path = Some (File app_body)
  /\ (forall k, k `prefix_of` resolve (dirname app_path) ->
                is_dir (w_fs written_world) k = true)
  /\ (forall j n, j <> resolve app_path -> w_fs staged_world !! j = Some n ->
                  w_fs written_world !! j = Some n)
  /\ (forall j n, j <> resolve app_path -> w_fs written_world !! j = Some n ->
        w_fs staged_world !! j = Some n
        \/ (w_fs staged_world !! j = None /\ n = Dir
            /\ j `prefix_of` resolve (dirname app_path)))
  /\ w_out written_world = w_out staged_world.
Proof.
  apply (safe_write_creates app_path app_body staged_world written_world).
  - reflexivity.
  - apply (run_returns (safe_write app_path app_body staged_world)).
    vm_compute. reflexivity.
Defined.

Lemma safe_write_blocked_witness :
  safe_write app_path app_body blocked_world = (Raise OSError, blocked_world).
Proof.
  apply (safe_write_blocked app_path app_body blocked_world
           [lit "site"; lit "js"] (Text (lit "x"))).
  - exists []. vm_compute. reflexivity.
  - reflexivity.
  - vm_compute. reflexivity.
Defined.

Lemma safe_write_bare_name_witness :
  safe_write (lit "app.js") app_body staged_world = (Raise OSError, staged_world).
Proof. apply (safe_write_bare_name (lit "app.js") app_body staged_world). reflexivity. Defined.

Lemma safe_write_again_witness :
  safe_write app_path (Text (lit "2")) written_world
  = (Ok tt, {| w_fs := <[resolve app_path := File (Text (lit "2"))]>
                         (w_fs written_world);
               w_out := w_out written_world |}).
Proof.
  apply (safe_write_again app_path app_body (Text (lit "2")) staged_world
           written_world).
  apply (run_returns (safe_write app_path app_body staged_world)).
  vm_compute. reflexivity.
Defined.

Lemma slash_path_is_not_written_witness :
  exists h ex w1,
    host_of Lib.urlparse e_docs = Some h
    /\ extract_entry Lib.urlparse Lib.unquote Lib.b64decode staging e_docs
         start staged_world
       = (Ok (added h start),
          say (ErrorWriting (lit "site/out_extracted/docs/") ex) w1)
    /\ same_files (w_fs staged_world) (w_fs w1)
    /\ w_out w1 = w_out staged_world.
Proof.
  apply (slash_path_is_not_written Lib.urlparse Lib.unquote Lib.b64decode staging
           e_docs start staged_world (lit "site/out_extracted/docs/")).
  - vm_compute. reflexivity.
  - vm_compute. reflexivity.
Defined.

Lemma extract_har_urlparse_raises_witness :
  extract_har Lib.urlparse Lib.unquote Lib.b64decode
    ([e_app] ++ e_bad_url :: [e_root]) staging staged_world
  = (Raise ValueError, (run_loop [e_app]).2).
Proof.
  apply (extract_har_urlparse_raises Lib.urlparse Lib.unquote Lib.b64decode staging
           [e_app] [e_root] e_bad_url (lit "http://[bad/x.js")
           {| hosts := [cdn]; written := 1 |} staged_world (run_loop [e_app]).2).
  - apply (run_returns (run_loop [e_app])). vm_compute. reflexivity.
  - reflexivity.
  - discriminate.
  - vm_compute. reflexivity.
Defined.

Lemma written_counts_wrote_witness :
  exists evs,
    w_out (run_har [e_app; e_bad_b64; e_b64]).2
    = w_out staged_world ++ evs
      ++ [ExtractionComplete (length (List.filter is_wrote evs)) staging]
    /\ length evs <= length [e_app; e_bad_b64; e_b64]
    /\ (forall p, Wrote p ∈ evs ->
          exists e, e ∈ [e_app; e_bad_b64; e_b64]
                    /\ target Lib.urlparse Lib.unquote staging e = Some p).
Proof.
  apply (written_counts_wrote Lib.urlparse Lib.unquote Lib.b64decode staging
           [e_app; e_bad_b64; e_b64] staged_world [cdn; img_host]
           (run_har [e_app; e_bad_b64; e_b64]).2).
  apply (run_returns (run_har [e_app; e_bad_b64; e_b64])). vm_compute. reflexivity.
Defined.

Lemma skipped_entries_write_nothing_witness :
  w_fs (run_har [e_logo; e_file; e_nobody]).2
  = <[resolve (hosts_file staging) := File (Text (join newline (sorted [cdn])))]>
      (w_fs staged_world)
  /\ exists evs,
       w_out (run_har [e_logo; e_file; e_nobody]).2
       = w_out staged_world ++ evs ++ [ExtractionComplete 0 staging]
       /\ Forall (fun ev => exists u s, ev = SkipNoBody u s) evs.
Proof.
  apply (skipped_entries_write_nothing Lib.urlparse Lib.unquote Lib.b64decode
           staging [e_logo; e_file; e_nobody] staged_world [cdn]
           (run_har [e_logo; e_file; e_nobody]).2).
  - vm_compute. reflexivity.
  - intros e He.
    apply elem_of_cons in He as [->|He]; [vm_compute; reflexivity|].
    apply elem_of_cons in He as [->|He]; [vm_compute; reflexivity|].
    apply list_elem_of_singleton in He as ->. vm_compute. reflexivity.
  - apply (run_returns (run_har [e_logo; e_file; e_nobody])). vm_compute. reflexivity.
Defined.

Lemma absolute_path_ignores_out_dir_witness :
  extract_entry Lib.urlparse Lib.unquote Lib.b64decode staging e_abs start
    staged_world
  = extract_entry Lib.urlparse Lib.unquote Lib.b64decode (lit "elsewhere") e_abs
      start staged_world
  /\ (forall p, target Lib.urlparse Lib.unquote staging e_abs = Some p ->
                p = derived_path Lib.unquote cdn (lit "/%2Ftmp/x.js")).
Proof.
  apply (absolute_path_ignores_out_dir Lib.urlparse Lib.unquote Lib.b64decode
           staging (lit "elsewhere") e_abs start staged_world
           {| netloc := cdn; upath := lit "/%2Ftmp/x.js" |}).
  - vm_compute. reflexivity.
  - vm_compute. reflexivity.
Defined.

Lemma patch_text_never_raises_witness :
  is_Some (patch_text [cdn; img_host] script_remote).
Proof.
  apply (proj2 patch_text_never_raises Lib.urlparse Lib.unquote Lib.b64decode
           [e_app; e_b64] staging staged_world (run_har [e_app; e_b64]).2
           [cdn; img_host] (fun l => l) script_remote).
  - apply (run_returns (run_har [e_app; e_b64])). vm_compute. reflexivity.
  - reflexivity.
Defined.

Lemma empty_host_raises_witness : patch_text ([] :: [cdn]) script_remote = None.
Proof.
  apply (proj1 (empty_host_raises [cdn] script_remote script_match eq_refl)).
  assert (hits script_re script_remote = [script_match]) as ->
    by (vm_compute; reflexivity).
  apply elem_of_cons. left. reflexivity.
Defined.

Lemma is_image_any_case_witness : is_image (lit "media/LOGO.PNG") = true.
Proof.
  apply (proj2 (is_image_any_case (lit "media/LOGO.PNG"))).
  exists (lit "media/LOGO"), (lit ".PNG"). split; [reflexivity|].
  apply elem_of_cons. left. reflexivity.
Defined.

Lemma import_keeps_closing_quote_witness :
  patch_import (lit "@import" ++ lit " " ++ lit "url(" ++ [dq] ++ lit "https"
                ++ lit "://" ++ cdn ++ lit "/" ++ lit "css/a.css" ++ [dq]
                ++ lit ")" ++ lit ";")
  = lit "@import url(" ++ [dq] ++ lit "./" ++ lit "css/a.css" ++ [dq] ++ [dq]
    ++ lit ")" ++ patch_import (lit ";").
Proof.
  apply (import_keeps_closing_quote (lit " ") (lit "https") cdn (lit "css/a.css")
           (lit ";") dq).
  - discriminate.
  - reflexivity.
  - reflexivity.
  - left. reflexivity.
  - reflexivity.
  - reflexivity.
  - reflexivity.
Defined.

Lemma import_without_quotes_witness :
  patch_import (lit "@import" ++ lit " " ++ lit "url(" ++ lit "https" ++ lit "://"
                ++ cdn ++ lit "/" ++ lit "css/a.css" ++ lit ")" ++ lit ";")
  = lit "@import url(" ++ [dq] ++ lit "./" ++ lit "css/a.css" ++ [dq] ++ lit ")"
    ++ patch_import (lit ";")
  /\ patch_import (lit "@import" ++ lit " " ++ lit "url(" ++ lit "https"
                   ++ lit "://" ++ cdn ++ lit ")" ++ lit ";")
     = lit "@import url(" ++ [dq] ++ lit "./" ++ cdn ++ [dq] ++ lit ")"
       ++ patch_import (lit ";").
Proof.
  apply (import_without_quotes (lit " ") (lit "https") cdn (lit "css/a.css")
           (lit ";")).
  - discriminate.
  - reflexivity.
  - reflexivity.
  - discriminate.
  - reflexivity.
  - reflexivity.
  - reflexivity.
Defined.

Lemma next_static_prefix_is_rewritten_witness :
  patch_next_abs (html "<img src=`" ++ lit "https" ++ lit "://" ++ cdn
                  ++ lit "/_next/static/" ++ html "media/logo.png`>")
  = html "<img src=`" ++ lit "./_next/static/"
    ++ patch_next_abs (html "media/logo.png`>").
Proof.
  apply (proj1 (next_static_prefix_is_rewritten (html "<img src=`") (lit "https")
                  cdn (html "media/logo.png`>") eq_refl ltac:(discriminate) eq_refl)).
  reflexivity.
Defined.

Lemma patch_index_keeps_backup_witness :
  exists s0 s',
    (w_fs indexed_world !! resolve index_path = Some (File (Text s0))
     \/ exists b, w_fs indexed_world !! resolve index_path = Some (File (Bin b))
                  /\ no_utf8 b = Some s0)
    /\ patch_text [cdn] (universal_newlines s0) = Some s'
    /\ w_fs (patch_run [cdn]).2 !! resolve (index_path ++ lit ".bak-" ++ a_stamp)
       = Some (File (Text (universal_newlines s0)))
    /\ (no_cr s0 = true ->
        w_fs (patch_run [cdn]).2 !! resolve (index_path ++ lit ".bak-" ++ a_stamp)
        = Some (File (Text s0)))
    /\ w_fs (patch_run [cdn]).2 !! resolve index_path = Some (File (Text s'))
    /\ (forall j, j <> resolve index_path ->
                  j <> resolve (index_path ++ lit ".bak-" ++ a_stamp) ->
                  w_fs (patch_run [cdn]).2 !! j = w_fs indexed_world !! j)
    /\ w_out (patch_run [cdn]).2
       = w_out indexed_world
         ++ [BackedUp (index_path ++ lit ".bak-" ++ a_stamp); Patched].
Proof.
  apply (patch_index_keeps_backup no_utf8 a_stamp eq_refl index_path [cdn]
           indexed_world (patch_run [cdn]).2).
  - vm_compute. reflexivity.
  - vm_compute. reflexivity.
  - apply (run_returns (patch_run [cdn])). vm_compute. reflexivity.
Defined.

Lemma patch_index_failure_keeps_index_witness :
  w_fs (patch_run [[]]).2 !! resolve index_path
  = w_fs indexed_world !! resolve index_path
  /\ (ValueError = ValueError ->
      exists s, patch_text [[]] s = None
        /\ w_fs (patch_run [[]]).2 !! resolve (index_path ++ lit ".bak-" ++ a_stamp)
           = Some (File (Text s))
        /\ w_out (patch_run [[]]).2
           = w_out indexed_world
             ++ [BackedUp (index_path ++ lit ".bak-" ++ a_stamp)]).
Proof.
  apply (patch_index_failure_keeps_index no_utf8 a_stamp eq_refl index_path [[]]
           indexed_world ValueError (patch_run [[]]).2).
  - reflexivity.
  - vm_compute. reflexivity.
Defined.

Lemma main_stops_at_a_file_witness :
  main_on [e_app] (lit "site") file_world = Some (Raise OSError, file_world).
Proof.
  apply (main_stops_at_a_file Lib.urlparse Lib.unquote Lib.b64decode no_utf8
           a_stamp (fun l => l) (fun _ l => l) 10 [e_app] (lit "site") file_world
           (Text (lit "x"))).
  - vm_compute. reflexivity.
  - reflexivity.
Defined.

Lemma main_empty_out_dir_witness :
  main_on [e_app] [] empty_world = Some (Raise OSError, say Copying staged_run.2).
Proof.
  apply (main_empty_out_dir Lib.urlparse Lib.unquote Lib.b64decode no_utf8
           a_stamp (fun l => l) (fun _ l => l) (fun _ _ => reflexivity _) 9
           [e_app] empty_world [cdn] staged_run.2).
  - apply (run_returns staged_run). vm_compute. reflexivity.
  - apply tree_check_good. vm_compute. reflexivity.
Defined.

Lemma copy_phase_keeps_staging_witness :
  w_fs (world_of copy_run) !! (resolve staging ++ [lit "js"; lit "app.js"])
  = w_fs (run_har [e_app; e_root]).2 !! (resolve staging ++ [lit "js"; lit "app.js"]).
Proof.
  refine (copy_phase_keeps_staging (fun _ l => l) (fun _ _ => reflexivity _) 10
            (lit "site") (run_har [e_app; e_root]).2 (world_of copy_run) _ _ _ _
            [lit "js"; lit "app.js"]).
  - vm_compute. reflexivity.
  - apply tree_check_good. vm_compute. reflexivity.
  - apply tree_check_good. vm_compute. reflexivity.
  - apply (returned_eq copy_run). vm_compute. reflexivity.
Defined.
(** ** Texts that a substitution passes over *)

Import Quiet.

Section KeepFacts.

Implicit Types (re : regex) (a r s : str).




(** A substitution that returns has put, for every match, what the
    replacement function returned. *)
Lemma sub_opt_sub re (f : rmatch -> option str) s (out : str) :
  sub_opt re f s = Some out ->
  out = sub re (fun m => default (group0 m) (f m)) s.
Proof.
  unfold sub_opt, sub. generalize (pieces re s). intros ps. revert out.
  induction ps as [|p ps IH]; intros out.
  - by intros [= <-].
  - cbn [mapM flat_map]. destruct p as [c|m].
    + cbn [mbind option_bind]. destruct (mapM _ ps) as [k|]; [|done].
      cbn. intros [= <-]. f_equal. by apply IH.
    + destruct (f m) as [x|]; [|done]. cbn [mbind option_bind default].
      destruct (mapM _ ps) as [k|]; [|done]. cbn. intros [= <-]. f_equal.
      by apply IH.
Qed.

End KeepFacts.

Section ClearFacts.

Implicit Types (l a s v t : str).









End ClearFacts.

Section SpaceFacts.

Implicit Types (a r s : str).

Lemma lstrip_space_spec s :
  exists sp, s = sp ++ lstrip_space s /\ forallb is_space sp = true
    /\ match lstrip_space s with c :: _ => is_space c = false | [] => True end.
Proof.
  induction s as [|c s (sp & Hs & Hsp & Hl)]; [by exists []|].
  cbn [lstrip_space]. destruct (is_space c) eqn:E.
  - exists (c :: sp). cbn. rewrite E, Hsp. split; [by rewrite <- Hs|done].
  - by exists [].
Qed.

(** The white space a text begins with is determined by the text. *)
Lemma space_prefix_unique x x' y y' :
  forallb is_space x = true -> forallb is_space x' = true ->
  x ++ y = x' ++ y' ->
  match y with c :: _ => is_space c = false | [] => False end ->
  match y' with c :: _ => is_space c = false | [] => False end ->
  x = x' /\ y = y'.
Proof.
  revert x'. induction x as [|a x IH]; intros [|a' x']; simpl.
  - done.
  - intros _ [Ha _]%andb_true_iff ->. by rewrite Ha.
  - intros [Ha _]%andb_true_iff _ <-. by rewrite Ha.
  - intros [_ Hx]%andb_true_iff [_ Hx']%andb_true_iff [= -> Heq] Hy Hy'.
    by destruct (IH x' Hx Hx' Heq Hy Hy') as [-> ->].
Qed.

Lemma space_clear_suffix (head a1 a2 : str) :
  space_clear head (a1 ++ a2) = true -> space_clear head a2 = true.
Proof.
  induction a1 as [|c a1 IH]; [done|]. cbn [app space_clear].
  intros [_ H]%andb_true_iff. by apply IH.
Qed.

Variable name : string.
Hypothesis name_no_space :
  forallb (fun c => negb (is_space c)) (attr_head name) = true.

(** No match of the attribute pattern starts in a text that is clear. *)
Lemma space_no_match a r :
  space_clear (attr_head name) a = true ->
  forall a1 a2, a = a1 ++ a2 -> a2 <> [] ->
                re_match (attr_re name) (a2 ++ r) = None.
Proof.
  intros Hc a1 a2 -> Hne. apply space_clear_suffix in Hc. unfold re_match.
  destruct (match_here (attr_re name) no_caps (a2 ++ r)) as [res|] eqn:E; [|done].
  exfalso. apply attr_match_inv in E as (ws & rest & Heq & Hws & Hsp).
  destruct a2 as [|c a']; [done|]. destruct ws as [|w ws']; [done|].
  cbn [app] in Heq. injection Heq as -> Heq. cbn [forallb] in Hsp.
  apply andb_true_iff in Hsp as [Hw Hsp]. cbn [space_clear] in Hc. rewrite Hw in Hc.
  apply andb_true_iff in Hc as [Hc _].
  apply andb_true_iff in Hc as [[H0 H1]%andb_true_iff H2].
  apply negb_true_iff in H0, H1, H2. apply bool_decide_eq_false in H0.
  destruct (lstrip_space_spec a') as (sp & Ha' & Hspaces & Hhead).
  destruct (attr_head_cons name name_no_space) as (h & hl & Hh & Hhs).
  rewrite Ha', <- app_assoc in Heq.
  destruct (space_prefix_unique sp ws' (lstrip_space a' ++ r)
              (attr_head name ++ rest) Hspaces Hsp Heq) as [_ Heq'].
  - destruct (lstrip_space a') as [|x t]; [done|]. exact Hhead.
  - by rewrite Hh.
  - apply app_eq_inv in Heq' as [(k & Hk & _)|(k & Hk & _)].
    + assert (startswith (lstrip_space a') (attr_head name) = true) as H;
        [|congruence]. apply startswith_prefix. by exists k.
    + assert (startswith (attr_head name) (lstrip_space a') = true) as H;
        [|congruence]. apply startswith_prefix. by exists k.
Qed.


End SpaceFacts.

Section StageFacts.

Implicit Types (a r : str).






End StageFacts.

Section InertFacts.

Implicit Types (re : regex) (a r s t : str).


Lemma inert_nil re r : inert re [] r.
Proof. intros a1 a2 H Hne. by destruct a1, a2. Qed.


Lemma space_inert (name : string) a r :
  forallb (fun c => negb (is_space c)) (attr_head name) = true ->
  space_clear (attr_head name) a = true -> inert (attr_re name) a r.
Proof. intros Hn Hc a1 a2. by apply space_no_match. Qed.













End InertFacts.

(** ** The patcher with an empty host set *)

Import Pages.

Section EmptyHosts.

Implicit Types (a b h v ws r : str).

















End EmptyHosts.

Section EmptyHostSet.




End EmptyHostSet.

(** ** Script and link tags *)

Section TagFacts.

Implicit Types (re : regex) (a b r s : str) (m : rmatch).












End TagFacts.

Section TagTheorems.




End TagTheorems.

(** ** Patching twice *)

Section Idempotence.

(** Of a text with nothing for lines 89-97 to rewrite, the patcher
    removes the integrity and crossorigin attributes and nothing else. *)
Lemma patch_text_local (hs : list str) (d : str) :
  local_refs hs d = true -> patch_text hs d = Some (strip_attrs d).
Proof.
  unfold local_refs. rewrite !andb_true_iff, !bool_decide_eq_true, !forallb_forall.
  intros [[[[Hs Hl] Hi] Ha] Hr].
  unfold patch_text, patch_script, patch_link.
  rewrite sub_opt_id; [|intros m Hm; apply replacer_host_free, Hs; by apply list_elem_of_In].
  simpl. rewrite sub_opt_id; [|intros m Hm; apply replacer_host_free, Hl; by apply list_elem_of_In].
  simpl. unfold patch_static, strip_attrs, patch_next_rel, patch_next_abs,
    patch_import.
  by rewrite (sub_no_hits import_re), (sub_no_hits next_abs_re),
    (sub_no_hits next_rel_re).
Qed.

(** C4, as the code has it.  Take a text in which every script and link
    URL ends in an image extension or holds no host of the set, and in
    which neither the import pattern nor the two static-asset patterns
    match.  The patcher removes its integrity and crossorigin attributes
    and changes nothing else; and when what is left again is such a text,
    with no integrity or crossorigin attribute in it, patching twice gives
    what patching once gives. *)
Theorem C4_local_text_is_patched_once (hs : list str) (d : str) :
  local_refs hs d = true ->
  settled hs (strip_attrs d) = true ->
  patch_text hs d = Some (strip_attrs d)
  /\ patch_twice hs d = patch_text hs d.
Proof.
  intros Hd Hs. pose proof (patch_text_local hs d Hd) as H.
  split; [done|]. unfold patch_twice. rewrite H. simpl.
  by apply patch_text_settled.
Qed.

(** A script tag with a local URL and the two attributes, which the
    first run removes. *)
Lemma C4_witness :
  patch_text [cdn] script_attrs = Some (strip_attrs script_attrs)
  /\ patch_twice [cdn] script_attrs = patch_text [cdn] script_attrs.
Proof.
  apply (C4_local_text_is_patched_once [cdn] script_attrs); reflexivity.
Defined.

(** C4 as stated fails.  Every reference of [script_named] is relative,
    and the second run changes what the first one wrote, because the host
    occurs in the relative URL.  Every reference of [split_host] is
    relative and free of the host, and the second run changes what the
    first one wrote, because the host is there once the attribute is
    gone. *)
Lemma C4_counterexample :
  (relative_refs script_named = true
   /\ patch_text [site] script_named
      = Some (html "<script src=`./example.com.js`></script>")
   /\ patch_twice [site] script_named
      = Some (html "<script src=`./.js`></script>")
   /\ patch_twice [site] script_named <> patch_text [site] script_named)
  /\ (relative_refs split_host = true
      /\ local_refs [cdn] split_host = true
      /\ patch_text [cdn] split_host = Some split_host_once
      /\ patch_twice [cdn] split_host = Some split_host_twice
      /\ patch_twice [cdn] split_host <> patch_text [cdn] split_host).
Proof. by vm_compute. Qed.

End Idempotence.
